(* ================================================================== *)
(*  CodeSonify: a shallow embedding of the core pipeline               *)
(*                                                                     *)
(*    Module JS, RegExp   the JavaScript built-ins the sources call    *)
(*    types.ts            the records and enumerations                 *)
(*    Module Parser       parser.ts: lexical analyzer, metrics         *)
(*    Module Mapper       mapper.ts: tokens to notes, tempo            *)
(*    Module Composer     composer.ts: tracks, composition             *)
(*    Module Midi         midi.ts: Standard MIDI File encoder          *)
(*    Module Diff         diff.ts: diff parser and sonifier            *)
(*    Module Spec         notions the properties are stated with       *)
(*    Module Shape        notions of the further properties            *)
(*    then the properties, one section per subject                     *)
(*                                                                     *)
(*  Conventions of the embedding                                       *)
(*   - a JavaScript string is the list of its UTF-16 code units (Z);   *)
(*   - an integer-valued JavaScript number is a Z; the 32-bit          *)
(*     conversions of the bit operators are written out (toInt32);     *)
(*   - a fractional JavaScript number (times, velocities, volumes) is  *)
(*     an exact rational Q: NaN, the infinities and the rounding of    *)
(*     IEEE doubles are outside the model (the tempo formula is        *)
(*     checked against doubles, calculateTempo_double_agrees);         *)
(*   - [new Date().toISOString()] is a reading of the wall clock, an   *)
(*     explicit argument [now] of the functions that perform it;       *)
(*   - reading a field of an array element that does not exist (a      *)
(*     TypeError) is the [Throw] of a small error monad; a call that   *)
(*     spreads an array, [f(...xs)], stands for its value, and the     *)
(*     RangeError the engine raises when such a call has more          *)
(*     arguments than it accepts is modelled where a property is       *)
(*     about it, in [Parser.analyzeOn]; the size of the stack and of   *)
(*     the memory are not modelled;                                    *)
(*   - an object literal used as a table is the list of its own        *)
(*     properties, or a function on the enumeration of its keys.       *)
(* ================================================================== *)

From Stdlib Require Import ZArith QArith Qround Qminmax List String Ascii Bool Lia.
From Stdlib Require Import Permutation Sorted Lqa.
From Stdlib Require Floats Uint63.
Import ListNotations.

Local Open Scope Z_scope.

(* ------------------------------------------------------------------ *)
(*  JavaScript values and built-ins used by the sources                *)
(* ------------------------------------------------------------------ *)
Module JS.

(** A string: its UTF-16 code units. *)
Definition jsstring := list Z.

(** An ASCII literal of the source as code units. *)
Definition lit (s : string) : jsstring :=
  map (fun a => Z.of_N (N_of_ascii a)) (list_ascii_of_string s).
Arguments lit s%_string.

Fixpoint eqb (a b : jsstring) : bool :=
  match a, b with
  | [], [] => true
  | x :: a', y :: b' => (x =? y) && eqb a' b'
  | _, _ => false
  end.

(** [s.length] *)
Definition len (s : jsstring) : Z := Z.of_nat (List.length s).

(** [s.startsWith(p)] *)
Fixpoint startsWith (p s : jsstring) : bool :=
  match p, s with
  | [], _ => true
  | x :: p', y :: s' => (x =? y) && startsWith p' s'
  | _ :: _, [] => false
  end.

(** [s.includes(p)] *)
Fixpoint includes (p s : jsstring) : bool :=
  startsWith p s ||
  match s with
  | [] => false
  | _ :: s' => includes p s'
  end.

(** ECMAScript WhiteSpace and LineTerminator code units: the set used by
    [trim], [trimStart] and the [\s] class of regular expressions. *)
Definition isWhiteSpace (c : Z) : bool :=
  ((9 <=? c) && (c <=? 13)) || (c =? 32) || (c =? 160) || (c =? 5760)
  || ((8192 <=? c) && (c <=? 8202)) || (c =? 8232) || (c =? 8233)
  || (c =? 8239) || (c =? 8287) || (c =? 12288) || (c =? 65279).

(** [\d] *)
Definition isDigit (c : Z) : bool := (48 <=? c) && (c <=? 57).

(** [\w] *)
Definition isWordChar (c : Z) : bool :=
  ((97 <=? c) && (c <=? 122)) || ((65 <=? c) && (c <=? 90))
  || isDigit c || (c =? 95).

(** [.] of a regular expression without the s flag *)
Definition isLineTerminator (c : Z) : bool :=
  (c =? 10) || (c =? 13) || (c =? 8232) || (c =? 8233).

(** [s.trimStart()] *)
Fixpoint trimStart (s : jsstring) : jsstring :=
  match s with
  | [] => []
  | c :: s' => if isWhiteSpace c then trimStart s' else s
  end.

(** [s.trimEnd()] *)
Definition trimEnd (s : jsstring) : jsstring := rev (trimStart (rev s)).

(** [s.trim()] *)
Definition trim (s : jsstring) : jsstring := trimEnd (trimStart s).

(** [s.split('\n')]: never empty, [''.split('\n')] is [['']]. *)
Fixpoint splitLines (s : jsstring) : list jsstring :=
  match s with
  | [] => [[]]
  | c :: s' =>
      if c =? 10 then [] :: splitLines s'
      else match splitLines s' with
           | l :: ls => (c :: l) :: ls
           | [] => [[c]]
           end
  end.

(** [s.indexOf(c)] for a one-unit needle; [s.indexOf('')] is 0. *)
Fixpoint indexOfFrom (c : Z) (s : jsstring) (i : Z) : Z :=
  match s with
  | [] => -1
  | x :: s' => if x =? c then i else indexOfFrom c s' (i + 1)
  end.

Definition indexOfChar (first : option Z) (s : jsstring) : Z :=
  match first with
  | None => 0
  | Some c => indexOfFrom c s 0
  end.

(** Decimal digits of a non-negative integer, as [String(n)] prints it. *)
Fixpoint digitsPos (fuel : nat) (n : Z) (acc : jsstring) : jsstring :=
  match fuel with
  | O => acc
  | S f =>
      let acc' := (48 + n mod 10) :: acc in
      if n / 10 =? 0 then acc' else digitsPos f (n / 10) acc'
  end.

(** [String(n)] for an integer-valued number in the range printed without
    exponent. *)
Definition toString (n : Z) : jsstring :=
  if n <? 0 then 45 :: digitsPos (S (Z.to_nat (Z.log2 (- n)))) (- n) []
  else digitsPos (S (Z.to_nat (Z.log2 n))) n [].

(** Lower-case hexadecimal digits of a non-negative integer, as
    [n.toString(16)] prints it. *)
Fixpoint hexDigits (fuel : nat) (n : Z) (acc : jsstring) : jsstring :=
  match fuel with
  | O => acc
  | S f =>
      let d := n mod 16 in
      let acc' := (if d <? 10 then 48 + d else 87 + d) :: acc in
      if n / 16 =? 0 then acc' else hexDigits f (n / 16) acc'
  end.

Definition toString16 (n : Z) : jsstring :=
  hexDigits (S (Z.to_nat (Z.log2 n))) n [].

(** [s.padStart(n, '0')] *)
Definition padStart0 (n : nat) (s : jsstring) : jsstring :=
  repeat 48 (n - List.length s) ++ s.

(** [s.replace(pat, repl)] for a string [pat]: the first occurrence. *)
Fixpoint replaceFirst (pat repl s : jsstring) : jsstring :=
  if startsWith pat s then repl ++ skipn (List.length pat) s
  else match s with
       | [] => []
       | c :: s' => c :: replaceFirst pat repl s'
       end.

(** [parts.join(sep)] *)
Fixpoint join (sep : jsstring) (parts : list jsstring) : jsstring :=
  match parts with
  | [] => []
  | [p] => p
  | p :: ps => p ++ sep ++ join sep ps
  end.

(** ToInt32: the conversion applied to the operands of [&], [|], [<<], [>>]. *)
Definition toInt32 (z : Z) : Z := (z + 2 ^ 31) mod 2 ^ 32 - 2 ^ 31.

(** [a & b] *)
Definition band (a b : Z) : Z := Z.land (toInt32 a) (toInt32 b).
(** [a | b] *)
Definition bor (a b : Z) : Z := Z.lor (toInt32 a) (toInt32 b).
(** [a >> k] *)
Definition sar (a k : Z) : Z := Z.shiftr (toInt32 a) (k mod 32).
(** [a << k] *)
Definition shl (a k : Z) : Z := toInt32 (Z.shiftl (toInt32 a) (k mod 32)).

(** [Math.round] on a rational: the nearest integer, ties towards
    +infinity. *)
Definition round (q : Q) : Z := Qfloor (q + (1 # 2)).

(** [a < b] on numbers *)
Definition ltb (a b : Q) : bool := negb (Qle_bool b a).

(** [Math.floor] *)
Definition floor (q : Q) : Z := Qfloor q.

(** A computation that may raise a TypeError. *)
Inductive result (A : Type) : Type :=
| Ok : A -> result A
| Throw : result A.
Arguments Ok {A} _.
Arguments Throw {A}.

Definition bind {A B} (m : result A) (k : A -> result B) : result B :=
  match m with
  | Ok a => k a
  | Throw => Throw
  end.

(** [o.field] where [o] was read from an array: reading a field of
    [undefined] throws. *)
Definition defined {A} (o : option A) : result A :=
  match o with
  | Some a => Ok a
  | None => Throw
  end.

(** [l[i].field]: the element must exist. *)
Definition at_ {A} (l : list A) (i : nat) : result A :=
  defined (nth_error l i).

(** [l[i] = x] for an index inside the array. *)
Fixpoint setNth {A} (l : list A) (i : nat) (x : A) : list A :=
  match l, i with
  | [], _ => []
  | _ :: l', O => x :: l'
  | y :: l', S i' => y :: setNth l' i' x
  end.

(** [for (const x of xs)] over a body that emits notes and updates the
    state [S] it runs in. *)
Fixpoint forEach {A B S} (body : S -> A -> list B * S) (xs : list A)
    (s : S) : list B * S :=
  match xs with
  | [] => ([], s)
  | x :: xs' =>
      let (out1, s1) := body s x in
      let (out2, s2) := forEach body xs' s1 in
      (out1 ++ out2, s2)
  end.

(** The values of [i] in [for (let i = 0; i < n; i++)]. *)
Definition range (n : Z) : list Z := map Z.of_nat (seq 0 (Z.to_nat n)).

(** [xs[i]] for an array of numbers read inside its bounds. *)
Definition nthZ (xs : list Z) (i : Z) : Z := nth (Z.to_nat i) xs 0.

(** [s.charCodeAt(0) || d]: NaN (no first unit) and 0 are falsy. *)
Definition charCodeAt0 (s : jsstring) (d : Z) : Z :=
  match s with
  | [] => d
  | c :: _ => if c =? 0 then d else c
  end.

(** The value of a run of decimal digits. *)
Definition digitsValue (ds : jsstring) : Z :=
  fold_left (fun n c => n * 10 + (c - 48)) ds 0.

(** [parseFloat(s) || 0] on the strings a number token can hold,
    [/^\d+(\.\d+)?$/]: the decimal they denote, exactly. Other strings
    are read as NaN, hence 0. *)
Definition parseFloatOr0 (s : jsstring) : Q :=
  let i := indexOfFrom 46 s 0 in
  if i <? 0 then
    if forallb isDigit s && negb (len s =? 0) then inject_Z (digitsValue s)
    else 0%Q
  else
    let ip := firstn (Z.to_nat i) s in
    let fp := skipn (S (Z.to_nat i)) s in
    if forallb isDigit ip && negb (len ip =? 0)
       && forallb isDigit fp && negb (len fp =? 0)
    then (inject_Z (digitsValue ip)
          + inject_Z (digitsValue fp) / inject_Z (10 ^ len fp))%Q
    else 0%Q.

(** [l.filter(p).length] *)
Definition count {A} (p : A -> bool) (l : list A) : Z :=
  Z.of_nat (List.length (List.filter p l)).


End JS.

Notation "x <- m ;; k" := (JS.bind m (fun x => k))
  (at level 61, m at next level, right associativity).

Import JS.

(* ------------------------------------------------------------------ *)
(*  Regular expressions (the operators the sources use)                *)
(* ------------------------------------------------------------------ *)
Module RegExp.

(** The body of a pattern. [Chr p] is one code unit satisfying [p]: a
    literal, a class or an escape such as [\s], [\w], [\d] and [.]. *)
Inductive regex : Type :=
| Fail : regex
| Eps : regex
| Chr : (Z -> bool) -> regex
| Seq : regex -> regex -> regex
| Alt : regex -> regex -> regex
| Star : regex -> regex.

(** A pattern: its body, whether it starts with [^] and ends with [$]
    (none of the patterns of the sources has the m flag). *)
Record pattern : Type := mkPattern {
  fromStart : bool;
  body : regex;
  toEnd : bool
}.

Definition chr (c : string) : regex :=
  match lit c with
  | [x] => Chr (Z.eqb x)
  | _ => Fail
  end.

(** A literal run of characters. *)
Definition str (s : string) : regex :=
  fold_right (fun c r => Seq (Chr (Z.eqb c)) r) Eps (lit s).

(** A class [[...]] listing its members. *)
Definition cls (s : string) : regex :=
  Chr (fun c => existsb (Z.eqb c) (lit s)).

(** [['"]] and [['"`]]: apostrophe 39, double quote 34, backtick 96. *)
Definition quote : regex := Chr (fun c => (c =? 39) || (c =? 34)).
Definition anyQuote : regex :=
  Chr (fun c => (c =? 39) || (c =? 34) || (c =? 96)).

Definition ws : regex := Chr isWhiteSpace.
Definition word : regex := Chr isWordChar.
Definition digit : regex := Chr isDigit.
Definition dot : regex := Chr (fun c => negb (isLineTerminator c)).
Definition any : regex := Chr (fun _ => true).

Arguments chr c%_string.
Arguments str s%_string.
Arguments cls s%_string.

Definition plus (r : regex) : regex := Seq r (Star r).
Definition opt (r : regex) : regex := Alt r Eps.

Fixpoint seqs (rs : list regex) : regex :=
  match rs with
  | [] => Eps
  | [r] => r
  | r :: rs' => Seq r (seqs rs')
  end.

Fixpoint alts (rs : list regex) : regex :=
  match rs with
  | [] => Fail
  | [r] => r
  | r :: rs' => Alt r (alts rs')
  end.

Fixpoint nullable (r : regex) : bool :=
  match r with
  | Fail => false
  | Eps => true
  | Chr _ => false
  | Seq a b => nullable a && nullable b
  | Alt a b => nullable a || nullable b
  | Star _ => true
  end.

Definition mkSeq (a b : regex) : regex :=
  match a, b with
  | Fail, _ => Fail
  | _, Fail => Fail
  | Eps, _ => b
  | _, Eps => a
  | _, _ => Seq a b
  end.

Definition mkAlt (a b : regex) : regex :=
  match a, b with
  | Fail, _ => b
  | _, Fail => a
  | _, _ => Alt a b
  end.

(** The residual of [r] after reading [c]. *)
Fixpoint deriv (c : Z) (r : regex) : regex :=
  match r with
  | Fail => Fail
  | Eps => Fail
  | Chr p => if p c then Eps else Fail
  | Seq a b =>
      if nullable a then mkAlt (mkSeq (deriv c a) b) (deriv c b)
      else mkSeq (deriv c a) b
  | Alt a b => mkAlt (deriv c a) (deriv c b)
  | Star a => mkSeq (deriv c a) (Star a)
  end.

(** [r] matches the whole of [s]. *)
Fixpoint matches (r : regex) (s : jsstring) : bool :=
  match s with
  | [] => nullable r
  | c :: s' => matches (deriv c r) s'
  end.

(** [r] matches a prefix of [s]. *)
Fixpoint matchesPrefix (r : regex) (s : jsstring) : bool :=
  nullable r ||
  match s with
  | [] => false
  | c :: s' => matchesPrefix (deriv c r) s'
  end.

(** A match of [r] starts at some position of [s]; with [toEnd] it must
    reach the end of [s]. *)
Fixpoint searches (toEnd : bool) (r : regex) (s : jsstring) : bool :=
  (if toEnd then matches r s else matchesPrefix r s) ||
  match s with
  | [] => false
  | _ :: s' => searches toEnd r s'
  end.

(** [pattern.test(s)] *)
Definition test (p : pattern) (s : jsstring) : bool :=
  if fromStart p
  then (if toEnd p then matches (body p) s else matchesPrefix (body p) s)
  else searches (toEnd p) (body p) s.

(** [/body/] *)
Definition re (rs : list regex) : pattern := mkPattern false (seqs rs) false.
(** [/body$/] *)
Definition reEnd (rs : list regex) : pattern := mkPattern false (seqs rs) true.
(** [/^body/] *)
Definition reStart (rs : list regex) : pattern := mkPattern true (seqs rs) false.
(** [/^body$/] *)
Definition reWhole (rs : list regex) : pattern := mkPattern true (seqs rs) true.

End RegExp.

(* ------------------------------------------------------------------ *)
(*  types.ts                                                           *)
(* ------------------------------------------------------------------ *)

Inductive CodeLanguage : Type :=
| javascript | typescript | python | java | csharp | go | rust | unknown.

(** The token types. [inherited] is not in the source's union type: it
    stands for the value [LANGUAGE_KEYWORDS[w]] yields for a word [w]
    naming a member of [Object.prototype] ([constructor], [toString],
    ...), a function or object that the tokenizer stores as the token's
    type and that equals none of the seventeen strings. *)
Inductive TokenType : Type :=
| t_function | t_loop | t_conditional | t_variable | t_operator
| t_string | t_number | t_comment | t_class | t_import | t_return
| t_error | t_bracket_open | t_bracket_close | t_whitespace
| t_keyword | t_unknown | t_inherited.

Definition TokenType_eqb (a b : TokenType) : bool :=
  match a, b with
  | t_function, t_function | t_loop, t_loop
  | t_conditional, t_conditional | t_variable, t_variable
  | t_operator, t_operator | t_string, t_string | t_number, t_number
  | t_comment, t_comment | t_class, t_class | t_import, t_import
  | t_return, t_return | t_error, t_error
  | t_bracket_open, t_bracket_open | t_bracket_close, t_bracket_close
  | t_whitespace, t_whitespace | t_keyword, t_keyword
  | t_unknown, t_unknown => true
  | _, _ => false
  end.

Module CodeToken.
Record t : Type := mk {
  type : TokenType;
  value : jsstring;
  line : Z;
  column : Z;
  depth : Z
}.
End CodeToken.

Module CodeMetrics.
Record t : Type := mk {
  totalLines : Z;
  codeLines : Z;
  commentLines : Z;
  emptyLines : Z;
  functionCount : Z;
  loopCount : Z;
  conditionalCount : Z;
  variableCount : Z;
  maxNestingDepth : Z;
  complexity : Z;
  classCount : Z;
  importCount : Z;
  errorCount : Z
}.
End CodeMetrics.

Module CodeStructure.
#[local] Unset Elimination Schemes.
Inductive t : Type :=
| mk (type : TokenType) (name : jsstring) (startLine endLine depth : Z)
     (children : list t).
Definition startLine (s : t) : Z := let 'mk _ _ a _ _ _ := s in a.
Definition endLine (s : t) : Z := let 'mk _ _ _ a _ _ := s in a.
Definition children (s : t) : list t := let 'mk _ _ _ _ _ c := s in c.
(** [s.children.push(c)] *)
Definition pushChild (s c : t) : t :=
  let 'mk ty n a b d cs := s in mk ty n a b d (cs ++ [c]).
End CodeStructure.

Module CodeAnalysis.
Record t : Type := mk {
  language : CodeLanguage;
  tokens : list CodeToken.t;
  metrics : CodeMetrics.t;
  structures : list CodeStructure.t
}.
End CodeAnalysis.

Inductive NoteName : Type :=
| nC | nCs | nD | nDs | nE | nF | nFs | nG | nGs | nA | nAs | nB.

Inductive Duration : Type :=
| d16n | d8n | d8n_dot | d4n | d4n_dot | d2n | d2n_dot | d1n.

Inductive ScaleType : Type :=
| major | minor | pentatonic | blues | chromatic | dorian | mixolydian
| lydian.

Inductive Waveform : Type := sine | square | sawtooth | triangle.

Inductive InstrumentType : Type :=
| melody | bass | harmony | percussion | ambient | dissonance.

Definition InstrumentType_eqb (a b : InstrumentType) : bool :=
  match a, b with
  | melody, melody | bass, bass | harmony, harmony
  | percussion, percussion | ambient, ambient
  | dissonance, dissonance => true
  | _, _ => false
  end.

Module MusicNote.
Record t : Type := mk {
  note : jsstring;
  duration : Duration;
  velocity : Q;
  time : Q;
  instrument : InstrumentType
}.
End MusicNote.

Inductive EffectType : Type :=
| fx_reverb | fx_delay | fx_distortion | fx_chorus | fx_filter.

Module TrackEffect.
Record t : Type := mk {
  type : EffectType;
  params : list (string * Q)
}.
End TrackEffect.

Module MusicTrack.
Record t : Type := mk {
  name : jsstring;
  instrument : InstrumentType;
  waveform : Waveform;
  volume : Q;
  notes : list MusicNote.t;
  effects : list TrackEffect.t
}.
End MusicTrack.

Module CompositionMetadata.
Record t : Type := mk {
  sourceLanguage : CodeLanguage;
  linesAnalyzed : Z;
  complexity : Z;
  generatedAt : jsstring;
  codeHash : jsstring;
  musicalInterpretation : jsstring
}.
End CompositionMetadata.

Module MusicComposition.
Record t : Type := mk {
  title : jsstring;
  tempo : Z;
  timeSignature : Z * Z;
  key : NoteName;
  scale : ScaleType;
  duration : Q;
  tracks : list MusicTrack.t;
  metadata : CompositionMetadata.t
}.
End MusicComposition.

Inductive MusicStyle : Type := classical | electronic | s_ambient | jazz | rock.

Module SonifyRequest.
Record t : Type := mk {
  code : jsstring;
  language : option CodeLanguage;
  style : option MusicStyle
}.
End SonifyRequest.

(* ------------------------------------------------------------------ *)
(*  parser.ts                                                          *)
(* ------------------------------------------------------------------ *)
Module Parser.
Import RegExp.

(** [LANGUAGE_SIGNATURES], in the order of the object literal. *)
Definition LANGUAGE_SIGNATURES : list (CodeLanguage * list pattern) :=
  [ (typescript,
      [ re [chr ":"; Star ws;
            alts [str "string"; str "number"; str "boolean"; str "any";
                  str "void"; str "never"]];
        re [str "interface"; plus ws; plus word];
        re [str "import"; plus ws; Star dot; str "from"; plus ws; quote];
        re [chr "?"; chr "."; plus word];
        re [chr "<"; plus word; chr ">"] ]);
    (javascript,
      [ re [str "const"; plus ws; plus word; Star ws; chr "="];
        re [str "let"; plus ws; plus word];
        re [str "=>"; Star ws; opt (chr "{")];
        re [str "require("];
        re [str "module.exports"] ]);
    (python,
      [ re [str "def"; plus ws; plus word; chr "("];
        re [str "import"; plus ws; plus word];
        re [str "class"; plus ws; plus word; chr ":"];
        reEnd [str "if"; plus ws; Star dot; chr ":"];
        re [str "print("] ]);
    (java,
      [ re [str "public"; plus ws; opt (Seq (str "static") (plus ws));
            str "class"];
        re [str "System.out"];
        re [str "void"; plus ws; str "main"];
        re [str "private"; plus ws; plus word];
        re [str "import"; plus ws; str "java."] ]);
    (csharp,
      [ re [str "using"; plus ws; str "System"];
        re [str "namespace"; plus ws; plus word];
        re [str "public"; plus ws; str "class"];
        re [str "Console.Write"];
        reEnd [chr "["; Star dot; chr "]"; Star ws] ]);
    (go,
      [ re [str "func"; plus ws; plus word; chr "("];
        re [str "package"; plus ws; plus word];
        re [str "import"; plus ws; chr "("];
        re [str "fmt.Print"];
        re [str ":="; Star ws] ]);
    (rust,
      [ re [str "fn"; plus ws; plus word; chr "("];
        re [str "let"; plus ws; str "mut"; plus ws];
        re [str "impl"; plus ws; plus word];
        re [str "pub"; plus ws; str "fn"];
        re [str "use"; plus ws; plus word; str "::"] ]);
    (unknown, []) ].

(** [LANGUAGE_KEYWORDS], the own properties of the object. *)
Definition LANGUAGE_KEYWORDS : list (string * TokenType) :=
  [ ("function", t_function); ("def", t_function); ("fn", t_function);
    ("func", t_function); ("async", t_function); ("await", t_function);
    ("lambda", t_function);
    ("for", t_loop); ("while", t_loop); ("do", t_loop); ("foreach", t_loop);
    ("loop", t_loop); ("each", t_loop); ("map", t_loop); ("filter", t_loop);
    ("reduce", t_loop); ("forEach", t_loop);
    ("if", t_conditional); ("else", t_conditional); ("elif", t_conditional);
    ("switch", t_conditional); ("case", t_conditional);
    ("match", t_conditional); ("when", t_conditional);
    ("unless", t_conditional); ("ternary", t_conditional);
    ("var", t_variable); ("let", t_variable); ("const", t_variable);
    ("val", t_variable); ("mut", t_variable); ("static", t_variable);
    ("class", t_class); ("struct", t_class); ("interface", t_class);
    ("enum", t_class); ("trait", t_class); ("type", t_class);
    ("import", t_import); ("require", t_import); ("use", t_import);
    ("using", t_import); ("include", t_import); ("from", t_import);
    ("return", t_return); ("yield", t_return); ("throw", t_return);
    ("new", t_keyword); ("this", t_keyword); ("self", t_keyword);
    ("super", t_keyword); ("null", t_keyword); ("nil", t_keyword);
    ("true", t_keyword); ("false", t_keyword); ("undefined", t_keyword);
    ("try", t_keyword); ("catch", t_keyword); ("finally", t_keyword);
    ("public", t_keyword); ("private", t_keyword); ("protected", t_keyword);
    ("export", t_keyword); ("default", t_keyword); ("extends", t_keyword);
    ("implements", t_keyword); ("abstract", t_keyword);
    ("override", t_keyword) ]%string.

(** The members every object literal inherits from [Object.prototype];
    each is a function or an object, hence truthy. *)
Definition OBJECT_PROTOTYPE : list string :=
  [ "constructor"; "__defineGetter__"; "__defineSetter__";
    "hasOwnProperty"; "__lookupGetter__"; "__lookupSetter__";
    "isPrototypeOf"; "propertyIsEnumerable"; "toString"; "valueOf";
    "__proto__"; "toLocaleString" ]%string.

(** [LANGUAGE_KEYWORDS[w]]: [None] is [undefined]. *)
Definition lookupKeyword (w : jsstring) : option TokenType :=
  match find (fun kv => JS.eqb (lit (fst kv)) w) LANGUAGE_KEYWORDS with
  | Some kv => Some (snd kv)
  | None =>
      if existsb (fun n => JS.eqb (lit n) w) OBJECT_PROTOTYPE
      then Some t_inherited else None
  end.

(** The [for (const pattern of patterns)] loop of [detectLanguage]. *)
Definition score (patterns : list pattern) (code : jsstring) : Z :=
  fold_left (fun n p => if test p code then n + 1 else n) patterns 0.

(** [detectLanguage(code)] *)
Definition detectLanguage (code : jsstring) : CodeLanguage :=
  let scores :=
    map (fun lp => (fst lp, score (snd lp) code))
        (List.filter (fun lp => match fst lp with unknown => false | _ => true end)
                LANGUAGE_SIGNATURES) in
  let best :=
    fold_left (fun (b : CodeLanguage * Z) (ls : CodeLanguage * Z) =>
                 if snd b <? snd ls then (fst ls, snd ls) else b)
              scores (unknown, 0) in
  if 0 <? snd best then fst best else unknown.

(** The separator class of the split in [tokenize]:
    [[{}()\[\];,.:=<>+\-*\/!&|^~?@#$%]]. *)
Definition isSeparator (c : Z) : bool :=
  existsb (Z.eqb c) (lit "{}()[];,.:=<>+-*/!&|^~?@#$%").

Definition flush (cur : jsstring) (k : list jsstring) : list jsstring :=
  match cur with
  | [] => k
  | _ => rev cur :: k
  end.

(** [trimmed.split(/(\s+|[sep])/g).filter(w => w.trim().length > 0)]:
    the split returns the pieces between the matches and, for the
    capturing group, the matches themselves; the filter drops the empty
    pieces and the runs of white space. What is left, in order: the
    maximal runs free of white space and separators, and each separator
    character on its own. [cur] is the run being read, reversed. *)
Fixpoint splitWords (s : jsstring) (cur : jsstring) : list jsstring :=
  match s with
  | [] => flush cur []
  | c :: s' =>
      if isWhiteSpace c then flush cur (splitWords s' [])
      else if isSeparator c then flush cur ([c] :: splitWords s' [])
      else splitWords s' (c :: cur)
  end.

(** [(trimmed.match(/[{(\[]/g) || []).length] *)
Definition openBrackets (trimmed : jsstring) : Z :=
  Z.of_nat (List.length (List.filter (fun c => existsb (Z.eqb c) (lit "{([")) trimmed)).

(** [(trimmed.match(/[})\]]/g) || []).length] *)
Definition closeBrackets (trimmed : jsstring) : Z :=
  Z.of_nat (List.length (List.filter (fun c => existsb (Z.eqb c) (lit "})]")) trimmed)).

Definition isComment (trimmed : jsstring) : bool :=
  startsWith (lit "//") trimmed || startsWith (lit "#") trimmed
  || startsWith (lit "--") trimmed || startsWith (lit "/*") trimmed
  || startsWith (lit "*") trimmed.

(** The chain of tests on one word of a line. *)
Definition classify (line cleanWord : jsstring) : TokenType :=
  if test (reStart [anyQuote]) cleanWord then t_string
  else if test (reWhole [plus digit; opt (Seq (chr ".") (plus digit))]) cleanWord
  then t_number
  else if test (reWhole [plus (cls "=+-*/%<>!&|^~?")]) cleanWord then t_operator
  else if test (reWhole [cls "{(["]) cleanWord then t_bracket_open
  else if test (reWhole [cls "})]"]) cleanWord then t_bracket_close
  else match lookupKeyword cleanWord with
       | Some ty => ty
       | None =>
           if test (reEnd [plus word; Star ws]) cleanWord
              && includes (cleanWord ++ lit "(") line
           then t_function
           else t_unknown
       end.

(** The [for (const word of words)] loop: the tokens of one line. *)
Fixpoint tokenizeWords (line : jsstring) (lineIdx currentDepth : Z)
    (words : list jsstring) (columnOffset : Z) : list CodeToken.t :=
  match words with
  | [] => []
  | word :: rest =>
      let cleanWord := trim word in
      match cleanWord with
      | [] => tokenizeWords line lineIdx currentDepth rest columnOffset
      | _ =>
          CodeToken.mk (classify line cleanWord) cleanWord (lineIdx + 1)
                       columnOffset currentDepth
          :: tokenizeWords line lineIdx currentDepth rest
               (columnOffset + len cleanWord + 1)
      end
  end.

(** The body of the [for (lineIdx ...)] loop of [tokenize]: the tokens of
    the line and the depth after it. *)
Definition tokenizeLine (line : jsstring) (lineIdx currentDepth : Z)
    : list CodeToken.t * Z :=
  let trimmed := trim line in
  if len trimmed =? 0 then
    ([CodeToken.mk t_whitespace [] (lineIdx + 1) 0 currentDepth], currentDepth)
  else if isComment trimmed then
    ([CodeToken.mk t_comment trimmed (lineIdx + 1)
        (indexOfChar (hd_error trimmed) line) currentDepth], currentDepth)
  else
    let words := splitWords trimmed [] in
    let columnOffset := len line - len (trimStart line) in
    let toks := tokenizeWords line lineIdx currentDepth words columnOffset in
    let d := currentDepth + (openBrackets trimmed - closeBrackets trimmed) in
    (toks, if d <? 0 then 0 else d).

Fixpoint tokenizeFrom (lines : list jsstring) (lineIdx currentDepth : Z)
    : list CodeToken.t :=
  match lines with
  | [] => []
  | line :: rest =>
      let (toks, d) := tokenizeLine line lineIdx currentDepth in
      toks ++ tokenizeFrom rest (lineIdx + 1) d
  end.

(** [tokenize(code, lines)] *)
Definition tokenize (code : jsstring) (lines : list jsstring)
    : list CodeToken.t :=
  tokenizeFrom lines 0 0.

(** [structureTypes.includes(ty)] *)
Definition isStructureType (ty : TokenType) : bool :=
  match ty with
  | t_function | t_class | t_loop | t_conditional => true
  | _ => false
  end.

(** The [for (let j = i + 1; ...)] loop of [extractStructures]; [js] are
    the indices still to visit. *)
Fixpoint findEndLine (tokens : list CodeToken.t) (token : CodeToken.t)
    (js : list nat) (endLine : Z) : result Z :=
  match js with
  | [] => Ok endLine
  | j :: js' =>
      tj <- at_ tokens j ;;
      if (CodeToken.depth tj <? CodeToken.depth token)
         && (CodeToken.line token <? CodeToken.line tj)
      then Ok (CodeToken.line tj - 1)
      else findEndLine tokens token js' (CodeToken.line tj)
  end.

(** One turn of the [while (i < tokens.length)] loop: the structure
    pushed for [tokens[i]], if any. *)
Definition structureAt (tokens : list CodeToken.t) (i : nat)
    : result (list CodeStructure.t) :=
  token <- at_ tokens i ;;
  if isStructureType (CodeToken.type token) then
    name <- (if (i + 1 <? List.length tokens)%nat then
               next <- at_ tokens (i + 1) ;;
               Ok (match CodeToken.type next with
                   | t_unknown => CodeToken.value next
                   | _ => CodeToken.value token
                   end)
             else Ok (CodeToken.value token)) ;;
    endLine <- findEndLine tokens token
                 (seq (i + 1) (List.length tokens - (i + 1)))
                 (CodeToken.line token) ;;
    Ok [CodeStructure.mk (CodeToken.type token) name (CodeToken.line token)
          endLine (CodeToken.depth token) []]
  else Ok [].

Fixpoint extractLoop (tokens : list CodeToken.t) (idxs : list nat)
    (structures : list CodeStructure.t) : result (list CodeStructure.t) :=
  match idxs with
  | [] => Ok structures
  | i :: idxs' =>
      s <- structureAt tokens i ;;
      extractLoop tokens idxs' (structures ++ s)
  end.

(** [isInsideStructure(child, parent)] *)
Definition isInsideStructure (child parent : CodeStructure.t) : bool :=
  (CodeStructure.startLine parent <? CodeStructure.startLine child)
  && (CodeStructure.endLine child <=? CodeStructure.endLine parent).

(** The [for (let i = root.length - 1; i >= 0; i--)] loop of
    [nestStructures]: [Some root'] when the structure was placed. *)
Fixpoint place (root : list CodeStructure.t) (struct : CodeStructure.t)
    (idxs : list nat) : result (option (list CodeStructure.t)) :=
  match idxs with
  | [] => Ok None
  | i :: idxs' =>
      r <- at_ root i ;;
      if isInsideStructure struct r
      then Ok (Some (setNth root i (CodeStructure.pushChild r struct)))
      else place root struct idxs'
  end.

Fixpoint nestLoop (structures root : list CodeStructure.t)
    : result (list CodeStructure.t) :=
  match structures with
  | [] => Ok root
  | struct :: rest =>
      placed <- place root struct (rev (seq 0 (List.length root))) ;;
      match placed with
      | Some root' => nestLoop rest root'
      | None => nestLoop rest (root ++ [struct])
      end
  end.

(** [nestStructures(structures)] *)
Definition nestStructures (structures : list CodeStructure.t)
    : result (list CodeStructure.t) :=
  nestLoop structures [].

(** [extractStructures(tokens, lines)] *)
Definition extractStructures (tokens : list CodeToken.t)
    (lines : list jsstring) : result (list CodeStructure.t) :=
  structures <- extractLoop tokens (seq 0 (List.length tokens)) [] ;;
  nestStructures structures.

Definition countType (ty : TokenType) (tokens : list CodeToken.t) : Z :=
  count (fun t => TokenType_eqb (CodeToken.type t) ty) tokens.

(** The complexity score of [calculateMetrics], before and after
    [Math.round]. *)
Definition complexityScore (maxNestingDepth conditionalCount loopCount
    codeLines functionCount : Z) : Q :=
  let nestingScore := Z.min (maxNestingDepth * 10) 30 in
  let branchScore := Z.min ((conditionalCount + loopCount) * 5) 30 in
  let sizeScore := Qmin (inject_Z codeLines * (1 # 2)) (inject_Z 20) in
  let functionScore := Z.min (functionCount * 3) 20 in
  Qmin (inject_Z 100)
       (inject_Z nestingScore + inject_Z branchScore + sizeScore
        + inject_Z functionScore).

(** [calculateMetrics(tokens, lines, structures)] *)
Definition calculateMetrics (tokens : list CodeToken.t)
    (lines : list jsstring) (structures : list CodeStructure.t)
    : CodeMetrics.t :=
  let totalLines := Z.of_nat (List.length lines) in
  let emptyLines := count (fun l => len (trim l) =? 0) lines in
  let commentLines := countType t_comment tokens in
  let codeLines := totalLines - emptyLines - commentLines in
  let functionCount := countType t_function tokens in
  let loopCount := countType t_loop tokens in
  let conditionalCount := countType t_conditional tokens in
  let variableCount := countType t_variable tokens in
  let classCount := countType t_class tokens in
  let importCount := countType t_import tokens in
  let errorCount := countType t_error tokens in
  let maxNestingDepth :=
    fold_left Z.max (map CodeToken.depth tokens) 0 in
  let complexity :=
    complexityScore maxNestingDepth conditionalCount loopCount codeLines
                    functionCount in
  CodeMetrics.mk totalLines codeLines commentLines emptyLines functionCount
    loopCount conditionalCount variableCount maxNestingDepth
    (round complexity) classCount importCount errorCount.

(** [analyze(code, language)]; an absent [language] is [None]. *)
Definition analyze (code : jsstring) (language : option CodeLanguage)
    : result CodeAnalysis.t :=
  let detectedLanguage :=
    match language with
    | Some l => l
    | None => detectLanguage code
    end in
  let lines := splitLines code in
  let tokens := tokenize code lines in
  structures <- extractStructures tokens lines ;;
  let metrics := calculateMetrics tokens lines structures in
  Ok (CodeAnalysis.mk detectedLanguage tokens metrics structures).



End Parser.

(* ------------------------------------------------------------------ *)
(*  mapper.ts                                                          *)
(* ------------------------------------------------------------------ *)
Module Mapper.

Definition SCALES (t : ScaleType) : list Z :=
  match t with
  | major => [0; 2; 4; 5; 7; 9; 11]
  | minor => [0; 2; 3; 5; 7; 8; 10]
  | pentatonic => [0; 2; 4; 7; 9]
  | blues => [0; 3; 5; 6; 7; 10]
  | chromatic => [0; 1; 2; 3; 4; 5; 6; 7; 8; 9; 10; 11]
  | dorian => [0; 2; 3; 5; 7; 9; 10]
  | mixolydian => [0; 2; 4; 5; 7; 9; 10]
  | lydian => [0; 2; 4; 6; 7; 9; 11]
  end.

Definition NOTE_NAMES : list NoteName :=
  [nC; nCs; nD; nDs; nE; nF; nFs; nG; nGs; nA; nAs; nB].

(** The string a note name is. *)
Definition noteName (n : NoteName) : jsstring :=
  match n with
  | nC => lit "C" | nCs => lit "C#" | nD => lit "D" | nDs => lit "D#"
  | nE => lit "E" | nF => lit "F" | nFs => lit "F#" | nG => lit "G"
  | nGs => lit "G#" | nA => lit "A" | nAs => lit "A#" | nB => lit "B"
  end.

(** [NOTE_NAMES.indexOf(n)] *)
Definition indexOf (n : NoteName) : Z :=
  match n with
  | nC => 0 | nCs => 1 | nD => 2 | nDs => 3 | nE => 4 | nF => 5
  | nFs => 6 | nG => 7 | nGs => 8 | nA => 9 | nAs => 10 | nB => 11
  end.

(** [NOTE_NAMES[i]] inside a template string: outside the table it is
    [undefined]. *)
Definition noteNameAt (i : Z) : jsstring :=
  if i <? 0 then lit "undefined"
  else match nth_error NOTE_NAMES (Z.to_nat i) with
       | Some n => noteName n
       | None => lit "undefined"
       end.

(** Seconds at 120 BPM. *)
Definition DURATION_VALUES (d : Duration) : Q :=
  match d with
  | d16n => 1 # 8 | d8n => 1 # 4 | d8n_dot => 3 # 8 | d4n => 1 # 2
  | d4n_dot => 3 # 4 | d2n => 1 | d2n_dot => 3 # 2 | d1n => 2
  end.

Module StylePreset.
Record t : Type := mk {
  baseKey : NoteName;
  scaleType : ScaleType;
  tempoRange : Z * Z;
  preferredWaveforms : list Waveform;
  noteDurationBias : list Duration;
  reverbAmount : Q
}.
End StylePreset.

Definition STYLE_PRESETS (s : MusicStyle) : StylePreset.t :=
  match s with
  | classical =>
      StylePreset.mk nC major (80, 130) [sine; triangle] [d4n; d2n; d8n] (1 # 2)
  | electronic =>
      StylePreset.mk nA minor (110, 150) [square; sawtooth] [d8n; d16n; d4n]
        (3 # 10)
  | s_ambient =>
      StylePreset.mk nD pentatonic (60, 90) [sine; triangle]
        [d2n; d1n; d4n_dot] (4 # 5)
  | jazz =>
      StylePreset.mk nF dorian (90, 140) [sine; triangle] [d8n_dot; d4n; d8n]
        (2 # 5)
  | rock =>
      StylePreset.mk nE blues (100, 150) [sawtooth; square] [d8n; d4n; d16n]
        (1 # 5)
  end.

Module MappingConfig.
Record t : Type := mk {
  functionToMelody_baseOctave : Z;
  functionToMelody_scaleType : ScaleType;
  functionToMelody_noteDuration : Duration;
  loopToRhythm_basePattern : list Duration;
  loopToRhythm_intensityMultiplier : Q;
  conditionalToHarmony_ifChord : list NoteName;
  conditionalToHarmony_elseChord : list NoteName;
  conditionalToHarmony_switchScale : ScaleType;
  variableToBass_baseOctave : Z;
  variableToBass_noteDuration : Duration;
  complexityToTempo_minBPM : Z;
  complexityToTempo_maxBPM : Z;
  depthToOctave_baseOctave : Z;
  depthToOctave_maxOctaveShift : Z;
  errorToDissonance_chordIntervals : list Z;
  errorToDissonance_waveform : Waveform
}.
End MappingConfig.

Definition DEFAULT_CONFIG : MappingConfig.t :=
  MappingConfig.mk 4 major d4n
    [d8n; d8n; d16n; d16n; d8n] (6 # 5)
    [nC; nE; nG] [nA; nC; nE] mixolydian
    2 d2n
    70 160
    4 2
    [1; 6; 11] sawtooth.

(** The fields of a [MusicMapper]. *)
Record MusicMapper : Type := mkMapper {
  config : MappingConfig.t;
  style : StylePreset.t;
  currentTime : Q;
  tempoMultiplier : Q
}.

(** [new MusicMapper(style)] *)
Definition new (s : MusicStyle) : MusicMapper :=
  mkMapper DEFAULT_CONFIG (STYLE_PRESETS s) 0 1.

(** [this.currentTime += dt] *)
Definition advance (m : MusicMapper) (dt : Q) : MusicMapper :=
  mkMapper (config m) (style m) (currentTime m + dt) (tempoMultiplier m).

(** [calculateTempo(complexity)] *)
Definition calculateTempo (m : MusicMapper) (complexity : Q) : Z :=
  let minBPM := MappingConfig.complexityToTempo_minBPM (config m) in
  let maxBPM := MappingConfig.complexityToTempo_maxBPM (config m) in
  let range := maxBPM - minBPM in
  round (inject_Z minBPM + (complexity / inject_Z 100) * inject_Z range).

(** [getOctaveForDepth(depth)] *)
Definition getOctaveForDepth (m : MusicMapper) (depth : Z) : Z :=
  let baseOctave := MappingConfig.depthToOctave_baseOctave (config m) in
  let maxOctaveShift := MappingConfig.depthToOctave_maxOctaveShift (config m) in
  let shift := Z.min depth maxOctaveShift in
  Z.min 7 (Z.max 1 (baseOctave + shift)).

Definition baseNoteIndex (m : MusicMapper) : Z :=
  indexOf (StylePreset.baseKey (style m)).

Definition mapFunction (m : MusicMapper) (token : CodeToken.t)
    : list MusicNote.t * MusicMapper :=
  let scale := SCALES (StylePreset.scaleType (style m)) in
  let octave := getOctaveForDepth m (CodeToken.depth token) in
  let phraseLength := 3 + Z.rem (len (CodeToken.value token)) 3 in
  forEach (fun m i =>
      let scaleIndex := Z.rem i (Z.of_nat (List.length scale)) in
      let semitone := Z.rem (baseNoteIndex m + nthZ scale scaleIndex) 12 in
      let noteOctave :=
        octave + (baseNoteIndex m + nthZ scale scaleIndex) / 12 in
      ([MusicNote.mk (noteNameAt semitone ++ toString noteOctave) d8n
          ((7 # 10) + inject_Z i * (1 # 20)) (currentTime m) melody],
       advance m (DURATION_VALUES d8n * tempoMultiplier m)))
    (range phraseLength) m.

Definition mapLoop (m : MusicMapper) (token : CodeToken.t)
    : list MusicNote.t * MusicMapper :=
  let pattern := MappingConfig.loopToRhythm_basePattern (config m) in
  let octave := getOctaveForDepth m (CodeToken.depth token) in
  let reps :=
    if JS.eqb (CodeToken.value token) (lit "for") then 2
    else if JS.eqb (CodeToken.value token) (lit "while") then 3 else 1 in
  forEach (fun m r =>
      forEach (fun m duration =>
          ([MusicNote.mk
              (noteName (StylePreset.baseKey (style m)) ++ toString octave)
              duration ((3 # 5) + inject_Z r * (1 # 10)) (currentTime m)
              percussion],
           advance m (DURATION_VALUES duration * tempoMultiplier m * (1 # 2))))
        pattern m)
    (range reps) m.

Definition mapConditional (m : MusicMapper) (token : CodeToken.t)
    : list MusicNote.t * MusicMapper :=
  let octave := getOctaveForDepth m (CodeToken.depth token) in
  let isElse := JS.eqb (CodeToken.value token) (lit "else")
                || JS.eqb (CodeToken.value token) (lit "elif") in
  let chordNotes :=
    if isElse then MappingConfig.conditionalToHarmony_elseChord (config m)
    else MappingConfig.conditionalToHarmony_ifChord (config m) in
  (map (fun chordNote =>
          MusicNote.mk (noteName chordNote ++ toString octave) d4n (1 # 2)
            (currentTime m) harmony) chordNotes,
   advance m (DURATION_VALUES d4n * tempoMultiplier m)).

Definition mapVariable (m : MusicMapper) (token : CodeToken.t)
    : list MusicNote.t * MusicMapper :=
  let baseOctave := MappingConfig.variableToBass_baseOctave (config m) in
  let charCode := charCodeAt0 (CodeToken.value token) 67 in
  let noteIndex := Z.rem charCode 12 in
  ([MusicNote.mk (noteNameAt noteIndex ++ toString baseOctave) d2n (2 # 5)
      (currentTime m) bass],
   advance m (DURATION_VALUES d4n * tempoMultiplier m)).

Definition mapClass (m : MusicMapper) (token : CodeToken.t)
    : list MusicNote.t * MusicMapper :=
  let octave := getOctaveForDepth m (CodeToken.depth token) in
  let intervals := [0; 7; 12] in
  (map (fun interval =>
          let semitone := Z.rem (baseNoteIndex m + interval) 12 in
          let noteOctave := octave + (baseNoteIndex m + interval) / 12 in
          MusicNote.mk (noteNameAt semitone ++ toString noteOctave) d2n
            (13 # 20) (currentTime m) melody) intervals,
   advance m (DURATION_VALUES d2n * tempoMultiplier m)).

Definition mapString (m : MusicMapper) (token : CodeToken.t)
    : list MusicNote.t * MusicMapper :=
  let scale := SCALES pentatonic in
  let octave := 5 in
  let scaleIndex :=
    Z.rem (len (CodeToken.value token)) (Z.of_nat (List.length scale)) in
  let semitone := Z.rem (baseNoteIndex m + nthZ scale scaleIndex) 12 in
  ([MusicNote.mk (noteNameAt semitone ++ toString octave) d4n (7 # 20)
      (currentTime m) ambient],
   advance m (DURATION_VALUES d8n * tempoMultiplier m)).

Definition mapNumber (m : MusicMapper) (token : CodeToken.t)
    : list MusicNote.t * MusicMapper :=
  let num := parseFloatOr0 (CodeToken.value token) in
  let noteIndex := Z.rem (Z.abs (round num)) 12 in
  let octave := Z.min 7 (Z.max 2 (3 + floor (num / inject_Z 100))) in
  ([MusicNote.mk (noteNameAt noteIndex ++ toString octave) d16n (1 # 2)
      (currentTime m) melody],
   advance m (DURATION_VALUES d16n * tempoMultiplier m)).

(** [operatorMap], the own properties of the object. *)
Definition operatorMap : list (string * string) :=
  [ ("=", "C3"); ("+", "D3"); ("-", "E3"); ("*", "F3"); ("/", "G3");
    ("%", "A3"); ("!", "B3"); ("&", "C4"); ("|", "D4"); ("^", "E4");
    ("<", "F4"); (">", "G4"); ("?", "A4") ]%string.

Definition mapOperator (m : MusicMapper) (token : CodeToken.t)
    : list MusicNote.t * MusicMapper :=
  let mappedNote :=
    match find (fun kv => JS.eqb (lit (fst kv)) (CodeToken.value token))
               operatorMap with
    | Some kv => lit (snd kv)
    | None => lit "C3"
    end in
  ([MusicNote.mk mappedNote d16n (3 # 10) (currentTime m) percussion],
   advance m (DURATION_VALUES d16n * tempoMultiplier m * (1 # 2))).

Definition mapComment (m : MusicMapper) (token : CodeToken.t)
    : list MusicNote.t * MusicMapper :=
  let scale := SCALES pentatonic in
  let octave := 5 in
  let scaleIndex := Z.rem (CodeToken.line token) (Z.of_nat (List.length scale)) in
  let semitone := Z.rem (baseNoteIndex m + nthZ scale scaleIndex) 12 in
  ([MusicNote.mk (noteNameAt semitone ++ toString octave) d2n (3 # 20)
      (currentTime m) ambient],
   advance m (DURATION_VALUES d4n * tempoMultiplier m)).

Definition mapImport (m : MusicMapper) (token : CodeToken.t)
    : list MusicNote.t * MusicMapper :=
  let scale := SCALES (StylePreset.scaleType (style m)) in
  forEach (fun m i =>
      let semitone :=
        Z.rem (baseNoteIndex m
               + nthZ scale (Z.rem i (Z.of_nat (List.length scale)))) 12 in
      ([MusicNote.mk (noteNameAt semitone ++ toString (4 + i)) d16n (3 # 10)
          (currentTime m) ambient],
       advance m (DURATION_VALUES d16n * tempoMultiplier m)))
    (range 3) m.

Definition mapReturn (m : MusicMapper) (token : CodeToken.t)
    : list MusicNote.t * MusicMapper :=
  let n1 := MusicNote.mk (noteNameAt (Z.rem (baseNoteIndex m + 4) 12) ++ lit "4")
              d8n (1 # 2) (currentTime m) melody in
  let m1 := advance m (DURATION_VALUES d8n * tempoMultiplier m) in
  let n2 := MusicNote.mk (noteNameAt (baseNoteIndex m1) ++ lit "4") d4n (3 # 5)
              (currentTime m1) melody in
  let m2 := advance m1 (DURATION_VALUES d4n * tempoMultiplier m1) in
  ([n1; n2], m2).

Definition mapError (m : MusicMapper) (token : CodeToken.t)
    : list MusicNote.t * MusicMapper :=
  let intervals := MappingConfig.errorToDissonance_chordIntervals (config m) in
  (map (fun interval =>
          let semitone := Z.rem (baseNoteIndex m + interval) 12 in
          MusicNote.mk (noteNameAt semitone ++ lit "3") d8n (4 # 5)
            (currentTime m) dissonance) intervals,
   advance m (DURATION_VALUES d8n * tempoMultiplier m)).

Definition mapBracketOpen (m : MusicMapper) (token : CodeToken.t)
    : list MusicNote.t * MusicMapper :=
  let octave := getOctaveForDepth m (CodeToken.depth token) in
  ([MusicNote.mk (noteName (StylePreset.baseKey (style m)) ++ toString octave)
      d16n (1 # 5) (currentTime m) ambient], m).

Definition mapBracketClose (m : MusicMapper) (token : CodeToken.t)
    : list MusicNote.t * MusicMapper :=
  let octave := Z.max 2 (getOctaveForDepth m (CodeToken.depth token) - 1) in
  ([MusicNote.mk (noteName (StylePreset.baseKey (style m)) ++ toString octave)
      d16n (1 # 5) (currentTime m) ambient], m).

Definition mapWhitespace (m : MusicMapper)
    : list MusicNote.t * MusicMapper :=
  ([], advance m (DURATION_VALUES d8n * tempoMultiplier m * (3 # 10))).

Definition mapDefault (m : MusicMapper) (token : CodeToken.t)
    : list MusicNote.t * MusicMapper :=
  let charCode := Z.rem (charCodeAt0 (CodeToken.value token) 0) 12 in
  let octave := getOctaveForDepth m (CodeToken.depth token) in
  ([MusicNote.mk (noteNameAt charCode ++ toString octave) d16n (3 # 20)
      (currentTime m) ambient],
   advance m (DURATION_VALUES d16n * tempoMultiplier m * (3 # 10))).

(** [mapToken(token, analysis)] *)
Definition mapToken (m : MusicMapper) (token : CodeToken.t)
    : list MusicNote.t * MusicMapper :=
  match CodeToken.type token with
  | t_function => mapFunction m token
  | t_loop => mapLoop m token
  | t_conditional => mapConditional m token
  | t_variable => mapVariable m token
  | t_class => mapClass m token
  | t_string => mapString m token
  | t_number => mapNumber m token
  | t_operator => mapOperator m token
  | t_comment => mapComment m token
  | t_import => mapImport m token
  | t_return => mapReturn m token
  | t_error => mapError m token
  | t_bracket_open => mapBracketOpen m token
  | t_bracket_close => mapBracketClose m token
  | t_whitespace => mapWhitespace m
  | t_keyword | t_unknown | t_inherited => mapDefault m token
  end.

(** [mapToNotes(analysis)]: the notes and the mapper it leaves. *)
Definition mapToNotes (m : MusicMapper) (analysis : CodeAnalysis.t)
    : list MusicNote.t * MusicMapper :=
  let tempo :=
    calculateTempo m
      (inject_Z (CodeMetrics.complexity (CodeAnalysis.metrics analysis))) in
  let m0 := mkMapper (config m) (style m) 0 (inject_Z 120 / inject_Z tempo) in
  forEach mapToken (CodeAnalysis.tokens analysis) m0.

(** [getTotalDuration()] *)
Definition getTotalDuration (m : MusicMapper) : Q := currentTime m.

End Mapper.

(* ------------------------------------------------------------------ *)
(*  composer.ts                                                        *)
(* ------------------------------------------------------------------ *)
Module Composer.

Module InstrumentConfig.
Record t : Type := mk {
  waveform : Waveform;
  volume : Q;
  effects : list TrackEffect.t
}.
End InstrumentConfig.

Definition INSTRUMENT_CONFIGS (i : InstrumentType) : InstrumentConfig.t :=
  match i with
  | melody =>
      InstrumentConfig.mk triangle (7 # 10)
        [TrackEffect.mk fx_reverb [("decay", 5 # 2); ("wet", 3 # 10)]]
  | bass =>
      InstrumentConfig.mk sine (1 # 2)
        [TrackEffect.mk fx_filter [("frequency", 400); ("type", 0)]]
  | harmony =>
      InstrumentConfig.mk sine (2 # 5)
        [TrackEffect.mk fx_reverb [("decay", 4); ("wet", 1 # 2)];
         TrackEffect.mk fx_chorus [("frequency", 3 # 2); ("depth", 7 # 10)]]
  | percussion =>
      InstrumentConfig.mk square (1 # 2)
        [TrackEffect.mk fx_distortion [("amount", 1 # 5)]]
  | ambient =>
      InstrumentConfig.mk sine (1 # 5)
        [TrackEffect.mk fx_reverb [("decay", 6); ("wet", 7 # 10)];
         TrackEffect.mk fx_delay [("time", 2 # 5); ("feedback", 3 # 10)]]
  | dissonance =>
      InstrumentConfig.mk sawtooth (3 # 5)
        [TrackEffect.mk fx_distortion [("amount", 1 # 2)];
         TrackEffect.mk fx_filter [("frequency", 2000); ("type", 1)]]
  end%string%Q.

(** The strings the enumerations are, where a template prints them. *)
Definition languageName (l : CodeLanguage) : jsstring :=
  match l with
  | javascript => lit "javascript" | typescript => lit "typescript"
  | python => lit "python" | java => lit "java" | csharp => lit "csharp"
  | go => lit "go" | rust => lit "rust" | unknown => lit "unknown"
  end.

Definition styleName (s : MusicStyle) : jsstring :=
  match s with
  | classical => lit "classical" | electronic => lit "electronic"
  | s_ambient => lit "ambient" | jazz => lit "jazz" | rock => lit "rock"
  end.

(** [generateInterpretation(analysis, style)] *)
Definition generateInterpretation (analysis : CodeAnalysis.t)
    (style : MusicStyle) : jsstring :=
  let metrics := CodeAnalysis.metrics analysis in
  let complexity := CodeMetrics.complexity metrics in
  let functionCount := CodeMetrics.functionCount metrics in
  let loopCount := CodeMetrics.loopCount metrics in
  let conditionalCount := CodeMetrics.conditionalCount metrics in
  let errorCount := CodeMetrics.errorCount metrics in
  let parts :=
    [ if 70 <? complexity
      then lit "A complex, intense composition reflecting deeply nested logic"
      else if 40 <? complexity
      then lit "A balanced piece with moderate complexity"
      else lit "A clean, minimalist arrangement reflecting simple, elegant code" ]
    ++ (if 5 <? functionCount
        then [lit "with " ++ toString functionCount
              ++ lit " melodic phrases representing well-organized functions"]
        else if 0 <? functionCount
        then [lit "featuring " ++ toString functionCount ++ lit " melodic theme"
              ++ (if 1 <? functionCount then lit "s" else [])]
        else [])
    ++ (if 3 <? loopCount
        then [lit "driven by strong, repetitive rhythmic patterns"]
        else if 0 <? loopCount then [lit "with subtle rhythmic elements"]
        else [])
    ++ (if 5 <? conditionalCount
        then [lit "rich harmonic changes reflecting branching logic"]
        else if 0 <? conditionalCount then [lit "and gentle harmonic shifts"]
        else [])
    ++ (if 0 <? errorCount
        then [[8212] ++ lit " with " ++ toString errorCount
              ++ lit " dissonant moment"
              ++ (if 1 <? errorCount then lit "s" else [])
              ++ lit " signaling potential issues"]
        else [])
    ++ [lit "Rendered in " ++ styleName style ++ lit " style"]
    ++ [lit "from " ++ languageName (CodeAnalysis.language analysis)
        ++ lit " source code ("
        ++ toString (CodeMetrics.totalLines metrics) ++ lit " lines)"] in
  join (lit ", ") parts ++ lit ".".

(** [simpleHash(str)]; [hash & hash] is ToInt32. *)
Definition simpleHash (str : jsstring) : jsstring :=
  let hash :=
    fold_left (fun hash char => band (shl hash 5 - hash + char)
                                     (shl hash 5 - hash + char))
              str 0 in
  padStart0 8 (toString16 (Z.abs hash)).

(** [trackMap.get(note.instrument).push(note)], after the entry was
    created if absent; the map keeps its keys in insertion order. *)
Fixpoint pushNote (trackMap : list (InstrumentType * list MusicNote.t))
    (note : MusicNote.t) : list (InstrumentType * list MusicNote.t) :=
  match trackMap with
  | [] => [(MusicNote.instrument note, [note])]
  | (i, ns) :: rest =>
      if InstrumentType_eqb i (MusicNote.instrument note)
      then (i, ns ++ [note]) :: rest
      else (i, ns) :: pushNote rest note
  end.

(** The [for (const note of notes)] loop shared by [organizeTracks] and
    [organizeDiffTracks]. *)
Definition groupByInstrument (notes : list MusicNote.t)
    : list (InstrumentType * list MusicNote.t) :=
  fold_left pushNote notes [].

(** [getTrackName(instrument)] *)
Definition getTrackName (instrument : InstrumentType) : jsstring :=
  match instrument with
  | melody => [55356; 57269] ++ lit " Melody (Functions & Logic)"
  | bass => [55356; 57272] ++ lit " Bass (Variables & Data)"
  | harmony => [55356; 57273] ++ lit " Harmony (Conditionals & Branches)"
  | percussion => [55358; 56641] ++ lit " Rhythm (Loops & Iterations)"
  | ambient => [55356; 57098] ++ lit " Ambient (Comments & Structure)"
  | dissonance => [9889] ++ lit " Dissonance (Errors & Warnings)"
  end.

(** [organizeTracks(notes, style)] *)
Definition organizeTracks (notes : list MusicNote.t) (style : MusicStyle)
    : list MusicTrack.t :=
  map (fun entry : InstrumentType * list MusicNote.t =>
         let (instrument, trackNotes) := entry in
         let config := INSTRUMENT_CONFIGS instrument in
         MusicTrack.mk (getTrackName instrument) instrument
           (InstrumentConfig.waveform config) (InstrumentConfig.volume config)
           trackNotes (InstrumentConfig.effects config))
      (groupByInstrument notes).

(** [languageKeys[analysis.language] || languageKeys['unknown']] *)
Definition languageKeys (l : CodeLanguage) : Z * ScaleType :=
  match l with
  | javascript => (0, mixolydian)
  | typescript => (2, major)
  | python => (5, pentatonic)
  | java => (7, minor)
  | csharp => (4, lydian)
  | go => (9, dorian)
  | rust => (11, blues)
  | unknown => (0, major)
  end.

(** [buildComposition(code, analysis, tracks, tempo, totalDuration,
    style)]; [now] is what [new Date().toISOString()] returns at the
    call. *)
Definition buildComposition (now : jsstring) (code : jsstring)
    (analysis : CodeAnalysis.t) (tracks : list MusicTrack.t) (tempo : Z)
    (totalDuration : Q) (style : MusicStyle) : MusicComposition.t :=
  let langConfig := languageKeys (CodeAnalysis.language analysis) in
  let metadata :=
    CompositionMetadata.mk
      (CodeAnalysis.language analysis)
      (CodeMetrics.totalLines (CodeAnalysis.metrics analysis))
      (CodeMetrics.complexity (CodeAnalysis.metrics analysis))
      now
      (simpleHash code)
      (generateInterpretation analysis style) in
  MusicComposition.mk
    (lit "CodeSonify: " ++ languageName (CodeAnalysis.language analysis)
     ++ lit " composition")
    tempo (4, 4)
    (nth (Z.to_nat (fst langConfig)) Mapper.NOTE_NAMES nC)
    (snd langConfig) totalDuration tracks metadata.

(** What [sonify] returns; the [visualization] field, a rendering aid
    computed from the same analysis and notes with [Math.sin], is left
    out. *)
Module SonifyResponse.
Record t : Type := mk {
  composition : MusicComposition.t;
  analysis : CodeAnalysis.t
}.
End SonifyResponse.

(** [sonify(request)], run when the clock reads [now]. *)
Definition sonify (now : jsstring) (request : SonifyRequest.t)
    : result SonifyResponse.t :=
  let code := SonifyRequest.code request in
  let language := SonifyRequest.language request in
  let style :=
    match SonifyRequest.style request with
    | Some s => s
    | None => classical
    end in
  analysis <- Parser.analyze code language ;;
  let mapper := Mapper.new style in
  let (notes, mapper) := Mapper.mapToNotes mapper analysis in
  let tempo :=
    Mapper.calculateTempo mapper
      (inject_Z (CodeMetrics.complexity (CodeAnalysis.metrics analysis))) in
  let totalDuration := Mapper.getTotalDuration mapper in
  let tracks := organizeTracks notes style in
  let composition :=
    buildComposition now code analysis tracks tempo totalDuration style in
  Ok (SonifyResponse.mk composition analysis).

End Composer.

(* ------------------------------------------------------------------ *)
(*  midi.ts                                                            *)
(* ------------------------------------------------------------------ *)
Module Midi.

Definition HEADER_CHUNK : list Z := [77; 84; 104; 100].
Definition TRACK_CHUNK : list Z := [77; 84; 114; 107].
Definition TICKS_PER_BEAT : Z := 480.

Definition NOTE_TO_MIDI : list (string * Z) :=
  [ ("C", 0); ("C#", 1); ("D", 2); ("D#", 3); ("E", 4); ("F", 5);
    ("F#", 6); ("G", 7); ("G#", 8); ("A", 9); ("A#", 10); ("B", 11) ]%string.

(** [DURATION_TICKS[d] || TICKS_PER_BEAT]: every entry is non-zero. *)
Definition DURATION_TICKS (d : Duration) : Z :=
  match d with
  | d16n => TICKS_PER_BEAT / 4
  | d8n => TICKS_PER_BEAT / 2
  | d8n_dot => TICKS_PER_BEAT * 3 / 4
  | d4n => TICKS_PER_BEAT
  | d4n_dot => TICKS_PER_BEAT * 3 / 2
  | d2n => TICKS_PER_BEAT * 2
  | d2n_dot => TICKS_PER_BEAT * 3
  | d1n => TICKS_PER_BEAT * 4
  end.

(** [INSTRUMENT_PROGRAMS[instrument] ?? 0] *)
Definition INSTRUMENT_PROGRAMS (i : InstrumentType) : Z :=
  match i with
  | melody => 0
  | bass => 33
  | harmony => 48
  | percussion => 115
  | ambient => 88
  | dissonance => 30
  end.

(** [noteStringToMidi(noteStr)]: the pattern is [/^([A-G]#?)(\d+)$/]. *)
Definition noteStringToMidi (noteStr : jsstring) : Z :=
  let pat :=
    RegExp.reWhole
      [RegExp.cls "ABCDEFG"; RegExp.opt (RegExp.chr "#");
       RegExp.plus RegExp.digit] in
  if negb (RegExp.test pat noteStr) then 60
  else
    let (noteName, digits) :=
      match noteStr with
      | c :: 35 :: r => ([c; 35], r)
      | c :: r => ([c], r)
      | [] => ([], [])
      end in
    let octave := digitsValue digits in
    match find (fun kv => JS.eqb (lit (fst kv)) noteName) NOTE_TO_MIDI with
    | None => 60
    | Some kv => (octave + 1) * 12 + snd kv
    end.

(** The [while (value > 0)] loop of [encodeVLQ]; [bytes.unshift] conses.
    After the first [value >>= 7] the value is an int32 below 2^24, so
    the loop runs at most four times; [fuel] bounds it. *)
Fixpoint encodeVLQ_loop (fuel : nat) (value : Z) (bytes : list Z) : list Z :=
  match fuel with
  | O => bytes
  | S f =>
      if 0 <? value
      then encodeVLQ_loop f (sar value 7) (bor (band value 127) 128 :: bytes)
      else bytes
  end.

(** [encodeVLQ(value)] *)
Definition encodeVLQ (value : Z) : list Z :=
  let value := if value <? 0 then 0 else value in
  encodeVLQ_loop 5 (sar value 7) [band value 127].

(** [int32ToBytes(value)] *)
Definition int32ToBytes (value : Z) : list Z :=
  [band (sar value 24) 255; band (sar value 16) 255;
   band (sar value 8) 255; band value 255].

(** [int16ToBytes(value)] *)
Definition int16ToBytes (value : Z) : list Z :=
  [band (sar value 8) 255; band value 255].

Definition isHighSurrogate (c : Z) : bool := (55296 <=? c) && (c <=? 56319).
Definition isLowSurrogate (c : Z) : bool := (56320 <=? c) && (c <=? 57343).

(** [stringToBytes(str)]: [Array.from] walks the string by code points,
    and [charCodeAt(0)] keeps the first unit of each: the low half of a
    surrogate pair is dropped. *)
Fixpoint stringToBytes (str : jsstring) : list Z :=
  match str with
  | [] => []
  | c :: rest =>
      match rest with
      | c2 :: rest' =>
          if isHighSurrogate c && isLowSurrogate c2
          then c :: stringToBytes rest'
          else c :: stringToBytes rest
      | [] => [c]
      end
  end.

(** The fields of a [MidiTrackBuilder]. *)
Record MidiTrackBuilder : Type := mkBuilder {
  events : list Z;
  lastTick : Z
}.

(** [new MidiTrackBuilder()] *)
Definition newBuilder : MidiTrackBuilder := mkBuilder [] 0.

(** [addEvent(absoluteTick, ...eventBytes)]; ticks are integers, on
    which [Math.round] is the identity. *)
Definition addEvent (b : MidiTrackBuilder) (absoluteTick : Z)
    (eventBytes : list Z) : MidiTrackBuilder :=
  let delta := Z.max 0 (absoluteTick - lastTick b) in
  mkBuilder (events b ++ encodeVLQ delta ++ eventBytes) absoluteTick.

(** [addMeta(absoluteTick, metaType, data)] *)
Definition addMeta (b : MidiTrackBuilder) (absoluteTick metaType : Z)
    (data : list Z) : MidiTrackBuilder :=
  let delta := Z.max 0 (absoluteTick - lastTick b) in
  mkBuilder (events b ++ encodeVLQ delta ++ [255; metaType]
             ++ encodeVLQ (Z.of_nat (List.length data)) ++ data)
            absoluteTick.

Definition addTrackName (b : MidiTrackBuilder) (name : jsstring)
    : MidiTrackBuilder :=
  addMeta b 0 3 (stringToBytes name).

Definition addTempo (b : MidiTrackBuilder) (bpm : Z) : MidiTrackBuilder :=
  let microsecondsPerBeat := round (inject_Z 60000000 / inject_Z bpm) in
  addMeta b 0 81
    [band (sar microsecondsPerBeat 16) 255;
     band (sar microsecondsPerBeat 8) 255;
     band microsecondsPerBeat 255].

(** [addTimeSignature(numerator, denominator)]; [Math.log2] is taken on
    the powers of two, the denominators of a time signature. *)
Definition addTimeSignature (b : MidiTrackBuilder)
    (numerator denominator : Z) : MidiTrackBuilder :=
  let denomPow := Z.log2 denominator in
  addMeta b 0 88 [numerator; denomPow; 24; 8].

Definition addProgramChange (b : MidiTrackBuilder) (channel program : Z)
    : MidiTrackBuilder :=
  addEvent b 0 [bor 192 (band channel 15); band program 127].

Definition addNoteOn (b : MidiTrackBuilder) (tick channel note : Z)
    (velocity : Q) : MidiTrackBuilder :=
  let vel := Z.min 127 (Z.max 1 (round (velocity * inject_Z 127))) in
  addEvent b tick [bor 144 (band channel 15); band note 127; vel].

Definition addNoteOff (b : MidiTrackBuilder) (tick channel note : Z)
    : MidiTrackBuilder :=
  addEvent b tick [bor 128 (band channel 15); band note 127; 0].

Definition addEndOfTrack (b : MidiTrackBuilder) : MidiTrackBuilder :=
  addMeta b (lastTick b) 47 [].

(** [build()] *)
Definition build (b : MidiTrackBuilder) : list Z :=
  let b := addEndOfTrack b in
  TRACK_CHUNK ++ int32ToBytes (Z.of_nat (List.length (events b))) ++ events b.

(** [channelMap[instrument] ?? 0] *)
Definition channelMap (i : InstrumentType) : Z :=
  match i with
  | melody => 0
  | bass => 1
  | harmony => 2
  | percussion => 9
  | ambient => 3
  | dissonance => 4
  end.

(** [secondsToTicks(seconds)] for a composition of the given tempo. *)
Definition secondsToTicks (tempo : Z) (seconds : Q) : Z :=
  round (seconds * (inject_Z tempo / inject_Z 60) * inject_Z TICKS_PER_BEAT).

(** Where [x] goes in an array already sorted by [time]: behind every
    element that does not compare greater. *)
Fixpoint insertByTime (x : MusicNote.t) (l : list MusicNote.t)
    : list MusicNote.t :=
  match l with
  | [] => [x]
  | y :: l' =>
      if Qle_bool (MusicNote.time x) (MusicNote.time y)
      then x :: y :: l'
      else y :: insertByTime x l'
  end.

(** [[...notes].sort((a, b) => a.time - b.time)]: [Array.prototype.sort]
    is stable, so its result is the one of a stable insertion sort. *)
Fixpoint sortByTime (notes : list MusicNote.t) : list MusicNote.t :=
  match notes with
  | [] => []
  | x :: l => insertByTime x (sortByTime l)
  end.

(** The body of the [for (const note of sortedNotes)] loop. *)
Definition addNote (tempo channel : Z) (midiTrack : MidiTrackBuilder)
    (note : MusicNote.t) : MidiTrackBuilder :=
  let midiNote := noteStringToMidi (MusicNote.note note) in
  if (midiNote <? 0) || (127 <? midiNote) then midiTrack
  else
    let startTick := secondsToTicks tempo (MusicNote.time note) in
    let durationTicks := DURATION_TICKS (MusicNote.duration note) in
    let midiTrack :=
      addNoteOn midiTrack startTick channel midiNote (MusicNote.velocity note) in
    addNoteOff midiTrack (startTick + durationTicks) channel midiNote.

(** [track.name.replace(/[^\x20-\x7E]/g, '')] *)
Definition asciiOnly (name : jsstring) : jsstring :=
  List.filter (fun c => (32 <=? c) && (c <=? 126)) name.

(** The body of the [for (const track of composition.tracks)] loop: the
    chunk of one track. *)
Definition trackChunk (tempo : Z) (track : MusicTrack.t) : list Z :=
  let midiTrack := newBuilder in
  let channel := channelMap (MusicTrack.instrument track) in
  let midiTrack := addTrackName midiTrack (asciiOnly (MusicTrack.name track)) in
  let midiTrack :=
    if negb (channel =? 9)
    then addProgramChange midiTrack channel
           (INSTRUMENT_PROGRAMS (MusicTrack.instrument track))
    else midiTrack in
  let sortedNotes := sortByTime (MusicTrack.notes track) in
  let midiTrack := fold_left (addNote tempo channel) sortedNotes midiTrack in
  build midiTrack.

(** Track 0 of [generate]: tempo and metadata. *)
Definition tempoTrackChunk (composition : MusicComposition.t) : list Z :=
  let tempoTrack := newBuilder in
  let tempoTrack := addTrackName tempoTrack (MusicComposition.title composition) in
  let tempoTrack := addTempo tempoTrack (MusicComposition.tempo composition) in
  let tempoTrack :=
    addTimeSignature tempoTrack
      (fst (MusicComposition.timeSignature composition))
      (snd (MusicComposition.timeSignature composition)) in
  let tempoTrack :=
    addMeta tempoTrack 0 1
      (stringToBytes
         (lit "Generated by CodeSonify | "
          ++ Composer.languageName
               (CompositionMetadata.sourceLanguage
                  (MusicComposition.metadata composition))
          ++ lit " | Complexity: "
          ++ toString (CompositionMetadata.complexity
                         (MusicComposition.metadata composition))
          ++ lit "/100")) in
  build tempoTrack.

(** The array [tracks] of [generate] before the file is assembled. *)
Definition trackChunks (composition : MusicComposition.t) : list (list Z) :=
  tempoTrackChunk composition
  :: map (trackChunk (MusicComposition.tempo composition))
         (MusicComposition.tracks composition).

(** [Buffer.from(allBytes)]: each entry is stored modulo 256. *)
Definition Buffer_from (allBytes : list Z) : list Z :=
  map (fun b => b mod 256) allBytes.

(** [generate(composition)] *)
Definition generate (composition : MusicComposition.t) : list Z :=
  let tracks := trackChunks composition in
  let headerBytes :=
    HEADER_CHUNK ++ int32ToBytes 6 ++ int16ToBytes 1
    ++ int16ToBytes (Z.of_nat (List.length tracks))
    ++ int16ToBytes TICKS_PER_BEAT in
  Buffer_from (headerBytes ++ List.concat tracks).

End Midi.

(* ------------------------------------------------------------------ *)
(*  diff.ts                                                            *)
(* ------------------------------------------------------------------ *)
Module Diff.

Inductive DiffLineType : Type := dl_added | dl_removed | dl_context | dl_header.

Module DiffLine.
Record t : Type := mk {
  type : DiffLineType;
  content : jsstring;
  lineNumber : Z
}.
End DiffLine.

Module DiffAnalysis.
Record t : Type := mk {
  addedLines : Z;
  removedLines : Z;
  contextLines : Z;
  totalChanges : Z;
  changeRatio : Q;
  files : list jsstring
}.
End DiffAnalysis.

(** The body of the loop of [parseDiff], [lineNum] already incremented. *)
Definition parseLine (line : jsstring) (lineNum : Z) : DiffLine.t :=
  if startsWith (lit "+++") line || startsWith (lit "---") line
     || startsWith (lit "diff ") line || startsWith (lit "index ") line
  then DiffLine.mk dl_header line lineNum
  else if startsWith (lit "@@") line then DiffLine.mk dl_header line lineNum
  else if startsWith (lit "+") line
  then DiffLine.mk dl_added (skipn 1 line) lineNum
  else if startsWith (lit "-") line
  then DiffLine.mk dl_removed (skipn 1 line) lineNum
  else DiffLine.mk dl_context line lineNum.

Fixpoint parseLines (lines : list jsstring) (lineNum : Z) : list DiffLine.t :=
  match lines with
  | [] => []
  | line :: rest => parseLine line (lineNum + 1) :: parseLines rest (lineNum + 1)
  end.

(** [parseDiff(diffText)] *)
Definition parseDiff (diffText : jsstring) : list DiffLine.t :=
  parseLines (splitLines diffText) 0.

Definition isType (ty : DiffLineType) (l : DiffLine.t) : bool :=
  match ty, DiffLine.type l with
  | dl_added, dl_added | dl_removed, dl_removed
  | dl_context, dl_context | dl_header, dl_header => true
  | _, _ => false
  end.

(** The file name a line contributes to [files], if any. *)
Definition fileOf (line : DiffLine.t) : list jsstring :=
  let content := DiffLine.content line in
  if startsWith (lit "+++ b/") content || startsWith (lit "+++ ") content
  then
    let filename :=
      trim (replaceFirst (lit "+++ ") [] (replaceFirst (lit "+++ b/") [] content)) in
    if negb (len filename =? 0) && negb (JS.eqb filename (lit "/dev/null"))
    then [filename] else []
  else [].

(** [analyzeDiff(diffLines)] *)
Definition analyzeDiff (diffLines : list DiffLine.t) : DiffAnalysis.t :=
  let addedLines := count (isType dl_added) diffLines in
  let removedLines := count (isType dl_removed) diffLines in
  let contextLines := count (isType dl_context) diffLines in
  let totalChanges := addedLines + removedLines in
  let files := flat_map fileOf diffLines in
  DiffAnalysis.mk addedLines removedLines contextLines totalChanges
    (if 0 <? totalChanges
     then inject_Z addedLines / inject_Z totalChanges
     else 1 # 2)
    files.

(** The notes of one line of [mapDiffToNotes] and the time after it. *)
Definition mapDiffLine (key : NoteName) (tempoMultiplier : Q)
    (currentTime : Q) (line : DiffLine.t) : list MusicNote.t * Q :=
  let majorScale := Mapper.SCALES major in
  let minorScale := Mapper.SCALES minor in
  let pentatonicScale := Mapper.SCALES pentatonic in
  let keyIndex := Mapper.indexOf key in
  match DiffLine.type line with
  | dl_header =>
      ([MusicNote.mk (Mapper.noteName key ++ lit "5") d16n (1 # 5) currentTime
          ambient],
       (currentTime + (1 # 10) * tempoMultiplier)%Q)
  | dl_context =>
      let scaleIdx :=
        Z.rem (DiffLine.lineNumber line)
              (Z.of_nat (List.length pentatonicScale)) in
      let semitone := Z.rem (keyIndex + nthZ pentatonicScale scaleIdx) 12 in
      ([MusicNote.mk (Mapper.noteNameAt semitone ++ lit "3") d4n (3 # 20)
          currentTime ambient],
       (currentTime + (3 # 20) * tempoMultiplier)%Q)
  | dl_added =>
      let contentLength := len (trim (DiffLine.content line)) in
      let phraseNotes := Z.min 5 (Z.max 1 (contentLength / 10 + 1)) in
      let (phrase, currentTime) :=
        forEach (fun currentTime i =>
            let scaleIdx := Z.rem i (Z.of_nat (List.length majorScale)) in
            let semitone := Z.rem (keyIndex + nthZ majorScale scaleIdx) 12 in
            let octave := 4 + i / Z.of_nat (List.length majorScale) in
            ([MusicNote.mk
                (Mapper.noteNameAt semitone ++ toString (Z.min 6 octave))
                d8n ((3 # 5) + inject_Z i * (1 # 20)) currentTime melody],
             (currentTime + (3 # 25) * tempoMultiplier)%Q))
          (range phraseNotes) currentTime in
      let chord :=
        if 20 <? contentLength
        then map (fun interval =>
                    let semitone := Z.rem (keyIndex + interval) 12 in
                    MusicNote.mk (Mapper.noteNameAt semitone ++ lit "4") d4n
                      (7 # 20) currentTime harmony) [0; 4; 7]
        else [] in
      (phrase ++ chord, (currentTime + (1 # 10) * tempoMultiplier)%Q)
  | dl_removed =>
      let contentLength := len (trim (DiffLine.content line)) in
      let phraseNotes := Z.min 4 (Z.max 1 (contentLength / 12 + 1)) in
      let (phrase, currentTime) :=
        forEach (fun currentTime i =>
            let scaleIdx :=
              Z.rem (Z.of_nat (List.length minorScale) - 1 - i)
                    (Z.of_nat (List.length minorScale)) in
            let semitone :=
              Z.rem (keyIndex + nthZ minorScale (Z.abs scaleIdx)) 12 in
            let octave := 4 - i / Z.of_nat (List.length minorScale) in
            ([MusicNote.mk
                (Mapper.noteNameAt semitone ++ toString (Z.max 2 octave))
                d8n ((9 # 20) - inject_Z i * (1 # 20)) currentTime bass],
             (currentTime + (3 # 20) * tempoMultiplier)%Q))
          (range phraseNotes) currentTime in
      (phrase
       ++ [MusicNote.mk (Mapper.noteName key ++ lit "2") d16n (3 # 10)
             currentTime percussion],
       (currentTime + (2 # 25) * tempoMultiplier)%Q)
  end.

(** [mapDiffToNotes(diffLines, key, scale, tempo)] *)
Definition mapDiffToNotes (diffLines : list DiffLine.t) (key : NoteName)
    (scale : ScaleType) (tempo : Z) : list MusicNote.t :=
  let tempoMultiplier := (inject_Z 120 / inject_Z tempo)%Q in
  fst (forEach (mapDiffLine key tempoMultiplier) diffLines 0%Q).

(** [trackConfigs[instrument] || trackConfigs['ambient']] *)
Definition trackConfigs (i : InstrumentType) : Composer.InstrumentConfig.t :=
  match i with
  | melody =>
      Composer.InstrumentConfig.mk triangle (7 # 10)
        [TrackEffect.mk fx_reverb [("decay", 2); ("wet", 3 # 10)]]
  | bass =>
      Composer.InstrumentConfig.mk sine (1 # 2)
        [TrackEffect.mk fx_filter [("frequency", 400); ("type", 0)]]
  | harmony =>
      Composer.InstrumentConfig.mk sine (2 # 5)
        [TrackEffect.mk fx_reverb [("decay", 3); ("wet", 1 # 2)]]
  | percussion => Composer.InstrumentConfig.mk square (2 # 5) []
  | ambient | dissonance =>
      Composer.InstrumentConfig.mk sine (1 # 5)
        [TrackEffect.mk fx_reverb [("decay", 5); ("wet", 3 # 5)]]
  end%string%Q.

(** [trackNames[instrument] || instrument]; the literals are the code
    units of the source file as it is stored. *)
Definition trackNames (i : InstrumentType) : jsstring :=
  match i with
  | melody => [226; 339; 168] ++ lit " Additions (Ascending Major)"
  | bass => [240; 376; 8221; 187] ++ lit " Deletions (Descending Minor)"
  | harmony => [240; 376; 381; 185] ++ lit " Significant Changes (Chords)"
  | percussion => [240; 376; 165] ++ lit " Change Markers"
  | ambient => [240; 376; 338; 352] ++ lit " Context & Headers"
  | dissonance => lit "dissonance"
  end.

(** [organizeDiffTracks(notes)] *)
Definition organizeDiffTracks (notes : list MusicNote.t) : list MusicTrack.t :=
  map (fun entry : InstrumentType * list MusicNote.t =>
         let (instrument, trackNotes) := entry in
         let config := trackConfigs instrument in
         MusicTrack.mk (trackNames instrument) instrument
           (Composer.InstrumentConfig.waveform config)
           (Composer.InstrumentConfig.volume config)
           trackNotes (Composer.InstrumentConfig.effects config))
      (Composer.groupByInstrument notes).

(** [generateDiffInterpretation(analysis, style)] *)
Definition generateDiffInterpretation (analysis : DiffAnalysis.t)
    (style : MusicStyle) : jsstring :=
  let ratio := DiffAnalysis.changeRatio analysis in
  let nfiles := Z.of_nat (List.length (DiffAnalysis.files analysis)) in
  let dash := [226; 8364; 8221] in
  let parts :=
    [ if ltb (4 # 5) ratio
      then lit "A bright, optimistic composition reflecting significant new code additions"
      else if ltb (3 # 5) ratio
      then lit "A mostly uplifting piece with new code dominating the melody"
      else if ltb (2 # 5) ratio
      then lit "A balanced composition reflecting equal parts creation and removal "
           ++ dash ++ lit " a refactoring journey"
      else if ltb (1 # 5) ratio
      then lit "A contemplative piece where code cleanup dominates "
           ++ dash ++ lit " simplification in progress"
      else lit "A minimalist, descending composition reflecting major code removal "
           ++ dash ++ lit " a bold cleanup" ]
    ++ [toString (DiffAnalysis.addedLines analysis) ++ lit " lines added, "
        ++ toString (DiffAnalysis.removedLines analysis) ++ lit " lines removed"]
    ++ (if 0 <? nfiles
        then [lit "across " ++ toString nfiles ++ lit " file"
              ++ (if 1 <? nfiles then lit "s" else [])]
        else [])
    ++ [lit "rendered in " ++ Composer.styleName style ++ lit " style"] in
  join (lit ", ") parts ++ lit ".".

(** The maximum of a non-empty array of numbers, [Math.max(...xs)]. *)
Definition maxOf (x : Q) (xs : list Q) : Q := fold_left Qmax xs x.

(** The result of [sonifyDiff]; the [summary] string, a rendering of the
    two other fields, is left out. *)
Module SonifyDiffResult.
Record t : Type := mk {
  composition : MusicComposition.t;
  diffAnalysis : DiffAnalysis.t
}.
End SonifyDiffResult.

(** [sonifyDiff(diffText, style)], run when the clock reads [now]. *)
Definition sonifyDiff (now : jsstring) (diffText : jsstring)
    (style : MusicStyle) : SonifyDiffResult.t :=
  let diffLines := parseDiff diffText in
  let diffAnalysis := analyzeDiff diffLines in
  let isMainlyAdding := ltb (3 # 5) (DiffAnalysis.changeRatio diffAnalysis) in
  let isMainlyRemoving := ltb (DiffAnalysis.changeRatio diffAnalysis) (2 # 5) in
  let key := if isMainlyAdding then nC else if isMainlyRemoving then nA else nD in
  let scale :=
    if isMainlyAdding then major else if isMainlyRemoving then minor
    else dorian in
  let tempo :=
    Z.min 160 (Z.max 70 (80 + DiffAnalysis.totalChanges diffAnalysis * 2)) in
  let notes := mapDiffToNotes diffLines key scale tempo in
  let tracks := organizeDiffTracks notes in
  let totalDuration : Q :=
    match notes with
    | [] => 5
    | n :: ns => maxOf (MusicNote.time n) (map MusicNote.time ns) + 1
    end%Q in
  let composition :=
    MusicComposition.mk
      (lit "CodeSonify: Diff Composition ("
       ++ toString (DiffAnalysis.addedLines diffAnalysis) ++ lit "+ / "
       ++ toString (DiffAnalysis.removedLines diffAnalysis) ++ lit "-)")
      tempo (4, 4) key scale totalDuration tracks
      (CompositionMetadata.mk unknown
         (Z.of_nat (List.length diffLines))
         (Z.min 100 (DiffAnalysis.totalChanges diffAnalysis * 3))
         now
         (Composer.simpleHash diffText)
         (generateDiffInterpretation diffAnalysis style)) in
  SonifyDiffResult.mk composition diffAnalysis.

(** The body of the loop of [sonifyTwoVersions] that writes the
    pseudo-diff: what line [i] of the two versions adds to [diffText];
    [None] is [undefined], past the end of a version. *)
Definition pseudoDiffLine (oldLine newLine : option jsstring) : jsstring :=
  match oldLine, newLine with
  | None, Some newLine => lit "+" ++ newLine ++ [10]
  | Some oldLine, None => lit "-" ++ oldLine ++ [10]
  | Some oldLine, Some newLine =>
      if JS.eqb oldLine newLine
      then lit " " ++ oldLine ++ [10]
      else lit "-" ++ oldLine ++ [10] ++ lit "+" ++ newLine ++ [10]
  | None, None => lit " undefined" ++ [10]
  end.

Module SonifyTwoVersionsResult.
Record t : Type := mk {
  diff : SonifyDiffResult.t;
  oldComposition : MusicComposition.t;
  newComposition : MusicComposition.t
}.
End SonifyTwoVersionsResult.

(** [sonifyTwoVersions(oldCode, newCode, style)]; the clock is read
    three times, by the two calls of [sonify] and by [sonifyDiff]. *)
Definition sonifyTwoVersions (now1 now2 now3 : jsstring)
    (oldCode newCode : jsstring) (style : MusicStyle)
    : result SonifyTwoVersionsResult.t :=
  oldResult <- Composer.sonify now1 (SonifyRequest.mk oldCode None (Some style)) ;;
  newResult <- Composer.sonify now2 (SonifyRequest.mk newCode None (Some style)) ;;
  let oldLines := splitLines oldCode in
  let newLines := splitLines newCode in
  let diffText :=
    lit "--- a/old.code" ++ [10] ++ lit "+++ b/new.code" ++ [10]
    ++ lit "@@ -1 +1 @@" ++ [10]
    ++ List.concat
         (map (fun i => pseudoDiffLine (nth_error oldLines i)
                                       (nth_error newLines i))
              (seq 0 (Nat.max (List.length oldLines) (List.length newLines)))) in
  Ok (SonifyTwoVersionsResult.mk
        (sonifyDiff now3 diffText style)
        (Composer.SonifyResponse.composition oldResult)
        (Composer.SonifyResponse.composition newResult)).

End Diff.

(* ------------------------------------------------------------------ *)
(*  Notions the properties are stated with                             *)
(* ------------------------------------------------------------------ *)
Module Spec.

(** The reader of a variable-length quantity, as the Standard MIDI File
    format defines it (the sources hold the writer only): seven payload
    bits per byte, most significant group first, bit 0x80 set on every
    byte but the last. Returns the value and the bytes left. *)
Fixpoint decodeVLQ_from (acc : Z) (bytes : list Z) : option (Z * list Z) :=
  match bytes with
  | [] => None
  | b :: rest =>
      if Z.testbit b 7
      then decodeVLQ_from (acc * 128 + Z.land b 127) rest
      else Some (acc * 128 + b, rest)
  end.

Definition decodeVLQ (bytes : list Z) : option (Z * list Z) :=
  decodeVLQ_from 0 bytes.

(** The composition with another time stamp in its metadata. *)
Definition setGeneratedAt (t : jsstring) (c : MusicComposition.t)
    : MusicComposition.t :=
  let md := MusicComposition.metadata c in
  MusicComposition.mk
    (MusicComposition.title c) (MusicComposition.tempo c)
    (MusicComposition.timeSignature c) (MusicComposition.key c)
    (MusicComposition.scale c) (MusicComposition.duration c)
    (MusicComposition.tracks c)
    (CompositionMetadata.mk
       (CompositionMetadata.sourceLanguage md)
       (CompositionMetadata.linesAnalyzed md)
       (CompositionMetadata.complexity md)
       t
       (CompositionMetadata.codeHash md)
       (CompositionMetadata.musicalInterpretation md)).

(** The composition with other tracks. *)
Definition setTracks (tracks : list MusicTrack.t) (c : MusicComposition.t)
    : MusicComposition.t :=
  MusicComposition.mk
    (MusicComposition.title c) (MusicComposition.tempo c)
    (MusicComposition.timeSignature c) (MusicComposition.key c)
    (MusicComposition.scale c) (MusicComposition.duration c)
    tracks (MusicComposition.metadata c).

(** The track with other notes. *)
Definition setNotes (notes : list MusicNote.t) (t : MusicTrack.t)
    : MusicTrack.t :=
  MusicTrack.mk (MusicTrack.name t) (MusicTrack.instrument t)
    (MusicTrack.waveform t) (MusicTrack.volume t) notes
    (MusicTrack.effects t).

(** The notes of all the tracks of a composition. *)
Definition allNotes (c : MusicComposition.t) : list MusicNote.t :=
  flat_map MusicTrack.notes (MusicComposition.tracks c).

(** The pitch of the note is one the encoder keeps. *)
Definition pitchInRange (note : MusicNote.t) : bool :=
  let midiNote := Midi.noteStringToMidi (MusicNote.note note) in
  negb ((midiNote <? 0) || (127 <? midiNote)).

(** A channel event of a track: the tick it is placed at and its three
    bytes, status, pitch and velocity. *)
Definition event : Type := Z * list Z.

(** The events the encoder emits for one note of a track, in order. *)
Definition noteEvents (tempo channel : Z) (note : MusicNote.t) : list event :=
  if pitchInRange note then
    let midiNote := Midi.noteStringToMidi (MusicNote.note note) in
    let startTick := Midi.secondsToTicks tempo (MusicNote.time note) in
    [ (startTick,
       [bor 144 (band channel 15); band midiNote 127;
        Z.min 127 (Z.max 1 (round (MusicNote.velocity note * inject_Z 127)))]);
      (startTick + Midi.DURATION_TICKS (MusicNote.duration note),
       [bor 128 (band channel 15); band midiNote 127; 0]) ]
  else [].

(** The diff of the scenario:
    ["--- a\n+++ b\n@@ -1 +1 @@\n+hello\n-world\n"]. *)
Definition scenarioDiff : jsstring :=
  lit "--- a" ++ [10] ++ lit "+++ b" ++ [10] ++ lit "@@ -1 +1 @@" ++ [10]
  ++ lit "+hello" ++ [10] ++ lit "-world" ++ [10].

(** One step of the mapper, from [m] to the notes and mapper [out]:
    the settings are kept, the time cursor does not go back, and every
    note starts between the two positions of the cursor. *)
Definition stepOk (m : Mapper.MusicMapper)
    (out : list MusicNote.t * Mapper.MusicMapper) : Prop :=
  Mapper.config (snd out) = Mapper.config m
  /\ Mapper.style (snd out) = Mapper.style m
  /\ Mapper.tempoMultiplier (snd out) = Mapper.tempoMultiplier m
  /\ (Mapper.currentTime m <= Mapper.currentTime (snd out))%Q
  /\ Forall (fun n => (Mapper.currentTime m <= MusicNote.time n
                       <= Mapper.currentTime (snd out))%Q) (fst out).

(** [calculateTempo] of the default configuration at the precision of
    the engine: the same expression on IEEE 754 binary64 numbers, before
    [Math.round]. *)
Definition doubleOfZ (z : Z) : PrimFloat.float :=
  PrimFloat.of_uint63 (Uint63.of_Z z).

Definition calculateTempo_double (complexity : Z) : PrimFloat.float :=
  PrimFloat.add (doubleOfZ 70)
    (PrimFloat.mul (PrimFloat.div (doubleOfZ complexity) (doubleOfZ 100))
                   (doubleOfZ (160 - 70))).

(** [Math.round(x)] is the integer [k]: [k - 0.5 <= x < k + 0.5], the
    two bounds being exact doubles. *)
Definition roundsTo (x : PrimFloat.float) (k : Z) : bool :=
  let half := PrimFloat.div (doubleOfZ 1) (doubleOfZ 2) in
  PrimFloat.leb (PrimFloat.sub (doubleOfZ k) half) x
  && PrimFloat.ltb x (PrimFloat.add (doubleOfZ k) half).

(** The style a request asks for. *)
Definition styleOf (request : SonifyRequest.t) : MusicStyle :=
  match SonifyRequest.style request with
  | Some s => s
  | None => classical
  end.

(** The request for the empty text, without language hint or style. *)
Definition emptyRequest : SonifyRequest.t := SonifyRequest.mk [] None None.

(** The analysis of the empty text: one empty line, one token. *)
Definition emptyAnalysis : CodeAnalysis.t :=
  CodeAnalysis.mk unknown [CodeToken.mk t_whitespace [] 1 0 0]
    (CodeMetrics.mk 1 0 0 1 0 0 0 0 0 0 0 0 0) [].

(** A text of three lines, a comment, a blank line and a word, and its
    analysis. *)
Definition sampleText : jsstring := lit "// c" ++ [10] ++ [10] ++ lit "x".

Definition sampleAnalysis : CodeAnalysis.t :=
  CodeAnalysis.mk unknown
    [CodeToken.mk t_comment (lit "// c") 1 0 0;
     CodeToken.mk t_whitespace [] 2 0 0;
     CodeToken.mk t_unknown (lit "x") 3 0 0]
    (CodeMetrics.mk 3 1 1 1 0 0 0 0 0 1 0 0 0) [].

(** The response to a request for the empty text made when the clock
    reads [now]: no note, no track, tempo 70. *)
Definition emptyResponse (now : jsstring) (style : MusicStyle)
    : Composer.SonifyResponse.t :=
  Composer.SonifyResponse.mk
    (Composer.buildComposition now [] emptyAnalysis [] 70
       (Mapper.getTotalDuration
          (snd (Mapper.mapToNotes (Mapper.new style) emptyAnalysis)))
       style)
    emptyAnalysis.

(** The composition whose tracks keep only the notes the encoder does not
    skip. *)
Definition dropSkipped (c : MusicComposition.t) : MusicComposition.t :=
  setTracks
    (map (fun t => setNotes (List.filter pitchInRange (MusicTrack.notes t)) t)
         (MusicComposition.tracks c))
    c.

(** A composition to try the encoder on: one melody track holding two
    notes, stored latest first. *)
Definition sampleLate : MusicNote.t := MusicNote.mk (lit "E4") d4n (4 # 5) 1 melody.
Definition sampleEarly : MusicNote.t := MusicNote.mk (lit "C4") d8n (1 # 2) 0 melody.
Definition sampleTrack : MusicTrack.t :=
  MusicTrack.mk (lit "Melody") melody triangle (7 # 10)
    [sampleLate; sampleEarly] [].
Definition sampleComposition : MusicComposition.t :=
  MusicComposition.mk (lit "sample") 120 (4, 4) nC major 2 [sampleTrack]
    (CompositionMetadata.mk unknown 1 0 [] (lit "00000000") []).

(** [a] does not start after [b]. *)
Definition le_time (a b : MusicNote.t) : Prop :=
  (MusicNote.time a <= MusicNote.time b)%Q.

(** The notes start at pairwise distinct times. *)
Definition distinctTimes (notes : list MusicNote.t) : Prop :=
  ForallOrdPairs (fun a b => ~ (MusicNote.time a == MusicNote.time b)%Q) notes.

End Spec.

(* ------------------------------------------------------------------ *)
(*  Notions the further properties are stated with                     *)
(* ------------------------------------------------------------------ *)
Module Shape.

(** A structure spans lines of a text of [total] lines, first to last. *)
Definition spanOk (total : Z) (s : CodeStructure.t) : Prop :=
  1 <= CodeStructure.startLine s <= CodeStructure.endLine s
  /\ CodeStructure.endLine s <= total.

(** A structure as [extractStructures] creates it: no child yet. *)
Definition leafOk (total : Z) (s : CodeStructure.t) : Prop :=
  CodeStructure.children s = [] /\ spanOk total s.

(** A root of the nested list: its children are leaves that start after
    it and end no later. *)
Definition rootOk (total : Z) (r : CodeStructure.t) : Prop :=
  spanOk total r
  /\ Forall (fun c => leafOk total c
                      /\ CodeStructure.startLine r < CodeStructure.startLine c
                      /\ CodeStructure.endLine c <= CodeStructure.endLine r)
            (CodeStructure.children r).

(** The roots and their children, in order. *)
Definition flatten (root : list CodeStructure.t) : list CodeStructure.t :=
  flat_map (fun r => r :: CodeStructure.children r) root.

Definition CodeLanguage_eqb (a b : CodeLanguage) : bool :=
  match a, b with
  | javascript, javascript | typescript, typescript | python, python
  | java, java | csharp, csharp | go, go | rust, rust
  | unknown, unknown => true
  | _, _ => false
  end.

(** How many of the signatures of a language a text matches. *)
Definition matched (l : CodeLanguage) (code : jsstring) : Z :=
  match find (fun lp => CodeLanguage_eqb (fst lp) l) Parser.LANGUAGE_SIGNATURES
  with
  | Some lp => Parser.score (snd lp) code
  | None => 0
  end.

(** The place of a language in the table of signatures. *)
Fixpoint position (l : CodeLanguage) (ls : list CodeLanguage) : nat :=
  match ls with
  | [] => 0
  | x :: r => if CodeLanguage_eqb x l then 0 else S (position l r)
  end.

Definition rank (l : CodeLanguage) : nat :=
  position l (map fst Parser.LANGUAGE_SIGNATURES).

(** The number a run of bytes denotes, most significant byte first. *)
Definition bigEndian (bytes : list Z) : Z :=
  fold_left (fun acc b => acc * 256 + b) bytes 0.

(** A byte of a file. *)
Definition isByte (b : Z) : Prop := 0 <= b <= 255.

(** A reader of the track chunks of a Standard MIDI File: [n] times the
    tag MTrk, a length on four bytes and as many bytes of payload, and
    nothing after the last chunk. Returns the payloads. *)
Fixpoint readChunks (n : nat) (bytes : list Z) : option (list (list Z)) :=
  match n with
  | O => match bytes with
         | [] => Some []
         | _ :: _ => None
         end
  | S n' =>
      match bytes with
      | 77 :: 84 :: 114 :: 107 :: a :: b :: c :: d :: rest =>
          let len := Z.to_nat (bigEndian [a; b; c; d]) in
          if (len <=? List.length rest)%nat
          then match readChunks n' (skipn len rest) with
               | Some chunks => Some (firstn len rest :: chunks)
               | None => None
               end
          else None
      | _ => None
      end
  end.

(** A reader of the file: the tag MThd, the header length 6, then the
    format, the number of chunks and the division on two bytes each, and
    the chunks. Returns the format, the division and the payloads. *)
Definition readFile (bytes : list Z) : option (Z * Z * list (list Z)) :=
  match bytes with
  | 77 :: 84 :: 104 :: 100 :: 0 :: 0 :: 0 :: 6
    :: f1 :: f2 :: n1 :: n2 :: d1 :: d2 :: rest =>
      match readChunks (Z.to_nat (bigEndian [n1; n2])) rest with
      | Some chunks => Some (bigEndian [f1; f2], bigEndian [d1; d2], chunks)
      | None => None
      end
  | _ => None
  end.

(** The bytes of the notes of a track as a reader of the file meets
    them, the previous event being at tick [last]: per note that is not
    skipped, the delta time of its note-on, counted from the end of the
    note before it and never negative, the note-on, the duration of the
    note as the delta time of its note-off, and the note-off. *)
Fixpoint noteBytes (tempo channel last : Z) (notes : list MusicNote.t)
    : list Z :=
  match notes with
  | [] => []
  | note :: rest =>
      if Spec.pitchInRange note then
        let pitch := Midi.noteStringToMidi (MusicNote.note note) in
        let start := Midi.secondsToTicks tempo (MusicNote.time note) in
        let dur := Midi.DURATION_TICKS (MusicNote.duration note) in
        Midi.encodeVLQ (Z.max 0 (start - last))
        ++ [bor 144 (band channel 15); pitch;
            Z.min 127 (Z.max 1 (round (MusicNote.velocity note * inject_Z 127)))]
        ++ Midi.encodeVLQ dur
        ++ [bor 128 (band channel 15); pitch; 0]
        ++ noteBytes tempo channel (start + dur) rest
      else noteBytes tempo channel last rest
  end.

(** A digit of lower-case hexadecimal notation. *)
Definition isHexDigit (c : Z) : Prop := 48 <= c <= 57 \/ 97 <= c <= 102.

(** The notes played by one instrument, in the order of the list. *)
Definition notesOf (i : InstrumentType) (notes : list MusicNote.t)
    : list MusicNote.t :=
  List.filter (fun n => InstrumentType_eqb (MusicNote.instrument n) i) notes.

(** The entries of a track map once the notes [done] are pushed: one per
    instrument that plays, holding the notes of that instrument. *)
Definition grouped (done : list MusicNote.t)
    (trackMap : list (InstrumentType * list MusicNote.t)) : Prop :=
  NoDup (map fst trackMap)
  /\ Forall (fun e => snd e = notesOf (fst e) done) trackMap
  /\ (forall i, ~ In i (map fst trackMap) -> notesOf i done = []).

(** The tracks split the notes by instrument: one track per instrument
    that plays, none empty, each with the notes of its instrument in the
    order of the list. *)
Definition partitions (notes : list MusicNote.t) (tracks : list MusicTrack.t)
    : Prop :=
  NoDup (map MusicTrack.instrument tracks)
  /\ Forall (fun t => MusicTrack.notes t
                      = notesOf (MusicTrack.instrument t) notes
                      /\ MusicTrack.notes t <> []) tracks
  /\ Forall (fun n => In (MusicNote.instrument n)
                         (map MusicTrack.instrument tracks)) notes.

(** A note the encoder keeps as it is: its pitch is a MIDI pitch and
    its velocity lies between 0.15 and 0.9, where the clamp of the
    note-on to [1, 127] changes nothing. *)
Definition audible (n : MusicNote.t) : Prop :=
  Spec.pitchInRange n = true
  /\ (3 # 20 <= MusicNote.velocity n <= 9 # 10)%Q.

(** A step of a loop that emits notes while a time cursor [cur] moves
    on: the cursor does not go back, the notes start between its two
    positions, and they come in the order of their start times. *)
Definition inOrder {S : Type} (cur : S -> Q) (s : S)
    (out : list MusicNote.t * S) : Prop :=
  (cur s <= cur (snd out))%Q
  /\ Forall (fun n => (cur s <= MusicNote.time n <= cur (snd out))%Q) (fst out)
  /\ StronglySorted Spec.le_time (fst out).

(** The line of a diff an entry of [parseDiff] stands for: the marker
    that was cut off an added or removed line is put back. *)
Definition unparseLine (l : Diff.DiffLine.t) : jsstring :=
  match Diff.DiffLine.type l with
  | Diff.dl_added => 43 :: Diff.DiffLine.content l
  | Diff.dl_removed => 45 :: Diff.DiffLine.content l
  | Diff.dl_context | Diff.dl_header => Diff.DiffLine.content l
  end.

(** Two notes of a chord, as [mapConditional] emits them: same start. *)
Definition chordRoot : MusicNote.t :=
  MusicNote.mk (lit "C4") d4n (1 # 2) 1 harmony.
Definition chordThird : MusicNote.t :=
  MusicNote.mk (lit "E4") d4n (1 # 2) 1 harmony.

(** What [sonifyTwoVersions] returns for two empty texts in the
    classical style, the clock reading [now1], [now2] and [now3] at its
    three readings. *)
Definition emptyVersions (now1 now2 now3 : jsstring)
    : Diff.SonifyTwoVersionsResult.t :=
  Diff.SonifyTwoVersionsResult.mk
    (Diff.sonifyDiff now3
       (lit "--- a/old.code" ++ [10] ++ lit "+++ b/new.code" ++ [10]
        ++ lit "@@ -1 +1 @@" ++ [10] ++ lit " " ++ [10])
       classical)
    (Composer.SonifyResponse.composition (Spec.emptyResponse now1 classical))
    (Composer.SonifyResponse.composition (Spec.emptyResponse now2 classical)).

(** The tick of the last event once the notes are written. *)
Fixpoint lastTickAfter (tempo last : Z) (notes : list MusicNote.t) : Z :=
  match notes with
  | [] => last
  | note :: rest =>
      if Spec.pitchInRange note then
        lastTickAfter tempo
          (Midi.secondsToTicks tempo (MusicNote.time note)
           + Midi.DURATION_TICKS (MusicNote.duration note)) rest
      else lastTickAfter tempo last rest
  end.

End Shape.

(* ================================================================== *)
(*  Properties                                                         *)
(* ================================================================== *)

(* ------------------------------------------------------------------ *)
(*  Variable-length quantities                                         *)
(* ------------------------------------------------------------------ *)
Section VLQ.
Import Midi Spec.

Lemma toInt32_small (v : Z) : - 2 ^ 31 <= v < 2 ^ 31 -> toInt32 v = v.
Proof.
  intros H. unfold toInt32.
  rewrite Z.mod_small by lia. lia.
Qed.

Lemma band_127 (v : Z) : 0 <= v < 2 ^ 31 -> band v 127 = v mod 128.
Proof.
  intros H. unfold band.
  rewrite !toInt32_small by lia.
  change 127 with (Z.ones 7). rewrite Z.land_ones by lia. reflexivity.
Qed.

Lemma sar_7 (v : Z) : 0 <= v < 2 ^ 31 -> sar v 7 = v / 128.
Proof.
  intros H. unfold sar.
  rewrite toInt32_small by lia.
  change (7 mod 32) with 7. rewrite Z.shiftr_div_pow2 by lia. reflexivity.
Qed.

Lemma continuation_byte (v : Z) :
  0 <= v < 2 ^ 31 -> bor (band v 127) 128 = v mod 128 + 128.
Proof.
  intros H. rewrite band_127 by exact H.
  assert (Hm : 0 <= v mod 128 < 128) by (apply Z.mod_pos_bound; lia).
  unfold bor. rewrite !toInt32_small by lia.
  assert (Hland : Z.land (v mod 128) 128 = 0).
  { apply Z.bits_inj'. intros n Hn. rewrite Z.land_spec, Z.bits_0.
    change 128 with (2 ^ 7).
    destruct (Z.lt_ge_cases n 7) as [Hlt|Hge].
    - rewrite Z.pow2_bits_eqb by lia.
      replace (7 =? n) with false by (symmetry; apply Z.eqb_neq; lia).
      apply andb_false_r.
    - rewrite Z.mod_pow2_bits_high by lia. reflexivity. }
  rewrite <- Z.lxor_lor by exact Hland.
  rewrite <- Z.add_nocarry_lxor by exact Hland. reflexivity.
Qed.

Lemma testbit7_high (b : Z) : 0 <= b < 128 -> Z.testbit (b + 128) 7 = true.
Proof.
  intros H. rewrite Z.testbit_true by lia.
  change (2 ^ 7) with 128.
  replace ((b + 128) / 128) with 1; [reflexivity|].
  apply Z.div_unique with (r := b); lia.
Qed.

Lemma testbit7_low (b : Z) : 0 <= b < 128 -> Z.testbit b 7 = false.
Proof.
  intros H. rewrite Z.testbit_false by lia.
  change (2 ^ 7) with 128. rewrite Z.div_small by lia. reflexivity.
Qed.

Lemma land_high_127 (b : Z) : 0 <= b < 128 -> Z.land (b + 128) 127 = b.
Proof.
  intros H. change 127 with (Z.ones 7). rewrite Z.land_ones by lia.
  change (2 ^ 7) with 128.
  replace (b + 128) with (b + 1 * 128) by lia.
  rewrite Z.mod_add by lia. apply Z.mod_small. lia.
Qed.

(** Reading the bytes the loop put in front of [bytes] amounts to start
    reading [bytes] with [value] as the accumulator. *)
Lemma decode_encodeVLQ_loop (fuel : nat) :
  forall value bytes,
    0 <= value < 2 ^ (7 * Z.of_nat fuel) -> value < 2 ^ 31 ->
    decodeVLQ_from 0 (encodeVLQ_loop fuel value bytes)
    = decodeVLQ_from value bytes.
Proof.
  induction fuel as [|fuel IH]; intros value bytes Hv H31.
  - simpl in Hv. assert (value = 0) by lia. subst. reflexivity.
  - simpl encodeVLQ_loop.
    destruct (0 <? value) eqn:Hpos.
    + apply Z.ltb_lt in Hpos.
      assert (Hm : 0 <= value mod 128 < 128) by (apply Z.mod_pos_bound; lia).
      assert (Hd : 0 <= value / 128 < 2 ^ (7 * Z.of_nat fuel)).
      { split; [apply Z.div_pos; lia|].
        apply Z.div_lt_upper_bound; [lia|].
        change 128 with (2 ^ 7). rewrite <- Z.pow_add_r by lia.
        replace (7 + 7 * Z.of_nat fuel) with (7 * Z.of_nat (S fuel)) by lia.
        lia. }
      assert (Hd31 : value / 128 < 2 ^ 31).
      { apply Z.le_lt_trans with value; [|lia].
        apply Z.div_le_upper_bound; lia. }
      rewrite sar_7, continuation_byte by lia.
      rewrite IH by lia.
      cbn [decodeVLQ_from].
      rewrite testbit7_high, land_high_127 by lia.
      f_equal. rewrite (Z.div_mod value 128) at 3 by lia. lia.
    + apply Z.ltb_ge in Hpos. assert (value = 0) by lia. subst. reflexivity.
Qed.

(** C2. For every V with 0 <= V < 2^28, reading the bytes of
    [encodeVLQ V] gives V back and consumes exactly those bytes, whatever
    follows them; and [encodeVLQ] maps 0 to [0x00], 127 to [0x7F] and
    128 to [0x81, 0x00]. *)
Theorem encodeVLQ_roundtrip (V : Z) (rest : list Z) :
  0 <= V < 2 ^ 28 ->
  decodeVLQ (encodeVLQ V ++ rest) = Some (V, rest)
  /\ encodeVLQ 0 = [0]
  /\ encodeVLQ 127 = [127]
  /\ encodeVLQ 128 = [129; 0].
Proof.
  intros HV. split; [|repeat split; reflexivity].
  unfold decodeVLQ, encodeVLQ.
  replace (V <? 0) with false by (symmetry; apply Z.ltb_ge; lia).
  assert (Hm : 0 <= V mod 128 < 128) by (apply Z.mod_pos_bound; lia).
  assert (Hd : 0 <= V / 128 < 2 ^ 21).
  { split; [apply Z.div_pos; lia|]. apply Z.div_lt_upper_bound; lia. }
  rewrite sar_7, band_127 by lia.
  assert (Happ : forall fuel value bytes,
             encodeVLQ_loop fuel value bytes ++ rest
             = encodeVLQ_loop fuel value (bytes ++ rest)).
  { induction fuel as [|fuel IH]; intros value bytes; simpl; [reflexivity|].
    destruct (0 <? value); [apply IH | reflexivity]. }
  rewrite Happ, decode_encodeVLQ_loop by (simpl; lia).
  cbn [decodeVLQ_from app]. rewrite testbit7_low by lia.
  f_equal. f_equal. rewrite (Z.div_mod V 128) at 3 by lia. lia.
Qed.

Lemma encodeVLQ_roundtrip_witness :
  decodeVLQ (encodeVLQ 480 ++ [144; 60; 64]) = Some (480, [144; 60; 64])
  /\ encodeVLQ 0 = [0]
  /\ encodeVLQ 127 = [127]
  /\ encodeVLQ 128 = [129; 0].
Proof.
  apply (encodeVLQ_roundtrip 480 [144; 60; 64]). lia.
Defined.

End VLQ.

(* ------------------------------------------------------------------ *)
(*  The lexical analyzer                                               *)
(* ------------------------------------------------------------------ *)
Section ParserFacts.
Import Parser.

Lemma at_ok {A} (l : list A) (i : nat) :
  (i < List.length l)%nat -> exists x, at_ l i = Ok x.
Proof.
  intros H. unfold at_.
  destruct (nth_error l i) as [x|] eqn:E.
  - exists x. reflexivity.
  - apply nth_error_None in E. lia.
Qed.

Lemma seq_below (a n : nat) :
  Forall (fun j => (j < n)%nat) (seq a (n - a)).
Proof.
  apply Forall_forall. intros j Hj. apply in_seq in Hj. lia.
Qed.

Lemma findEndLine_ok tokens token js :
  Forall (fun j => (j < List.length tokens)%nat) js ->
  forall endLine, exists z, findEndLine tokens token js endLine = Ok z.
Proof.
  induction 1 as [|j js Hj _ IH]; intros endLine; simpl.
  - eauto.
  - destruct (at_ok tokens j Hj) as [tj ->]. simpl.
    destruct (_ && _); eauto.
Qed.

Lemma structureAt_ok tokens i :
  (i < List.length tokens)%nat -> exists s, structureAt tokens i = Ok s.
Proof.
  intros Hi. unfold structureAt.
  destruct (at_ok tokens i Hi) as [token ->]. simpl.
  destruct (isStructureType _); [|eauto].
  destruct (i + 1 <? List.length tokens)%nat eqn:E.
  - apply Nat.ltb_lt in E. destruct (at_ok tokens (i + 1) E) as [next ->].
    simpl.
    destruct (findEndLine_ok tokens token _
                (seq_below (i + 1) (List.length tokens)) (CodeToken.line token))
      as [z ->].
    simpl. eauto.
  - simpl.
    destruct (findEndLine_ok tokens token _
                (seq_below (i + 1) (List.length tokens)) (CodeToken.line token))
      as [z ->].
    simpl. eauto.
Qed.

Lemma extractLoop_ok tokens idxs :
  Forall (fun i => (i < List.length tokens)%nat) idxs ->
  forall structures, exists ss, extractLoop tokens idxs structures = Ok ss.
Proof.
  induction 1 as [|i idxs Hi _ IH]; intros structures; simpl.
  - eauto.
  - destruct (structureAt_ok tokens i Hi) as [s ->]. simpl. apply IH.
Qed.

Lemma place_ok root struct idxs :
  Forall (fun i => (i < List.length root)%nat) idxs ->
  exists o, place root struct idxs = Ok o.
Proof.
  induction 1 as [|i idxs Hi _ IH]; simpl.
  - eauto.
  - destruct (at_ok root i Hi) as [r ->]. simpl.
    destruct (isInsideStructure struct r); eauto.
Qed.

Lemma nestLoop_ok structures :
  forall root, exists r, nestLoop structures root = Ok r.
Proof.
  induction structures as [|struct rest IH]; intros root; simpl.
  - eauto.
  - destruct (place_ok root struct (rev (seq 0 (List.length root)))) as [o ->].
    + apply Forall_forall. intros i Hi.
      apply in_rev in Hi. apply in_seq in Hi. lia.
    + simpl. destruct o; apply IH.
Qed.

Lemma extractStructures_ok tokens lines :
  exists ss, extractStructures tokens lines = Ok ss.
Proof.
  unfold extractStructures.
  destruct (extractLoop_ok tokens (seq 0 (List.length tokens))) with (structures := @nil CodeStructure.t)
    as [ss ->].
  - replace (List.length tokens) with (List.length tokens - 0)%nat at 1 by lia.
    apply seq_below.
  - simpl. apply nestLoop_ok.
Qed.

(** What [analyze] returns: it never throws. *)
Lemma analyze_ok code language :
  exists structures,
    extractStructures (tokenize code (splitLines code)) (splitLines code)
    = Ok structures
    /\ analyze code language
       = Ok (CodeAnalysis.mk
               (match language with
                | Some l => l
                | None => detectLanguage code
                end)
               (tokenize code (splitLines code))
               (calculateMetrics (tokenize code (splitLines code))
                                 (splitLines code) structures)
               structures).
Proof.
  destruct (extractStructures_ok (tokenize code (splitLines code))
                                 (splitLines code)) as [ss E].
  exists ss. split; [exact E|].
  unfold analyze. rewrite E. reflexivity.
Qed.


(* -- the complexity score ------------------------------------------ *)

Lemma count_app {A} (p : A -> bool) (l1 l2 : list A) :
  count p (l1 ++ l2) = count p l1 + count p l2.
Proof.
  unfold count. rewrite filter_app, length_app. lia.
Qed.

Lemma count_nonneg {A} (p : A -> bool) (l : list A) : 0 <= count p l.
Proof. unfold count. lia. Qed.

Lemma keywords_not_comment :
  forall w ty, lookupKeyword w = Some ty -> ty <> t_comment.
Proof.
  intros w ty. unfold lookupKeyword.
  destruct (find _ LANGUAGE_KEYWORDS) as [kv|] eqn:E.
  - apply find_some in E. destruct E as [Hin _].
    intros H. injection H as <-.
    assert (Hall : forallb (fun kv : string * TokenType =>
                              negb (TokenType_eqb (snd kv) t_comment))
                           LANGUAGE_KEYWORDS = true) by reflexivity.
    rewrite forallb_forall in Hall. specialize (Hall kv Hin).
    intros Hc. rewrite Hc in Hall. discriminate Hall.
  - destruct (existsb _ _); intros H; [injection H as <-|]; discriminate.
Qed.

Lemma classify_not_comment line w : classify line w <> t_comment.
Proof.
  unfold classify.
  repeat match goal with
         | |- (if ?c then _ else _) <> _ => destruct c; [discriminate|]
         end.
  destruct (lookupKeyword w) as [ty|] eqn:E.
  - eapply keywords_not_comment; eassumption.
  - destruct (_ && _); discriminate.
Qed.

Lemma tokenizeWords_no_comment line lineIdx d words :
  forall col, countType t_comment (tokenizeWords line lineIdx d words col) = 0.
Proof.
  induction words as [|w ws IH]; intros col; simpl; [reflexivity|].
  destruct (trim w) as [|c cw] eqn:E; [apply IH|].
  unfold countType, count in *. simpl.
  destruct (classify line (c :: cw)) eqn:Ec;
    try (simpl; apply IH).
  exfalso. eapply classify_not_comment; eassumption.
Qed.

(** A line yields a comment token only if it is neither empty nor code:
    comment tokens and empty lines together never outnumber the lines. *)
Lemma comments_and_empty_lines lines :
  forall lineIdx d,
    countType t_comment (tokenizeFrom lines lineIdx d)
    + count (fun l => len (trim l) =? 0) lines
    <= Z.of_nat (List.length lines).
Proof.
  induction lines as [|line rest IH]; intros lineIdx d.
  - simpl. unfold countType, count. simpl. lia.
  - cbn [tokenizeFrom].
    destruct (tokenizeLine line lineIdx d) as [toks d'] eqn:E.
    unfold countType in *. rewrite count_app.
    specialize (IH (lineIdx + 1) d').
    replace (count (fun l => len (trim l) =? 0) (line :: rest))
      with ((if len (trim line) =? 0 then 1 else 0)
            + count (fun l => len (trim l) =? 0) rest)
      by (unfold count; simpl; destruct (len (trim line) =? 0);
          simpl List.length; lia).
    replace (Z.of_nat (List.length (line :: rest)))
      with (1 + Z.of_nat (List.length rest)) by (simpl List.length; lia).
    unfold tokenizeLine in E.
    destruct (len (trim line) =? 0).
    + injection E as <- <-. change (count _ [_]) with 0. lia.
    + destruct (isComment (trim line)).
      * injection E as <- <-. change (count _ [_]) with 1. lia.
      * injection E as <- <-.
        pose proof (tokenizeWords_no_comment line lineIdx d
                      (splitWords (trim line) [])
                      (len line - len (trimStart line))) as Hw.
        unfold countType in Hw. rewrite Hw. lia.
Qed.

Lemma fold_max_ge (l : list Z) : forall a, a <= fold_left Z.max l a.
Proof.
  induction l as [|x l IH]; intros a; simpl; [lia|].
  specialize (IH (Z.max a x)). lia.
Qed.

Lemma round_bounds (q : Q) (lo hi : Z) :
  (inject_Z lo <= q)%Q -> (q <= inject_Z hi)%Q -> lo <= round q <= hi.
Proof.
  intros Hlo Hhi. unfold round. split.
  - rewrite <- (Qfloor_Z lo). apply Qfloor_resp_le.
    apply Qle_trans with q; [exact Hlo|].
    rewrite <- (Qplus_0_r q) at 1. apply Qplus_le_r. discriminate.
  - assert (H : (q + (1 # 2) <= inject_Z hi + (1 # 2))%Q)
      by (apply Qplus_le_l; exact Hhi).
    apply Qfloor_resp_le in H.
    apply Z.le_trans with (1 := H).
    unfold Qfloor, Qplus, inject_Z. simpl Qnum. simpl Qden.
    change (Z.pos (1 * 2)) with 2.
    assert ((hi * 2 + 1 * 1) / 2 < hi + 1)
      by (apply Z.div_lt_upper_bound; lia).
    lia.
Qed.

Lemma Qplus_nonneg (a b : Q) : (0 <= a -> 0 <= b -> 0 <= a + b)%Q.
Proof.
  intros Ha Hb. change 0%Q with (0 + 0)%Q at 1.
  apply Qplus_le_compat; assumption.
Qed.

Lemma complexityScore_bounds (depth conds loops codeLines funcs : Z) :
  0 <= depth -> 0 <= conds -> 0 <= loops -> 0 <= codeLines -> 0 <= funcs ->
  (0 <= complexityScore depth conds loops codeLines funcs <= inject_Z 100)%Q.
Proof.
  intros Hd Hc Hl Hk Hf. unfold complexityScore. split.
  - apply Q.min_glb; [discriminate|].
    assert (H1 : (0 <= inject_Z (Z.min (depth * 10) 30))%Q)
      by (change 0%Q with (inject_Z 0); rewrite <- Zle_Qle; lia).
    assert (H2 : (0 <= inject_Z (Z.min ((conds + loops) * 5) 30))%Q)
      by (change 0%Q with (inject_Z 0); rewrite <- Zle_Qle; lia).
    assert (H3 : (0 <= Qmin (inject_Z codeLines * (1 # 2)) (inject_Z 20))%Q).
    { apply Q.min_glb; [|discriminate].
      apply Qmult_le_0_compat; [|discriminate].
      change 0%Q with (inject_Z 0); rewrite <- Zle_Qle; lia. }
    assert (H4 : (0 <= inject_Z (Z.min (funcs * 3) 20))%Q)
      by (change 0%Q with (inject_Z 0); rewrite <- Zle_Qle; lia).
    repeat (apply Qplus_nonneg || assumption).
  - apply Q.le_min_l.
Qed.

(** The complexity of any text lies in [0, 100]. *)
Lemma tokenize_complexity_range code structures :
  0 <= CodeMetrics.complexity
         (calculateMetrics (tokenize code (splitLines code)) (splitLines code)
                           structures) <= 100.
Proof.
  unfold calculateMetrics. cbn [CodeMetrics.complexity].
  pose proof (comments_and_empty_lines (splitLines code) 0 0) as H.
  apply round_bounds; apply complexityScore_bounds;
    try apply count_nonneg; try apply fold_max_ge;
    unfold tokenize; lia.
Qed.

(** C7. On every input the analysis succeeds and its complexity is the
    rounded sum, clamped to 100, of a nesting score (10 per level, at
    most 30), a branching score (5 per conditional or loop, at most 30),
    a size score (half a point per code line, at most 20) and a function
    score (3 per function, at most 20); each score lies between 0 and
    its cap and the complexity between 0 and 100. *)
Theorem complexity_bounds (code : jsstring) (language : option CodeLanguage) :
  exists a, analyze code language = Ok a /\
    let m := CodeAnalysis.metrics a in
    let nestingScore := inject_Z (Z.min (CodeMetrics.maxNestingDepth m * 10) 30) in
    let branchScore :=
      inject_Z (Z.min ((CodeMetrics.conditionalCount m
                        + CodeMetrics.loopCount m) * 5) 30) in
    let sizeScore :=
      Qmin (inject_Z (CodeMetrics.codeLines m) * (1 # 2)) (inject_Z 20) in
    let functionScore := inject_Z (Z.min (CodeMetrics.functionCount m * 3) 20) in
    CodeMetrics.complexity m
    = round (Qmin (inject_Z 100)
                  (nestingScore + branchScore + sizeScore + functionScore))
    /\ (0 <= nestingScore <= inject_Z 30)%Q
    /\ (0 <= branchScore <= inject_Z 30)%Q
    /\ (0 <= sizeScore <= inject_Z 20)%Q
    /\ (0 <= functionScore <= inject_Z 20)%Q
    /\ 0 <= CodeMetrics.complexity m <= 100.
Proof.
  destruct (analyze_ok code language) as [ss [_ E]].
  eexists. split; [exact E|].
  cbn [CodeAnalysis.metrics].
  set (lines := splitLines code). set (tokens := tokenize code lines).
  assert (Hdepth : 0 <= fold_left Z.max (map CodeToken.depth tokens) 0)
    by apply fold_max_ge.
  assert (Hcode : 0 <= Z.of_nat (List.length lines)
                       - count (fun l => len (trim l) =? 0) lines
                       - countType t_comment tokens).
  { pose proof (comments_and_empty_lines lines 0 0) as H.
    fold (tokenize code lines) in H. fold tokens in H. lia. }
  pose proof (count_nonneg (fun t => TokenType_eqb (CodeToken.type t) t_function)
                           tokens) as Hf.
  pose proof (count_nonneg (fun t => TokenType_eqb (CodeToken.type t) t_loop)
                           tokens) as Hl.
  pose proof (count_nonneg (fun t => TokenType_eqb (CodeToken.type t) t_conditional)
                           tokens) as Hc.
  unfold calculateMetrics. cbn -[round Qmin Qle Z.min Z.mul].
  fold (countType t_function tokens) in *.
  fold (countType t_loop tokens) in *.
  fold (countType t_conditional tokens) in *.
  split; [reflexivity|].
  assert (Hz : forall z cap, 0 <= z -> 0 <= cap ->
             (0 <= inject_Z (Z.min z cap) <= inject_Z cap)%Q).
  { intros z cap Hz0 Hcap. change 0%Q with (inject_Z 0).
    rewrite <- !Zle_Qle. lia. }
  split; [apply Hz; lia|].
  split; [apply Hz; lia|].
  split.
  { split.
    - apply Q.min_glb; [|discriminate].
      apply Qmult_le_0_compat; [|discriminate].
      change 0%Q with (inject_Z 0); rewrite <- Zle_Qle; lia.
    - apply Q.le_min_r. }
  split; [apply Hz; lia|].
  apply round_bounds;
    apply (complexityScore_bounds _ _ _ _ _ Hdepth Hc Hl Hcode Hf).
Qed.

End ParserFacts.

(* ------------------------------------------------------------------ *)
(*  Tempo                                                              *)
(* ------------------------------------------------------------------ *)
Section TempoFacts.
Import Mapper.

Lemma calculateTempo_range (style : MusicStyle) (c : Q) :
  (0 <= c <= 100)%Q -> 70 <= calculateTempo (new style) c <= 160.
Proof.
  intros Hc.
  change (calculateTempo (new style) c)
    with (round (70 + (c * (1 # 100)) * 90)).
  apply round_bounds;
    [change (inject_Z 70) with 70%Q | change (inject_Z 160) with 160%Q]; lra.
Qed.

(** On the integer complexities 0 to 100, the only ones the pipeline
    passes, rounding the double-precision value gives the tempo of the
    exact model. *)
Lemma calculateTempo_double_agrees :
  forallb (fun c => Spec.roundsTo (Spec.calculateTempo_double c)
                      (calculateTempo (new classical) (inject_Z c)))
          (range 101) = true.
Proof. vm_compute. reflexivity. Qed.

(** C5 as stated fails: for the classical preset, whose tempo range is
    [80, 130], complexity 0 gives 70 BPM, not the interpolation over the
    preset's range. *)
Lemma calculateTempo_not_preset_range :
  calculateTempo (new classical) 0
  <> round (inject_Z (fst (StylePreset.tempoRange (STYLE_PRESETS classical)))
            + (0 / inject_Z 100)
              * inject_Z (snd (StylePreset.tempoRange (STYLE_PRESETS classical))
                          - fst (StylePreset.tempoRange (STYLE_PRESETS classical)))).
Proof.
  vm_compute. discriminate.
Qed.

(** C5, as the code has it. For every style and every integer
    complexity c from 0 to 100, the values [calculateMetrics] produces,
    [calculateTempo c] is [round(70 + (c / 100) * 90)]: the range is the
    [complexityToTempo] entry of the mapping configuration, [70, 160],
    the same for all styles, and the tempo lies in it. On these
    complexities the value is the one the code computes in double
    precision: rounding [70 + (c / 100) * 90] taken on doubles gives the
    same integer. *)
Theorem calculateTempo_formula (style : MusicStyle) (c : Z) :
  0 <= c <= 100 ->
  calculateTempo (new style) (inject_Z c)
  = round (70 + (inject_Z c / 100) * 90)
  /\ 70 <= calculateTempo (new style) (inject_Z c) <= 160
  /\ Spec.roundsTo (Spec.calculateTempo_double c)
                   (calculateTempo (new style) (inject_Z c)) = true.
Proof.
  intros Hc.
  assert (E : calculateTempo (new style) (inject_Z c)
              = round (70 + (inject_Z c / 100) * 90))
    by (destruct style; reflexivity).
  split; [exact E|]. split.
  - apply calculateTempo_range.
    change 0%Q with (inject_Z 0). change 100%Q with (inject_Z 100).
    rewrite <- !Zle_Qle. exact Hc.
  - pose proof calculateTempo_double_agrees as H.
    rewrite forallb_forall in H.
    replace (calculateTempo (new style) (inject_Z c))
      with (calculateTempo (new classical) (inject_Z c))
      by (destruct style; reflexivity).
    apply H. unfold range. apply in_map_iff.
    exists (Z.to_nat c). split; [lia|]. apply in_seq. lia.
Qed.

Lemma calculateTempo_formula_witness :
  calculateTempo (new jazz) (inject_Z 50)
  = round (70 + (inject_Z 50 / 100) * 90)
  /\ 70 <= calculateTempo (new jazz) (inject_Z 50) <= 160
  /\ Spec.roundsTo (Spec.calculateTempo_double 50)
                   (calculateTempo (new jazz) (inject_Z 50)) = true.
Proof.
  apply (calculateTempo_formula jazz 50). lia.
Defined.

End TempoFacts.

(* ------------------------------------------------------------------ *)
(*  Diff statistics                                                    *)
(* ------------------------------------------------------------------ *)
Section DiffFacts.
Import Diff Spec.

Lemma ltb_lt (a b : Q) : ltb a b = true <-> (a < b)%Q.
Proof.
  unfold ltb. rewrite negb_true_iff. split.
  - intros H. apply Qnot_le_lt. intros Hle.
    apply Qle_bool_iff in Hle. congruence.
  - intros H. destruct (Qle_bool b a) eqn:E; [|reflexivity].
    apply Qle_bool_iff in E. exfalso. eapply Qlt_not_le; eassumption.
Qed.

Lemma ratio_bounds (a t : Z) :
  0 <= a <= t -> 0 < t -> (0 <= inject_Z a / inject_Z t <= 1)%Q.
Proof.
  intros Ha Ht.
  assert (Htq : (0 < inject_Z t)%Q)
    by (change 0%Q with (inject_Z 0); rewrite <- Zlt_Qlt; exact Ht).
  split.
  - apply Qle_shift_div_l; [exact Htq|].
    rewrite Qmult_0_l. change 0%Q with (inject_Z 0). rewrite <- Zle_Qle. lia.
  - apply Qle_shift_div_r; [exact Htq|].
    rewrite Qmult_1_l. rewrite <- Zle_Qle. lia.
Qed.

Lemma sonifyDiff_analysis now diffText style :
  SonifyDiffResult.diffAnalysis (sonifyDiff now diffText style)
  = analyzeDiff (parseDiff diffText).
Proof. reflexivity. Qed.

Lemma sonifyDiff_key now diffText style :
  let ratio := DiffAnalysis.changeRatio (analyzeDiff (parseDiff diffText)) in
  let c := SonifyDiffResult.composition (sonifyDiff now diffText style) in
  (MusicComposition.key c, MusicComposition.scale c)
  = (if ltb (3 # 5) ratio then (nC, major)
     else if ltb ratio (2 # 5) then (nA, minor)
     else (nD, dorian)).
Proof.
  cbv zeta. unfold sonifyDiff.
  cbn [SonifyDiffResult.composition MusicComposition.key
       MusicComposition.scale].
  destruct (ltb (3 # 5) _); [reflexivity|].
  destruct (ltb _ (2 # 5)); reflexivity.
Qed.

(** C8. For every diff text, [changeRatio] is
    [addedLines / (addedLines + removedLines)], or 1/2 when no line is
    added or removed, and lies in [0, 1]; [sonifyDiff] picks C major
    above 0.6, A minor below 0.4 and D dorian in between. On the diff of
    the scenario there is one added line, one removed line, the ratio is
    1/2 and the key is D dorian. *)
Theorem changeRatio_and_key (now diffText : jsstring) (style : MusicStyle) :
  let r := sonifyDiff now diffText style in
  let a := SonifyDiffResult.diffAnalysis r in
  let c := SonifyDiffResult.composition r in
  let added := DiffAnalysis.addedLines a in
  let removed := DiffAnalysis.removedLines a in
  a = analyzeDiff (parseDiff diffText)
  /\ 0 <= added /\ 0 <= removed
  /\ (DiffAnalysis.changeRatio a
      == if 0 <? added + removed
         then inject_Z added / inject_Z (added + removed)
         else 1 # 2)%Q
  /\ (0 <= DiffAnalysis.changeRatio a <= 1)%Q
  /\ (MusicComposition.key c, MusicComposition.scale c)
     = (if ltb (3 # 5) (DiffAnalysis.changeRatio a) then (nC, major)
        else if ltb (DiffAnalysis.changeRatio a) (2 # 5) then (nA, minor)
        else (nD, dorian))
  /\ (let r := sonifyDiff now scenarioDiff style in
      let a := SonifyDiffResult.diffAnalysis r in
      let c := SonifyDiffResult.composition r in
      DiffAnalysis.addedLines a = 1
      /\ DiffAnalysis.removedLines a = 1
      /\ DiffAnalysis.changeRatio a = 1 # 2
      /\ MusicComposition.key c = nD
      /\ MusicComposition.scale c = dorian).
Proof.
  cbv zeta.
  pose proof (sonifyDiff_key now diffText style) as Hkey. cbv zeta in Hkey.
  rewrite Hkey. clear Hkey.
  rewrite !sonifyDiff_analysis.
  set (a := analyzeDiff (parseDiff diffText)).
  assert (Hadd : 0 <= DiffAnalysis.addedLines a) by apply count_nonneg.
  assert (Hrem : 0 <= DiffAnalysis.removedLines a) by apply count_nonneg.
  assert (Hratio : DiffAnalysis.changeRatio a
                   = if 0 <? DiffAnalysis.addedLines a + DiffAnalysis.removedLines a
                     then (inject_Z (DiffAnalysis.addedLines a)
                           / inject_Z (DiffAnalysis.addedLines a
                                       + DiffAnalysis.removedLines a))%Q
                     else 1 # 2) by reflexivity.
  split; [reflexivity|].
  split; [exact Hadd|]. split; [exact Hrem|].
  split; [rewrite Hratio; reflexivity|].
  split.
  { rewrite Hratio.
    destruct (0 <? DiffAnalysis.addedLines a + DiffAnalysis.removedLines a) eqn:E.
    - apply Z.ltb_lt in E. apply ratio_bounds; lia.
    - split; discriminate. }
  split; [reflexivity|].
  destruct style; vm_compute; repeat split.
Qed.

End DiffFacts.

(* ------------------------------------------------------------------ *)
(*  The encoder: note events                                           *)
(* ------------------------------------------------------------------ *)
Section EncoderFacts.
Import Midi Spec.

(** Turns the outcome of the comparisons of a goal into (in)equalities. *)
Ltac qle_cases :=
  repeat match goal with
         | H : Qle_bool _ _ = true |- _ => apply Qle_bool_iff in H
         | H : Qle_bool ?a ?b = false |- _ =>
             assert (b < a)%Q
               by (apply Qnot_le_lt; intros Hle; apply Qle_bool_iff in Hle;
                   congruence);
             clear H
         end.

Lemma insertByTime_perm x l : Permutation (insertByTime x l) (x :: l).
Proof.
  induction l as [|y l IH]; simpl; [reflexivity|].
  destruct (Qle_bool (MusicNote.time x) (MusicNote.time y)); [reflexivity|].
  rewrite IH. apply perm_swap.
Qed.

Lemma sortByTime_perm l : Permutation (sortByTime l) l.
Proof.
  induction l as [|x l IH]; simpl; [reflexivity|].
  rewrite insertByTime_perm. apply perm_skip. exact IH.
Qed.

Lemma insertByTime_sorted x l :
  StronglySorted le_time l -> StronglySorted le_time (insertByTime x l).
Proof.
  induction 1 as [|y l Hs IH Hy]; simpl.
  - constructor; constructor.
  - destruct (Qle_bool (MusicNote.time x) (MusicNote.time y)) eqn:E; qle_cases.
    + constructor; [constructor; assumption|].
      constructor; [exact E|].
      eapply Forall_impl; [|exact Hy].
      intros z Hz. unfold le_time in *. lra.
    + constructor; [exact IH|].
      eapply Permutation_Forall;
        [apply Permutation_sym; apply insertByTime_perm|].
      constructor; [unfold le_time; lra | exact Hy].
Qed.

Lemma sortByTime_sorted l : StronglySorted le_time (sortByTime l).
Proof.
  induction l as [|x l IH]; simpl; [constructor|].
  apply insertByTime_sorted. exact IH.
Qed.

(** Two insertions commute when the times differ. *)
Lemma insertByTime_comm x y l :
  ~ (MusicNote.time x == MusicNote.time y)%Q ->
  insertByTime x (insertByTime y l) = insertByTime y (insertByTime x l).
Proof.
  intros Hxy. induction l as [|z l IH]; simpl.
  - destruct (Qle_bool (MusicNote.time x) (MusicNote.time y)) eqn:E1;
      destruct (Qle_bool (MusicNote.time y) (MusicNote.time x)) eqn:E2;
      try reflexivity; qle_cases; exfalso; lra.
  - destruct (Qle_bool (MusicNote.time y) (MusicNote.time z)) eqn:Eyz;
      destruct (Qle_bool (MusicNote.time x) (MusicNote.time z)) eqn:Exz; simpl;
      rewrite ?Eyz, ?Exz;
      destruct (Qle_bool (MusicNote.time x) (MusicNote.time y)) eqn:E1;
      destruct (Qle_bool (MusicNote.time y) (MusicNote.time x)) eqn:E2;
      try reflexivity; try (rewrite IH; reflexivity);
      qle_cases; exfalso; lra.
Qed.

Lemma distinctTimes_perm l l' :
  Permutation l l' -> distinctTimes l -> distinctTimes l'.
Proof.
  unfold distinctTimes.
  induction 1 as [|x l l' Hp IH|x y l|l l' l'' _ IH1 _ IH2]; intros H.
  - exact H.
  - inversion H as [|? ? Hx Hl]; subst. constructor.
    + eapply Permutation_Forall; eassumption.
    + apply IH. exact Hl.
  - inversion H as [|? ? Hy Hl]; subst.
    inversion Hl as [|? ? Hx Hl']; subst.
    inversion Hy as [|? ? Hyx Hyl]; subst.
    constructor; [|constructor; assumption].
    constructor; [|assumption].
    intros E. apply Hyx. symmetry. exact E.
  - apply IH2, IH1, H.
Qed.

(** With pairwise distinct times the sorted array does not depend on
    the order the notes were stored in. *)
Lemma sortByTime_permutation l l' :
  Permutation l l' -> distinctTimes l -> sortByTime l = sortByTime l'.
Proof.
  induction 1 as [|x l l' Hp IH|x y l|l l' l'' Hp1 IH1 Hp2 IH2]; intros H.
  - reflexivity.
  - simpl. rewrite IH; [reflexivity|].
    inversion H; assumption.
  - simpl. apply insertByTime_comm.
    inversion H as [|? ? Hy _]; subst.
    inversion Hy as [|? ? Hyx _]; subst.
    exact Hyx.
  - rewrite IH1 by exact H. apply IH2.
    eapply distinctTimes_perm; eassumption.
Qed.

Lemma trackChunk_setNotes tempo t notes :
  sortByTime notes = sortByTime (MusicTrack.notes t) ->
  trackChunk tempo (setNotes notes t) = trackChunk tempo t.
Proof.
  intros E. unfold trackChunk, setNotes.
  cbn [MusicTrack.instrument MusicTrack.name MusicTrack.notes].
  rewrite E. reflexivity.
Qed.

(** C10. The encoder emits the notes of a track in the order of a
    stable sort by start time: the sorted array is a permutation of the
    stored one, ordered by time. If the notes of one track start at
    pairwise distinct times, storing them in any other order leaves
    every byte of the encoded file unchanged. *)
Theorem generate_permutation_invariant
    (c : MusicComposition.t) (pre post : list MusicTrack.t)
    (t : MusicTrack.t) (notes' : list MusicNote.t) :
  MusicComposition.tracks c = pre ++ t :: post ->
  distinctTimes (MusicTrack.notes t) ->
  Permutation (MusicTrack.notes t) notes' ->
  generate (setTracks (pre ++ setNotes notes' t :: post) c) = generate c
  /\ Permutation (sortByTime (MusicTrack.notes t)) (MusicTrack.notes t)
  /\ StronglySorted le_time (sortByTime (MusicTrack.notes t)).
Proof.
  intros Htracks Hdistinct Hperm.
  split; [|split; [apply sortByTime_perm | apply sortByTime_sorted]].
  unfold generate, trackChunks, tempoTrackChunk, setTracks.
  cbn [MusicComposition.tracks MusicComposition.tempo MusicComposition.title
       MusicComposition.timeSignature MusicComposition.metadata].
  rewrite Htracks, !map_app. cbn [map].
  rewrite trackChunk_setNotes; [reflexivity|].
  symmetry. apply sortByTime_permutation; assumption.
Qed.

Lemma generate_permutation_invariant_witness :
  generate (setTracks ([] ++ setNotes [sampleEarly; sampleLate] sampleTrack :: [])
                      sampleComposition)
  = generate sampleComposition
  /\ Permutation (sortByTime (MusicTrack.notes sampleTrack))
                 (MusicTrack.notes sampleTrack)
  /\ StronglySorted le_time (sortByTime (MusicTrack.notes sampleTrack)).
Proof.
  apply (generate_permutation_invariant sampleComposition [] [] sampleTrack
           [sampleEarly; sampleLate]).
  - reflexivity.
  - repeat constructor. intros H. discriminate H.
  - apply perm_swap.
Defined.

(* -- velocities and skipped pitches -------------------------------- *)

Lemma band_15_range (channel : Z) : 0 <= band channel 15 < 16.
Proof.
  unfold band. rewrite (toInt32_small 15) by lia.
  change 15 with (Z.ones 4). rewrite Z.land_ones by lia.
  apply Z.mod_pos_bound. lia.
Qed.

Lemma status_bytes (channel : Z) :
  144 <= bor 144 (band channel 15) <= 159
  /\ 128 <= bor 128 (band channel 15) <= 143.
Proof.
  generalize (band_15_range channel). generalize (band channel 15).
  intros x H.
  assert (Hx : x = 0 \/ x = 1 \/ x = 2 \/ x = 3 \/ x = 4 \/ x = 5 \/ x = 6
               \/ x = 7 \/ x = 8 \/ x = 9 \/ x = 10 \/ x = 11 \/ x = 12
               \/ x = 13 \/ x = 14 \/ x = 15) by lia.
  repeat (destruct Hx as [Hx | Hx];
          [subst x; vm_compute; intuition discriminate|]).
  subst x; vm_compute; intuition discriminate.
Qed.

Lemma pitch_byte (midiNote : Z) :
  0 <= midiNote <= 127 -> band midiNote 127 = midiNote.
Proof.
  intros H. rewrite band_127 by lia. apply Z.mod_small. lia.
Qed.

Lemma pitchInRange_spec note :
  pitchInRange note = true
  <-> 0 <= noteStringToMidi (MusicNote.note note) <= 127.
Proof.
  unfold pitchInRange. rewrite negb_true_iff, orb_false_iff.
  rewrite !Z.ltb_ge. tauto.
Qed.

(** The loop body is the emission of the events of the note. *)
Lemma addNote_events tempo channel b note :
  addNote tempo channel b note
  = fold_left (fun b e => addEvent b (fst e) (snd e))
              (noteEvents tempo channel note) b.
Proof.
  unfold addNote, noteEvents, pitchInRange.
  destruct (_ || _); reflexivity.
Qed.

Lemma addNotes_events tempo channel notes :
  forall b,
    fold_left (addNote tempo channel) notes b
    = fold_left (fun b e => addEvent b (fst e) (snd e))
                (flat_map (noteEvents tempo channel) notes) b.
Proof.
  induction notes as [|note notes IH]; intros b; simpl; [reflexivity|].
  rewrite fold_left_app, <- addNote_events. apply IH.
Qed.

Lemma addNotes_filter tempo channel notes :
  forall b,
    fold_left (addNote tempo channel) (List.filter pitchInRange notes) b
    = fold_left (addNote tempo channel) notes b.
Proof.
  induction notes as [|note notes IH]; intros b; simpl; [reflexivity|].
  destruct (pitchInRange note) eqn:E; simpl.
  - apply IH.
  - rewrite IH. f_equal. unfold addNote.
    unfold pitchInRange in E. apply negb_false_iff in E. rewrite E.
    reflexivity.
Qed.

Lemma insertByTime_first x l :
  Forall (le_time x) l -> insertByTime x l = x :: l.
Proof.
  intros H. destruct l as [|y l]; simpl; [reflexivity|].
  inversion H as [|? ? Hxy _]; subst.
  apply Qle_bool_iff in Hxy. rewrite Hxy. reflexivity.
Qed.

Lemma filter_insertByTime (p : MusicNote.t -> bool) x l :
  StronglySorted le_time l ->
  List.filter p (insertByTime x l)
  = if p x then insertByTime x (List.filter p l) else List.filter p l.
Proof.
  induction 1 as [|y l Hs IH Hy]; simpl.
  - destruct (p x); reflexivity.
  - destruct (Qle_bool (MusicNote.time x) (MusicNote.time y)) eqn:E.
    + simpl. destruct (p x) eqn:Ex; [|reflexivity].
      symmetry. apply insertByTime_first.
      apply Qle_bool_iff in E.
      assert (Hall : Forall (le_time x) (y :: l)).
      { constructor; [exact E|].
        eapply Forall_impl; [|exact Hy].
        intros z Hz. unfold le_time in *. lra. }
      apply Forall_forall. intros z Hz.
      rewrite Forall_forall in Hall. apply Hall.
      destruct (p y).
      * destruct Hz as [Hz|Hz]; [left; exact Hz|].
        right. apply filter_In in Hz. tauto.
      * right. apply filter_In in Hz. tauto.
    + simpl. rewrite IH.
      destruct (p y) eqn:Ey; destruct (p x) eqn:Ex; simpl;
        rewrite ?E; try reflexivity.
Qed.

Lemma sortByTime_filter (p : MusicNote.t -> bool) l :
  sortByTime (List.filter p l) = List.filter p (sortByTime l).
Proof.
  induction l as [|x l IH]; simpl; [reflexivity|].
  rewrite filter_insertByTime by apply sortByTime_sorted.
  destruct (p x); simpl; rewrite IH; reflexivity.
Qed.

Lemma trackChunk_dropSkipped tempo t :
  trackChunk tempo (setNotes (List.filter pitchInRange (MusicTrack.notes t)) t)
  = trackChunk tempo t.
Proof.
  unfold trackChunk, setNotes.
  cbn [MusicTrack.instrument MusicTrack.name MusicTrack.notes].
  rewrite sortByTime_filter, addNotes_filter. reflexivity.
Qed.

(** C9. The note loop of the encoder emits, for each note of a track in
    turn, the events [noteEvents] lists. Every event has three bytes and
    a pitch in [0, 127]; it is either a note-on (status 0x90 to 0x9F)
    with a velocity in [1, 127], never 0, or a note-off (status 0x80 to
    0x8F) with velocity 0. A note whose pitch is outside [0, 127] emits
    nothing, and removing such notes from the composition changes no
    byte of the encoded file. *)
Theorem note_on_velocity_and_pitch_skip
    (c : MusicComposition.t) (tempo channel : Z)
    (notes : list MusicNote.t) (b : MidiTrackBuilder) :
  fold_left (addNote tempo channel) notes b
  = fold_left (fun b e => addEvent b (fst e) (snd e))
              (flat_map (noteEvents tempo channel) notes) b
  /\ Forall (fun e =>
               exists status pitch vel,
                 snd e = [status; pitch; vel]
                 /\ 0 <= pitch <= 127
                 /\ ((144 <= status <= 159 /\ 1 <= vel <= 127)
                     \/ (128 <= status <= 143 /\ vel = 0)))
            (flat_map (noteEvents tempo channel) notes)
  /\ Forall (fun note =>
               0 <= noteStringToMidi (MusicNote.note note) <= 127
               \/ (noteEvents tempo channel note = []
                   /\ addNote tempo channel b note = b))
            notes
  /\ generate (dropSkipped c) = generate c.
Proof.
  split; [apply addNotes_events|].
  split.
  { apply Forall_forall. intros e He.
    apply in_flat_map in He. destruct He as [note [_ He]].
    unfold noteEvents in He.
    destruct (pitchInRange note) eqn:E; [|contradiction].
    apply pitchInRange_spec in E.
    destruct (status_bytes channel) as [Hon Hoff].
    destruct He as [<- | [<- | []]]; cbn [snd];
      do 3 eexists; (split; [reflexivity|]);
      rewrite pitch_byte by exact E; (split; [exact E|]).
    - left. split; [exact Hon | lia].
    - right. split; [exact Hoff | reflexivity]. }
  split.
  { apply Forall_forall. intros note _.
    destruct (pitchInRange note) eqn:E.
    - left. apply pitchInRange_spec. exact E.
    - right. split.
      + unfold noteEvents. rewrite E. reflexivity.
      + rewrite addNote_events. unfold noteEvents. rewrite E. reflexivity. }
  unfold generate, trackChunks, tempoTrackChunk, dropSkipped, setTracks.
  cbn [MusicComposition.tracks MusicComposition.tempo MusicComposition.title
       MusicComposition.timeSignature MusicComposition.metadata].
  rewrite map_map.
  rewrite (map_ext _ _ (trackChunk_dropSkipped (MusicComposition.tempo c))).
  reflexivity.
Qed.

End EncoderFacts.

(* ------------------------------------------------------------------ *)
(*  Determinism and the wall clock                                     *)
(* ------------------------------------------------------------------ *)
Section ClockFacts.
Import Composer Midi Spec.

(** The encoder reads no time stamp. *)
Lemma generate_setGeneratedAt t c : generate (setGeneratedAt t c) = generate c.
Proof. reflexivity. Qed.

(** The clock reaches the response through [generatedAt] only. *)
Lemma sonify_clock now request :
  exists r,
    sonify [] request = Ok r
    /\ sonify now request
       = Ok (SonifyResponse.mk
               (setGeneratedAt now (SonifyResponse.composition r))
               (SonifyResponse.analysis r)).
Proof.
  unfold sonify.
  destruct (Parser.analyze (SonifyRequest.code request)
                           (SonifyRequest.language request)) as [a|] eqn:E.
  - cbn [bind].
    destruct (Mapper.mapToNotes _ a) as [notes mapper].
    eexists. split; reflexivity.
  - destruct (analyze_ok (SonifyRequest.code request)
                         (SonifyRequest.language request)) as [ss [_ E']].
    congruence.
Qed.

(** C1 as stated fails: the same request served at two instants gives
    two different compositions. *)
Lemma sonify_twice_differs :
  sonify (lit "2026-01-01T00:00:00.000Z") (SonifyRequest.mk [] None None)
  <> sonify (lit "2026-01-01T00:00:00.001Z") (SonifyRequest.mk [] None None).
Proof.
  vm_compute. intros H. discriminate H.
Qed.

(** C1, as the code has it. When two calls of [sonify] on the same
    request return, at whatever readings of the clock, they return the
    same analysis and compositions equal field by field except for
    [metadata.generatedAt], which is the reading of the clock at each
    call; the encoder does not read that field, so what it makes of the
    two compositions is the same. *)
Theorem sonify_deterministic_up_to_clock
    (now1 now2 : jsstring) (request : SonifyRequest.t)
    (r1 r2 : SonifyResponse.t) :
  sonify now1 request = Ok r1 ->
  sonify now2 request = Ok r2 ->
  SonifyResponse.analysis r1 = SonifyResponse.analysis r2
  /\ SonifyResponse.composition r1
     = setGeneratedAt now1 (SonifyResponse.composition r2)
  /\ CompositionMetadata.generatedAt
       (MusicComposition.metadata (SonifyResponse.composition r1)) = now1
  /\ CompositionMetadata.generatedAt
       (MusicComposition.metadata (SonifyResponse.composition r2)) = now2
  /\ generate (SonifyResponse.composition r1)
     = generate (SonifyResponse.composition r2).
Proof.
  intros Hr1 Hr2.
  destruct (sonify_clock now1 request) as [r [E0 E1]].
  destruct (sonify_clock now2 request) as [r' [E0' E2]].
  assert (r' = r) by congruence. subst r'.
  rewrite E1 in Hr1. injection Hr1 as <-.
  rewrite E2 in Hr2. injection Hr2 as <-.
  cbn [SonifyResponse.analysis SonifyResponse.composition].
  repeat split.
Qed.

Lemma sonify_deterministic_up_to_clock_witness :
  let r1 := emptyResponse (lit "2026-01-01T00:00:00.000Z") classical in
  let r2 := emptyResponse (lit "2026-01-01T00:00:00.001Z") classical in
  SonifyResponse.analysis r1 = SonifyResponse.analysis r2
  /\ SonifyResponse.composition r1
     = setGeneratedAt (lit "2026-01-01T00:00:00.000Z")
                      (SonifyResponse.composition r2)
  /\ CompositionMetadata.generatedAt
       (MusicComposition.metadata (SonifyResponse.composition r1))
     = lit "2026-01-01T00:00:00.000Z"
  /\ CompositionMetadata.generatedAt
       (MusicComposition.metadata (SonifyResponse.composition r2))
     = lit "2026-01-01T00:00:00.001Z"
  /\ generate (SonifyResponse.composition r1)
     = generate (SonifyResponse.composition r2).
Proof.
  apply (sonify_deterministic_up_to_clock
           (lit "2026-01-01T00:00:00.000Z") (lit "2026-01-01T00:00:00.001Z")
           emptyRequest).
  - vm_compute. reflexivity.
  - vm_compute. reflexivity.
Defined.

End ClockFacts.

(* ------------------------------------------------------------------ *)
(*  Grouping notes into tracks                                         *)
(* ------------------------------------------------------------------ *)
Section TrackFacts.
Import Composer Spec.

Lemma pushNote_perm trackMap note :
  Permutation (flat_map snd (pushNote trackMap note))
              (note :: flat_map snd trackMap).
Proof.
  induction trackMap as [|[i ns] rest IH]; simpl; [reflexivity|].
  destruct (InstrumentType_eqb i (MusicNote.instrument note)); simpl.
  - rewrite <- app_assoc. simpl. symmetry. apply Permutation_middle.
  - rewrite IH. symmetry. apply Permutation_middle.
Qed.

Lemma groupFrom_perm notes :
  forall trackMap,
    Permutation (flat_map snd (fold_left pushNote notes trackMap))
                (flat_map snd trackMap ++ notes).
Proof.
  induction notes as [|n notes IH]; intros trackMap; simpl.
  - rewrite app_nil_r. reflexivity.
  - rewrite IH, pushNote_perm. simpl. apply Permutation_middle.
Qed.

(** Grouping keeps every note, once. *)
Lemma groupByInstrument_perm notes :
  Permutation (flat_map snd (groupByInstrument notes)) notes.
Proof.
  unfold groupByInstrument. rewrite groupFrom_perm. reflexivity.
Qed.

Lemma pushNote_nonempty trackMap note :
  Forall (fun e : InstrumentType * list MusicNote.t => snd e <> []) trackMap ->
  pushNote trackMap note <> []
  /\ Forall (fun e : InstrumentType * list MusicNote.t => snd e <> [])
            (pushNote trackMap note).
Proof.
  induction 1 as [|[i ns] rest Hns Hrest IH]; simpl.
  - split; [discriminate|]. repeat constructor. discriminate.
  - destruct (InstrumentType_eqb i (MusicNote.instrument note)).
    + split; [discriminate|]. constructor; [|assumption].
      simpl. intros E. apply app_eq_nil in E. destruct E; discriminate.
    + split; [discriminate|]. constructor; [exact Hns | apply IH].
Qed.

Lemma groupFrom_nonempty notes :
  forall trackMap,
    Forall (fun e : InstrumentType * list MusicNote.t => snd e <> []) trackMap ->
    Forall (fun e : InstrumentType * list MusicNote.t => snd e <> [])
           (fold_left pushNote notes trackMap)
    /\ (fold_left pushNote notes trackMap = [] <-> notes = [] /\ trackMap = []).
Proof.
  induction notes as [|n notes IH]; intros trackMap H; simpl.
  - split; [exact H|]. tauto.
  - destruct (pushNote_nonempty trackMap n H) as [Hne Hall].
    destruct (IH _ Hall) as [IH1 IH2].
    split; [exact IH1|]. split.
    + intros E. apply IH2 in E. destruct E as [_ E]. contradiction.
    + intros [E _]. discriminate E.
Qed.

(** No track is empty, and there is a track as soon as there is a note. *)
Lemma groupByInstrument_nonempty notes :
  Forall (fun e : InstrumentType * list MusicNote.t => snd e <> [])
         (groupByInstrument notes)
  /\ (groupByInstrument notes = [] <-> notes = []).
Proof.
  destruct (groupFrom_nonempty notes [] (Forall_nil _)) as [H1 H2].
  split; [exact H1|]. unfold groupByInstrument. rewrite H2. tauto.
Qed.

Lemma organizeTracks_notes notes style :
  flat_map MusicTrack.notes (organizeTracks notes style)
  = flat_map snd (groupByInstrument notes).
Proof.
  unfold organizeTracks.
  induction (groupByInstrument notes) as [|[i ns] g IH]; simpl;
    [reflexivity|].
  rewrite IH. reflexivity.
Qed.

Lemma organizeDiffTracks_notes notes :
  flat_map MusicTrack.notes (Diff.organizeDiffTracks notes)
  = flat_map snd (groupByInstrument notes).
Proof.
  unfold Diff.organizeDiffTracks.
  induction (groupByInstrument notes) as [|[i ns] g IH]; simpl;
    [reflexivity|].
  rewrite IH. reflexivity.
Qed.

End TrackFacts.

(* ------------------------------------------------------------------ *)
(*  The time cursor of the mapper                                      *)
(* ------------------------------------------------------------------ *)
Section CursorFacts.
Import Mapper Spec.

Lemma DURATION_VALUES_nonneg d : (0 <= DURATION_VALUES d)%Q.
Proof. destruct d; discriminate. Qed.

(** Notes placed at the cursor, which then moves forward by [dt]. *)
Lemma stepOk_advance m notes dt :
  (0 <= dt)%Q ->
  Forall (fun n => MusicNote.time n = currentTime m) notes ->
  stepOk m (notes, advance m dt).
Proof.
  intros Hdt Hn. unfold stepOk. cbn [fst snd advance config style
    tempoMultiplier currentTime].
  repeat split; try reflexivity.
  - lra.
  - eapply Forall_impl; [|exact Hn].
    intros n ->. split; lra.
Qed.

(** Notes placed at the cursor, which stays. *)
Lemma stepOk_still m notes :
  Forall (fun n => MusicNote.time n = currentTime m) notes ->
  stepOk m (notes, m).
Proof.
  intros Hn. unfold stepOk. cbn [fst snd].
  repeat split; try reflexivity.
  - apply Qle_refl.
  - eapply Forall_impl; [|exact Hn].
    intros n ->. split; apply Qle_refl.
Qed.

Lemma stepOk_trans m out1 m1 out2 m2 :
  stepOk m (out1, m1) -> stepOk m1 (out2, m2) ->
  stepOk m (out1 ++ out2, m2).
Proof.
  unfold stepOk. cbn [fst snd].
  intros (Hc1 & Hs1 & Ht1 & Hle1 & Hn1) (Hc2 & Hs2 & Ht2 & Hle2 & Hn2).
  repeat split; try congruence.
  - lra.
  - apply Forall_app. split.
    + eapply Forall_impl; [|exact Hn1]. intros n Hn. simpl in Hn. lra.
    + eapply Forall_impl; [|exact Hn2]. intros n Hn. simpl in Hn. lra.
Qed.

(** A loop whose body is a step is a step. *)
Lemma forEach_stepOk {A} (body : MusicMapper -> A -> list MusicNote.t * MusicMapper)
    (xs : list A) :
  (forall m x, (0 <= tempoMultiplier m)%Q -> stepOk m (body m x)) ->
  forall m, (0 <= tempoMultiplier m)%Q -> stepOk m (forEach body xs m).
Proof.
  intros Hbody. induction xs as [|x xs IH]; intros m Hm; simpl.
  - apply stepOk_still. constructor.
  - specialize (Hbody m x Hm).
    destruct (body m x) as [out1 m1].
    assert (Hm1 : (0 <= tempoMultiplier m1)%Q).
    { destruct Hbody as (_ & _ & Ht & _). cbn [snd] in Ht. rewrite Ht.
      exact Hm. }
    specialize (IH m1 Hm1).
    destruct (forEach body xs m1) as [out2 m2].
    eapply stepOk_trans; eassumption.
Qed.

Ltac at_cursor :=
  repeat (constructor
          || (apply Forall_forall; intros ? Hin; apply in_map_iff in Hin;
              destruct Hin as [? [<- _]]; reflexivity)).

Ltac forward_dt :=
  repeat (apply Qmult_le_0_compat);
  try apply DURATION_VALUES_nonneg; try assumption; try discriminate.

(** Every token is a step of the mapper. *)
Lemma mapToken_stepOk m token :
  (0 <= tempoMultiplier m)%Q -> stepOk m (mapToken m token).
Proof.
  intros Hm. unfold mapToken.
  destruct (CodeToken.type token).
  - unfold mapFunction. apply forEach_stepOk; [|exact Hm].
    intros m' i Hm'. apply stepOk_advance; [forward_dt | at_cursor].
  - unfold mapLoop. apply forEach_stepOk; [|exact Hm].
    intros m' r Hm'. apply forEach_stepOk; [|exact Hm'].
    intros m'' d Hm''. apply stepOk_advance; [forward_dt | at_cursor].
  - unfold mapConditional. apply stepOk_advance; [forward_dt | at_cursor].
  - unfold mapVariable. apply stepOk_advance; [forward_dt | at_cursor].
  - unfold mapOperator. apply stepOk_advance; [forward_dt | at_cursor].
  - unfold mapString. apply stepOk_advance; [forward_dt | at_cursor].
  - unfold mapNumber. apply stepOk_advance; [forward_dt | at_cursor].
  - unfold mapComment. apply stepOk_advance; [forward_dt | at_cursor].
  - unfold mapClass. apply stepOk_advance; [forward_dt | at_cursor].
  - unfold mapImport. apply forEach_stepOk; [|exact Hm].
    intros m' i Hm'. apply stepOk_advance; [forward_dt | at_cursor].
  - unfold mapReturn.
    apply (stepOk_trans m [_] (advance m (DURATION_VALUES d8n * tempoMultiplier m))
                        [_] _).
    + apply stepOk_advance; [forward_dt | at_cursor].
    + apply stepOk_advance; [forward_dt | at_cursor].
  - unfold mapError. apply stepOk_advance; [forward_dt | at_cursor].
  - unfold mapBracketOpen. apply stepOk_still. at_cursor.
  - unfold mapBracketClose. apply stepOk_still. at_cursor.
  - unfold mapWhitespace. apply stepOk_advance; [forward_dt | at_cursor].
  - unfold mapDefault. apply stepOk_advance; [forward_dt | at_cursor].
  - unfold mapDefault. apply stepOk_advance; [forward_dt | at_cursor].
  - unfold mapDefault. apply stepOk_advance; [forward_dt | at_cursor].
Qed.

(** On an analysis whose complexity is in [0, 100] the notes start
    between 0 and the final position of the cursor. *)
Lemma mapToNotes_cursor style analysis :
  0 <= CodeMetrics.complexity (CodeAnalysis.metrics analysis) <= 100 ->
  let out := mapToNotes (new style) analysis in
  (0 <= getTotalDuration (snd out))%Q
  /\ Forall (fun n => (0 <= MusicNote.time n <= getTotalDuration (snd out))%Q)
            (fst out).
Proof.
  intros Hc. cbv zeta. unfold mapToNotes, getTotalDuration.
  set (tempo := calculateTempo (new style) _).
  assert (Htempo : 70 <= tempo <= 160).
  { apply calculateTempo_range.
    change 0%Q with (inject_Z 0). change 100%Q with (inject_Z 100).
    rewrite <- !Zle_Qle. exact Hc. }
  set (m0 := mkMapper _ _ 0 _).
  assert (Hm0 : (0 <= tempoMultiplier m0)%Q).
  { unfold m0. cbn [tempoMultiplier].
    apply Qle_shift_div_l.
    - change 0%Q with (inject_Z 0). rewrite <- Zlt_Qlt. lia.
    - rewrite Qmult_0_l. discriminate. }
  pose proof (forEach_stepOk mapToken (CodeAnalysis.tokens analysis)
                mapToken_stepOk m0 Hm0) as H.
  destruct H as (_ & _ & _ & Hle & Hn).
  split; [exact Hle|exact Hn].
Qed.

End CursorFacts.

(* ------------------------------------------------------------------ *)
(*  Duration and tracks of the compositions                            *)
(* ------------------------------------------------------------------ *)
Section CompositionFacts.
Import Composer Diff Midi Spec.

Lemma splitLines_nonempty s : splitLines s <> [].
Proof.
  destruct s as [|c s]; simpl; [discriminate|].
  destruct (c =? 10); [discriminate|].
  destruct (splitLines s); discriminate.
Qed.

Lemma range_positive n : 1 <= n -> exists k, range n = 0 :: k.
Proof.
  intros H. unfold range.
  destruct (Z.to_nat n) as [|k] eqn:E; [lia|].
  simpl. eauto.
Qed.

Lemma forEach_first_nonempty {A B S} (body : S -> A -> list B * S) x xs s :
  fst (body s x) <> [] -> fst (forEach body (x :: xs) s) <> [].
Proof.
  simpl. destruct (body s x) as [out1 s1].
  destruct (forEach body xs s1) as [out2 s2]. simpl.
  intros H E. apply app_eq_nil in E. tauto.
Qed.

(** Every line of a diff gives at least one note. *)
Lemma mapDiffLine_nonempty key tempoMultiplier currentTime line :
  fst (mapDiffLine key tempoMultiplier currentTime line) <> [].
Proof.
  unfold mapDiffLine. destruct (DiffLine.type line).
  - set (n := Z.min 5 _).
    destruct (range_positive n) as [k Hk]; [unfold n; lia|].
    rewrite Hk.
    match goal with
    | |- context [forEach ?body (0 :: k) ?s] =>
        pose proof (forEach_first_nonempty body 0 k s) as H;
        destruct (forEach body (0 :: k) s) as [phrase t]
    end.
    cbn [fst] in *. intros E. apply app_eq_nil in E.
    apply H; [discriminate | tauto].
  - match goal with
    | |- context [forEach ?body ?xs ?s] =>
        destruct (forEach body xs s) as [phrase t]
    end.
    cbn [fst]. intros E. apply app_eq_nil in E. destruct E; discriminate.
  - discriminate.
  - discriminate.
Qed.

Lemma mapDiffToNotes_nonempty diffText key scale tempo :
  mapDiffToNotes (parseDiff diffText) key scale tempo <> [].
Proof.
  unfold mapDiffToNotes, parseDiff.
  pose proof (splitLines_nonempty diffText) as H.
  destruct (splitLines diffText) as [|l ls]; [contradiction|].
  cbn [parseLines]. apply forEach_first_nonempty.
  apply mapDiffLine_nonempty.
Qed.

Lemma Qmax_cases a b : Qmax a b = a \/ Qmax a b = b.
Proof.
  unfold Qmax, GenericMinMax.gmax. destruct (a ?= b)%Q; auto.
Qed.

(** [maxOf] is one of the numbers and none is greater. *)
Lemma maxOf_spec xs :
  forall x,
    In (maxOf x xs) (x :: xs)
    /\ Forall (fun y => (y <= maxOf x xs)%Q) (x :: xs).
Proof.
  unfold maxOf. induction xs as [|y xs IH]; intros x; simpl.
  - split; [auto|]. repeat constructor. apply Qle_refl.
  - destruct (IH (Qmax x y)) as [Hin Hall].
    inversion Hall as [|? ? Hm Hrest]; subst.
    split.
    + destruct Hin as [Hin|Hin]; [|auto].
      rewrite <- Hin.
      destruct (Qmax_cases x y) as [E|E]; rewrite E; auto.
    + constructor; [|constructor; [|exact Hrest]].
      * eapply Qle_trans; [apply Q.le_max_l | exact Hm].
      * eapply Qle_trans; [apply Q.le_max_r | exact Hm].
Qed.

(** What [sonifyDiff] puts in the composition. *)
Lemma sonifyDiff_composition now diffText style :
  exists n ns,
    MusicComposition.tracks
      (SonifyDiffResult.composition (sonifyDiff now diffText style))
    = organizeDiffTracks (n :: ns)
    /\ MusicComposition.duration
         (SonifyDiffResult.composition (sonifyDiff now diffText style))
       = (maxOf (MusicNote.time n) (map MusicNote.time ns) + 1)%Q.
Proof.
  unfold sonifyDiff.
  cbn [SonifyDiffResult.composition MusicComposition.tracks
       MusicComposition.duration].
  match goal with
  | |- context [mapDiffToNotes ?l ?k ?s ?t] =>
      pose proof (mapDiffToNotes_nonempty diffText k s t) as H;
      destruct (mapDiffToNotes l k s t) as [|n ns]
  end; [contradiction|].
  exists n, ns. split; reflexivity.
Qed.

(** What [sonify] puts in the composition. *)
Lemma sonify_composition now request :
  exists r,
    sonify now request = Ok r
    /\ 0 <= CodeMetrics.complexity
              (CodeAnalysis.metrics (SonifyResponse.analysis r)) <= 100
    /\ MusicComposition.tracks (SonifyResponse.composition r)
       = organizeTracks
           (fst (Mapper.mapToNotes (Mapper.new (styleOf request))
                                   (SonifyResponse.analysis r)))
           (styleOf request)
    /\ MusicComposition.duration (SonifyResponse.composition r)
       = Mapper.getTotalDuration
           (snd (Mapper.mapToNotes (Mapper.new (styleOf request))
                                   (SonifyResponse.analysis r))).
Proof.
  unfold sonify. fold (styleOf request).
  destruct (analyze_ok (SonifyRequest.code request)
                       (SonifyRequest.language request)) as [ss [_ E]].
  rewrite E. cbn [bind].
  match goal with
  | |- context [Mapper.mapToNotes ?m ?a] =>
      destruct (Mapper.mapToNotes m a) as [notes mapper] eqn:Em
  end.
  eexists. split; [reflexivity|].
  cbn [SonifyResponse.analysis SonifyResponse.composition
       CodeAnalysis.metrics MusicComposition.tracks
       MusicComposition.duration buildComposition].
  split; [apply tokenize_complexity_range|].
  rewrite Em. split; reflexivity.
Qed.

(** C3 as stated fails on the code path: the composition of the empty
    text has no note and lasts 9/70 s, not the fallback of 5 s. *)
Lemma sonify_empty_duration :
  exists r,
    sonify [] emptyRequest = Ok r
    /\ allNotes (SonifyResponse.composition r) = []
    /\ (MusicComposition.duration (SonifyResponse.composition r) == 9 # 70)%Q
    /\ ~ (MusicComposition.duration (SonifyResponse.composition r) == 5)%Q.
Proof.
  eexists. split; [reflexivity|].
  split; [reflexivity|]. split; [reflexivity|].
  intros H. discriminate H.
Qed.

(** C3, as the code has it. On the diff path the composition always has
    notes and its duration is the largest start time of a note plus 1
    (the fallback of 5 s is never taken). On the code path the duration
    is the position of the mapper's time cursor after the last token
    ([getTotalDuration]): it is not negative and no note starts after
    it. *)
Theorem duration_of_compositions
    (now : jsstring) (request : SonifyRequest.t) (diffText : jsstring)
    (style : MusicStyle) :
  (let c := SonifyDiffResult.composition (sonifyDiff now diffText style) in
   exists n,
     In n (allNotes c)
     /\ MusicComposition.duration c = (MusicNote.time n + 1)%Q
     /\ Forall (fun n' => (MusicNote.time n' <= MusicNote.time n)%Q)
               (allNotes c))
  /\ (exists r,
        sonify now request = Ok r
        /\ let c := SonifyResponse.composition r in
           let mapped :=
             Mapper.mapToNotes (Mapper.new (styleOf request))
                               (SonifyResponse.analysis r) in
           MusicComposition.duration c = Mapper.getTotalDuration (snd mapped)
           /\ Permutation (allNotes c) (fst mapped)
           /\ (0 <= MusicComposition.duration c)%Q
           /\ Forall (fun n => (0 <= MusicNote.time n
                                <= MusicComposition.duration c)%Q)
                     (allNotes c)).
Proof.
  split.
  - cbv zeta.
    destruct (sonifyDiff_composition now diffText style)
      as (n & ns & Htracks & Hdur).
    unfold allNotes. rewrite Htracks, Hdur, organizeDiffTracks_notes.
    destruct (maxOf_spec (map MusicNote.time ns) (MusicNote.time n))
      as [Hin Hall].
    change (MusicNote.time n :: map MusicNote.time ns)
      with (map MusicNote.time (n :: ns)) in Hin, Hall.
    apply in_map_iff in Hin. destruct Hin as [n0 [E Hn0]].
    pose proof (groupByInstrument_perm (n :: ns)) as Hperm.
    exists n0. split; [|split].
    + eapply Permutation_in; [apply Permutation_sym; exact Hperm | exact Hn0].
    + rewrite E. reflexivity.
    + eapply Permutation_Forall; [apply Permutation_sym; exact Hperm|].
      rewrite Forall_map in Hall. rewrite E. exact Hall.
  - destruct (sonify_composition now request)
      as (r & Hr & Hc & Htracks & Hdur).
    exists r. split; [exact Hr|]. cbv zeta.
    pose proof (mapToNotes_cursor (styleOf request)
                  (SonifyResponse.analysis r) Hc) as Hcur.
    cbv zeta in Hcur. destruct Hcur as [H0 Hn].
    assert (Hperm : Permutation
                      (allNotes (SonifyResponse.composition r))
                      (fst (Mapper.mapToNotes (Mapper.new (styleOf request))
                                              (SonifyResponse.analysis r)))).
    { unfold allNotes. rewrite Htracks, organizeTracks_notes.
      apply groupByInstrument_perm. }
    split; [exact Hdur|]. split; [exact Hperm|].
    rewrite Hdur. split; [exact H0|].
    eapply Permutation_Forall; [apply Permutation_sym; exact Hperm | exact Hn].
Qed.

(** C4 as stated fails: the composition of the empty text has no
    track. *)
Lemma sonify_empty_no_track :
  exists r,
    sonify [] emptyRequest = Ok r
    /\ MusicComposition.tracks (SonifyResponse.composition r) = [].
Proof.
  eexists. split; reflexivity.
Qed.

(** C4, as the code has it. A composition has one track per instrument
    that received a note, none of them empty: on the code path it has no
    track exactly when the mapper produced no note; on the diff path it
    always has one. The tempo and metadata track is not part of the
    composition: the encoder puts it in front of the tracks of any
    composition, so the file always has at least one track chunk. *)
Theorem tracks_of_compositions
    (now : jsstring) (request : SonifyRequest.t) (diffText : jsstring)
    (style : MusicStyle) (c : MusicComposition.t) :
  (exists r,
     sonify now request = Ok r
     /\ Forall (fun t => MusicTrack.notes t <> [])
               (MusicComposition.tracks (SonifyResponse.composition r))
     /\ (MusicComposition.tracks (SonifyResponse.composition r) = []
         <-> fst (Mapper.mapToNotes (Mapper.new (styleOf request))
                                    (SonifyResponse.analysis r)) = []))
  /\ (let d := SonifyDiffResult.composition (sonifyDiff now diffText style) in
      MusicComposition.tracks d <> []
      /\ Forall (fun t => MusicTrack.notes t <> []) (MusicComposition.tracks d))
  /\ List.length (trackChunks c)
     = S (List.length (MusicComposition.tracks c))
  /\ hd_error (trackChunks c) = Some (tempoTrackChunk c)
  /\ firstn 4 (tempoTrackChunk c) = TRACK_CHUNK
  /\ firstn 14 (generate c)
     = [77; 84; 104; 100; 0; 0; 0; 6; 0; 1]
       ++ Buffer_from
            (int16ToBytes (1 + Z.of_nat (List.length (MusicComposition.tracks c))))
       ++ [1; 224].
Proof.
  split; [|split].
  - destruct (sonify_composition now request)
      as (r & Hr & _ & Htracks & _).
    exists r. split; [exact Hr|]. rewrite Htracks. unfold organizeTracks.
    destruct (groupByInstrument_nonempty
                (fst (Mapper.mapToNotes (Mapper.new (styleOf request))
                                        (SonifyResponse.analysis r))))
      as [Hall Hnil].
    split.
    + apply Forall_map. eapply Forall_impl; [|exact Hall].
      intros [i ns] H. exact H.
    + rewrite <- Hnil. split.
      * apply map_eq_nil.
      * intros ->. reflexivity.
  - cbv zeta.
    destruct (sonifyDiff_composition now diffText style)
      as (n & ns & Htracks & _).
    rewrite Htracks. unfold organizeDiffTracks.
    destruct (groupByInstrument_nonempty (n :: ns)) as [Hall Hnil].
    split.
    + intros E. apply map_eq_nil in E. apply Hnil in E. discriminate E.
    + apply Forall_map. eapply Forall_impl; [|exact Hall].
      intros [i ns'] H. exact H.
  - split; [unfold trackChunks; simpl; rewrite length_map; reflexivity|].
    split; [reflexivity|]. split; [reflexivity|].
    unfold generate, trackChunks. cbn [List.length].
    rewrite length_map.
    replace (Z.of_nat (S (List.length (MusicComposition.tracks c))))
      with (1 + Z.of_nat (List.length (MusicComposition.tracks c))) by lia.
    reflexivity.
Qed.

End CompositionFacts.

(* ------------------------------------------------------------------ *)
(*  The embedding at work on small inputs                              *)
(* ------------------------------------------------------------------ *)
Section Examples.
Import Parser Spec.

Example tokenize_add :
  map CodeToken.type
      (tokenize [] (splitLines (lit "function add(a, b) { return a + b; }")))
  = [t_function; t_function; t_bracket_open; t_unknown; t_unknown;
     t_unknown; t_bracket_close; t_bracket_open; t_return; t_unknown;
     t_operator; t_unknown; t_unknown; t_bracket_close].
Proof. reflexivity. Qed.

Example tokenize_depth :
  map CodeToken.depth
      (tokenize [] (splitLines (lit "}}" ++ [10] ++ lit "f(" ++ [10] ++ lit "x")))
  = [0; 0; 0; 0; 1].
Proof. reflexivity. Qed.

Example classify_constructor :
  classify (lit "constructor() {") (lit "constructor") = t_inherited.
Proof. reflexivity. Qed.

Example detectLanguage_examples :
  detectLanguage (lit "const x = require('fs');") = javascript
  /\ detectLanguage (lit "fn main() { let mut x = 1; }") = rust
  /\ detectLanguage (lit "x") = unknown.
Proof. repeat split; reflexivity. Qed.

Example simpleHash_example :
  Composer.simpleHash (lit "hello world") = lit "6aefe2c4".
Proof. reflexivity. Qed.

Example noteStringToMidi_examples :
  map Midi.noteStringToMidi
      [lit "C4"; lit "A#0"; lit "G9"; lit "G#9"; lit "C10"; lit "E#4"; lit "x"]
  = [60; 22; 127; 128; 132; 60; 60].
Proof. reflexivity. Qed.

(** A quarter note lasts 480 ticks, written [0x83, 0x60]. *)
Example encodeVLQ_quarter : Midi.encodeVLQ 480 = [131; 96].
Proof. reflexivity. Qed.

(** The chunk of the sample track: name, program change, then the early
    note (on at tick 0, off 240 ticks later) and the late one (on 720
    ticks later, off after 480), then the end of track. *)
Example trackChunk_sample :
  Midi.trackChunk 120 sampleTrack
  = [77; 84; 114; 107; 0; 0; 0; 36;
     0; 255; 3; 6; 77; 101; 108; 111; 100; 121;
     0; 192; 0;
     0; 144; 60; 64;  129; 112; 128; 60; 0;
     133; 80; 144; 64; 102;  131; 96; 128; 64; 0;
     0; 255; 47; 0].
Proof. reflexivity. Qed.

End Examples.

(* ================================================================== *)
(*  Further properties of the code                                     *)
(* ================================================================== *)

(* ------------------------------------------------------------------ *)
(*  Tokens: depth, lines, counts                                       *)
(* ------------------------------------------------------------------ *)
Section TokenFacts.
Import Parser.

Lemma tokenizeWords_line_depth line lineIdx d words :
  forall col,
    Forall (fun t => CodeToken.line t = lineIdx + 1 /\ CodeToken.depth t = d)
           (tokenizeWords line lineIdx d words col).
Proof.
  induction words as [|w ws IH]; intros col; simpl; [constructor|].
  destruct (trim w); [apply IH|].
  constructor; [split; reflexivity | apply IH].
Qed.

(** The tokens of a line carry its number and the depth reached before
    it; the depth after it is not negative. *)
Lemma tokenizeLine_line_depth line lineIdx d :
  Forall (fun t => CodeToken.line t = lineIdx + 1 /\ CodeToken.depth t = d)
         (fst (tokenizeLine line lineIdx d))
  /\ (0 <= d -> 0 <= snd (tokenizeLine line lineIdx d)).
Proof.
  unfold tokenizeLine.
  destruct (len (trim line) =? 0); [|destruct (isComment (trim line))];
    cbn [fst snd].
  - split; [repeat constructor | tauto].
  - split; [repeat constructor | tauto].
  - split; [apply tokenizeWords_line_depth|].
    intros _. destruct (_ <? 0) eqn:E; [lia|]. apply Z.ltb_ge in E. exact E.
Qed.

Lemma tokenizeFrom_invariant lines :
  forall lineIdx d,
    0 <= d ->
    let tokens := tokenizeFrom lines lineIdx d in
    Forall (fun t => lineIdx + 1 <= CodeToken.line t
                     <= lineIdx + Z.of_nat (List.length lines)
                     /\ 0 <= CodeToken.depth t) tokens
    /\ StronglySorted (fun a b => CodeToken.line a <= CodeToken.line b) tokens
    /\ (forall t1 t2, In t1 tokens -> In t2 tokens ->
        CodeToken.line t1 = CodeToken.line t2 ->
        CodeToken.depth t1 = CodeToken.depth t2).
Proof.
  induction lines as [|line rest IH]; intros lineIdx d Hd; cbv zeta.
  - simpl. repeat split; try constructor. intros t1 t2 [].
  - cbn [tokenizeFrom].
    pose proof (tokenizeLine_line_depth line lineIdx d) as [Hline Hnext].
    destruct (tokenizeLine line lineIdx d) as [toks d']. cbn [fst snd] in *.
    specialize (IH (lineIdx + 1) d' (Hnext Hd)). cbv zeta in IH.
    destruct IH as (Hrange & Hsorted & Hsame).
    rewrite Forall_forall in Hline, Hrange.
    assert (Hlen : Z.of_nat (List.length (line :: rest))
                   = 1 + Z.of_nat (List.length rest))
      by (simpl List.length; lia).
    rewrite Hlen. repeat split.
    + apply Forall_app. split; apply Forall_forall; intros t Ht.
      * destruct (Hline t Ht) as [-> ->]. lia.
      * specialize (Hrange t Ht). lia.
    + clear Hsame. induction toks as [|t toks IHt]; simpl; [exact Hsorted|].
      constructor.
      * apply IHt. intros x Hx. apply Hline. right. exact Hx.
      * apply Forall_app. split; apply Forall_forall; intros x Hx.
        -- destruct (Hline t (or_introl eq_refl)) as [-> _].
           destruct (Hline x (or_intror Hx)) as [-> _]. lia.
        -- destruct (Hline t (or_introl eq_refl)) as [-> _].
           specialize (Hrange x Hx). lia.
    + intros t1 t2 H1 H2 E.
      apply in_app_or in H1. apply in_app_or in H2.
      destruct H1 as [H1|H1], H2 as [H2|H2].
      * destruct (Hline t1 H1) as [_ ->]. destruct (Hline t2 H2) as [_ ->].
        reflexivity.
      * destruct (Hline t1 H1) as [E1 _]. specialize (Hrange t2 H2). lia.
      * destruct (Hline t2 H2) as [E2 _]. specialize (Hrange t1 H1). lia.
      * apply Hsame; assumption.
Qed.

(** X1. The tokens of any text: no depth is negative, every line number
    lies between 1 and the number of lines, the tokens come in the order
    of the lines, and the tokens of one line share one depth. *)
Theorem tokens_depth_and_lines (code : jsstring) :
  let lines := splitLines code in
  let tokens := tokenize code lines in
  Forall (fun t => 0 <= CodeToken.depth t
                   /\ 1 <= CodeToken.line t <= Z.of_nat (List.length lines))
         tokens
  /\ StronglySorted (fun a b => CodeToken.line a <= CodeToken.line b) tokens
  /\ (forall t1 t2, In t1 tokens -> In t2 tokens ->
      CodeToken.line t1 = CodeToken.line t2 ->
      CodeToken.depth t1 = CodeToken.depth t2).
Proof.
  cbv zeta. unfold tokenize.
  pose proof (tokenizeFrom_invariant (splitLines code) 0 0 (Z.le_refl 0)) as H.
  cbv zeta in H. destruct H as (Hrange & Hsorted & Hsame).
  split; [|split; assumption].
  eapply Forall_impl; [|exact Hrange].
  intros t Ht. simpl in Ht. lia.
Qed.

End TokenFacts.

(* ------------------------------------------------------------------ *)
(*  Tokens: words of a line, kinds of lines                            *)
(* ------------------------------------------------------------------ *)
Section WordFacts.
Import Parser.

Lemma trimStart_head s c r : trimStart s = c :: r -> isWhiteSpace c = false.
Proof.
  induction s as [|x s IH]; simpl; [discriminate|].
  destruct (isWhiteSpace x) eqn:E; [exact IH|].
  intros H. injection H as <- _. exact E.
Qed.

Lemma trim_has_char s :
  trim s <> [] -> exists c, In c (trim s) /\ isWhiteSpace c = false.
Proof.
  unfold trim, trimEnd. intros H.
  destruct (trimStart (rev (trimStart s))) as [|c r] eqn:E;
    [contradiction H; reflexivity|].
  exists c. split.
  - apply in_rev. rewrite rev_involutive. left. reflexivity.
  - eapply trimStart_head. exact E.
Qed.

Lemma trimStart_id w :
  (forall c r, w = c :: r -> isWhiteSpace c = false) -> trimStart w = w.
Proof.
  intros H. destruct w as [|c r]; [reflexivity|].
  simpl. rewrite (H c r eq_refl). reflexivity.
Qed.

(** A word without white space is its own [trim]. *)
Lemma trim_id w :
  Forall (fun c => isWhiteSpace c = false) w -> trim w = w.
Proof.
  intros H. unfold trim, trimEnd.
  rewrite (trimStart_id w).
  - rewrite (trimStart_id (rev w)); [apply rev_involutive|].
    intros c r E. rewrite Forall_forall in H. apply H.
    apply in_rev. rewrite E. left. reflexivity.
  - intros c r ->. inversion H. assumption.
Qed.

(** The words of a line are not empty and hold no white space. *)
Lemma splitWords_words s :
  forall cur,
    Forall (fun c => isWhiteSpace c = false) cur ->
    Forall (fun w => w <> [] /\ Forall (fun c => isWhiteSpace c = false) w)
           (splitWords s cur).
Proof.
  assert (Hflush : forall cur k,
             Forall (fun c => isWhiteSpace c = false) cur ->
             Forall (fun w => w <> []
                              /\ Forall (fun c => isWhiteSpace c = false) w) k ->
             Forall (fun w => w <> []
                              /\ Forall (fun c => isWhiteSpace c = false) w)
                    (flush cur k)).
  { intros cur k Hcur Hk. destruct cur as [|c cur]; [exact Hk|].
    cbn [flush]. constructor; [|exact Hk]. split.
    - intros E. apply (f_equal (@List.length Z)) in E.
      rewrite length_rev in E. discriminate E.
    - apply Forall_rev. exact Hcur. }
  induction s as [|c s IH]; intros cur Hcur; simpl.
  - apply Hflush; [exact Hcur | constructor].
  - destruct (isWhiteSpace c) eqn:Ews.
    + apply Hflush; [exact Hcur | apply IH; constructor].
    + destruct (isSeparator c).
      * apply Hflush; [exact Hcur|]. constructor.
        -- split; [discriminate | repeat constructor; exact Ews].
        -- apply IH. constructor.
      * apply IH. constructor; assumption.
Qed.

Lemma splitWords_nonempty s :
  forall cur,
    cur <> [] \/ (exists c, In c s /\ isWhiteSpace c = false) ->
    splitWords s cur <> [].
Proof.
  induction s as [|c s IH]; intros cur H; simpl.
  - destruct H as [H|[c [[] _]]]. destruct cur; [contradiction|discriminate].
  - destruct (isWhiteSpace c) eqn:Ews.
    + destruct cur as [|x cur]; [|discriminate].
      cbn [flush]. apply IH. right.
      destruct H as [H|[c' [[->|Hin] Hc']]]; [contradiction|congruence|eauto].
    + destruct (isSeparator c).
      * destruct cur; discriminate.
      * apply IH. left. discriminate.
Qed.

(** One token per word, holding the word. *)
Lemma tokenizeWords_values line lineIdx d words :
  Forall (fun w => w <> [] /\ Forall (fun c => isWhiteSpace c = false) w) words ->
  forall col,
    map CodeToken.value (tokenizeWords line lineIdx d words col) = words
    /\ Forall (fun t => CodeToken.type t
                        = classify line (CodeToken.value t))
              (tokenizeWords line lineIdx d words col).
Proof.
  induction 1 as [|w ws [Hne Hws] _ IH]; intros col; simpl.
  - split; [reflexivity|constructor].
  - rewrite (trim_id w Hws).
    destruct w as [|c w]; [contradiction|].
    destruct (IH (col + len (c :: w) + 1)) as [IH1 IH2].
    cbn [map CodeToken.value]. rewrite IH1.
    split; [reflexivity|]. constructor; [reflexivity | exact IH2].
Qed.

Lemma keywords_not_whitespace :
  forall w ty, lookupKeyword w = Some ty -> ty <> t_whitespace.
Proof.
  intros w ty. unfold lookupKeyword.
  destruct (find _ LANGUAGE_KEYWORDS) as [kv|] eqn:E.
  - apply find_some in E. destruct E as [Hin _].
    intros H. injection H as <-.
    assert (Hall : forallb (fun kv : string * TokenType =>
                              negb (TokenType_eqb (snd kv) t_whitespace))
                           LANGUAGE_KEYWORDS = true) by reflexivity.
    rewrite forallb_forall in Hall. specialize (Hall kv Hin).
    intros Hc. rewrite Hc in Hall. discriminate Hall.
  - destruct (existsb _ _); intros H; [injection H as <-|]; discriminate.
Qed.

Lemma classify_not_whitespace line w : classify line w <> t_whitespace.
Proof.
  unfold classify.
  repeat match goal with
         | |- (if ?c then _ else _) <> _ => destruct c; [discriminate|]
         end.
  destruct (lookupKeyword w) as [ty|] eqn:E.
  - eapply keywords_not_whitespace; eassumption.
  - destruct (_ && _); discriminate.
Qed.

(** The three kinds of lines and what each gives: an empty line one
    [whitespace] token, a comment line one [comment] token, a code line
    one token per word, at least one, none of these two types. *)
Lemma tokenizeLine_kinds line lineIdx d :
  let toks := fst (tokenizeLine line lineIdx d) in
  toks <> []
  /\ countType t_whitespace toks = (if len (trim line) =? 0 then 1 else 0)
  /\ countType t_comment toks
     = (if negb (len (trim line) =? 0) && isComment (trim line) then 1 else 0)
  /\ Forall (fun t =>
               match CodeToken.type t with
               | t_whitespace => CodeToken.value t = []
               | t_comment => CodeToken.value t <> []
               | _ => CodeToken.value t <> []
                      /\ Forall (fun c => isWhiteSpace c = false)
                                (CodeToken.value t)
               end) toks.
Proof.
  cbv zeta. unfold tokenizeLine.
  destruct (len (trim line) =? 0) eqn:Elen;
    [|destruct (isComment (trim line)) eqn:Ecom]; cbn [fst negb andb].
  - repeat split; try discriminate. repeat constructor.
  - repeat split; try discriminate. repeat constructor.
    cbn [CodeToken.type CodeToken.value].
    intros E. rewrite E in Elen. discriminate Elen.
  - assert (Hne : trim line <> []).
    { intros E. rewrite E in Elen. discriminate Elen. }
    pose proof (splitWords_words (trim line) [] (Forall_nil _)) as Hwords.
    pose proof (splitWords_nonempty (trim line) []
                  (or_intror (trim_has_char line Hne))) as Hsome.
    destruct (tokenizeWords_values line lineIdx d _ Hwords
                (len line - len (trimStart line))) as [Hval Hty].
    set (toks := tokenizeWords _ _ _ _ _) in *.
    assert (Hkinds : Forall (fun t =>
                CodeToken.type t <> t_whitespace
                /\ CodeToken.type t <> t_comment
                /\ CodeToken.value t <> []
                /\ Forall (fun c => isWhiteSpace c = false) (CodeToken.value t))
              toks).
    { apply Forall_forall. intros t Ht.
      rewrite Forall_forall in Hty, Hwords.
      rewrite (Hty t Ht).
      split; [apply classify_not_whitespace|].
      split; [apply classify_not_comment|].
      apply Hwords. rewrite <- Hval. apply in_map. exact Ht. }
    split; [|split; [|split]].
    + intros E. apply Hsome. rewrite <- Hval, E. reflexivity.
    + unfold countType, count. clear - Hkinds.
      induction Hkinds as [|t ts (Hw & _) _ IH]; [reflexivity|].
      simpl. destruct (CodeToken.type t); try exact IH. contradiction.
    + unfold countType, count. clear - Hkinds.
      induction Hkinds as [|t ts (_ & Hc & _) _ IH]; [reflexivity|].
      simpl. destruct (CodeToken.type t); try exact IH. contradiction.
    + eapply Forall_impl; [|exact Hkinds].
      intros t (Hw & Hc & Hv). destruct (CodeToken.type t); tauto.
Qed.

Lemma tokenizeFrom_kinds lines :
  forall lineIdx d,
    let tokens := tokenizeFrom lines lineIdx d in
    (List.length lines <= List.length tokens)%nat
    /\ countType t_whitespace tokens
       = count (fun l => len (trim l) =? 0) lines
    /\ countType t_comment tokens
       = count (fun l => negb (len (trim l) =? 0) && isComment (trim l)) lines
    /\ Forall (fun t =>
                 match CodeToken.type t with
                 | t_whitespace => CodeToken.value t = []
                 | t_comment => CodeToken.value t <> []
                 | _ => CodeToken.value t <> []
                        /\ Forall (fun c => isWhiteSpace c = false)
                                  (CodeToken.value t)
                 end) tokens.
Proof.
  induction lines as [|line rest IH]; intros lineIdx d; cbv zeta.
  - simpl. repeat split; constructor.
  - cbn [tokenizeFrom].
    pose proof (tokenizeLine_kinds line lineIdx d) as H. cbv zeta in H.
    destruct (tokenizeLine line lineIdx d) as [toks d']. cbn [fst] in H.
    destruct H as (Hne & Hws & Hcom & Hval).
    specialize (IH (lineIdx + 1) d'). cbv zeta in IH.
    destruct IH as (IHlen & IHws & IHcom & IHval).
    unfold countType in *. rewrite !count_app, Hws, Hcom, IHws, IHcom.
    split; [|split; [|split]].
    + rewrite length_app. destruct toks; [contradiction|].
      simpl List.length. lia.
    + unfold count. simpl. destruct (len (trim line) =? 0);
        simpl List.length; lia.
    + unfold count. simpl.
      destruct (negb (len (trim line) =? 0) && isComment (trim line));
        simpl List.length; lia.
    + apply Forall_app. split; [exact Hval | exact IHval].
Qed.

Lemma tokenizeFrom_every_line lines :
  forall lineIdx d i,
    lineIdx + 1 <= i <= lineIdx + Z.of_nat (List.length lines) ->
    exists t, In t (tokenizeFrom lines lineIdx d) /\ CodeToken.line t = i.
Proof.
  induction lines as [|line rest IH]; intros lineIdx d i Hi.
  - simpl in Hi. lia.
  - cbn [tokenizeFrom].
    pose proof (tokenizeLine_kinds line lineIdx d) as K. cbv zeta in K.
    destruct K as (Hne & _).
    pose proof (tokenizeLine_line_depth line lineIdx d) as [Hline _].
    destruct (tokenizeLine line lineIdx d) as [toks d']. cbn [fst snd] in *.
    destruct (Z.eq_dec i (lineIdx + 1)) as [->|Hneq].
    + destruct toks as [|t toks]; [contradiction|].
      exists t. split; [left; reflexivity|].
      inversion Hline as [|? ? [Ht _] _]; subst. exact Ht.
    + destruct (IH (lineIdx + 1) d' i) as (t & Hin & Ht).
      { cbn [List.length] in Hi. lia. }
      exists t. split; [apply in_or_app; right; exact Hin | exact Ht].
Qed.

(** X2. Every line of a text gives at least one token: for each line
    number from 1 to the number of lines some token carries it, so there
    are at least as many tokens as lines, and a text has at least one
    line. A [whitespace] token has the empty value and a [comment] token
    a value that is not empty; every other token has a value that is not
    empty and holds no white space. *)
Theorem tokens_cover_lines (code : jsstring) :
  let lines := splitLines code in
  let tokens := tokenize code lines in
  (1 <= List.length lines <= List.length tokens)%nat
  /\ Forall (fun t =>
               match CodeToken.type t with
               | t_whitespace => CodeToken.value t = []
               | t_comment => CodeToken.value t <> []
               | _ => CodeToken.value t <> []
                      /\ Forall (fun c => isWhiteSpace c = false)
                                (CodeToken.value t)
               end) tokens
  /\ (forall i, 1 <= i <= Z.of_nat (List.length lines) ->
                exists t, In t tokens /\ CodeToken.line t = i).
Proof.
  cbv zeta. unfold tokenize.
  pose proof (tokenizeFrom_kinds (splitLines code) 0 0) as H. cbv zeta in H.
  destruct H as (Hlen & _ & _ & Hval).
  split; [|split; [exact Hval|]].
  - split; [|exact Hlen].
    destruct (splitLines code) eqn:E; [|simpl; lia].
    destruct code as [|c code]; simpl in E; [discriminate|].
    destruct (c =? 10); [discriminate|].
    destruct (splitLines code); discriminate.
  - intros i Hi. apply tokenizeFrom_every_line. lia.
Qed.

Lemma tokens_cover_lines_witness :
  exists t,
    In t (tokenize Spec.sampleText (splitLines Spec.sampleText))
    /\ CodeToken.line t = 3.
Proof.
  refine (proj2 (proj2 (tokens_cover_lines Spec.sampleText)) 3 _).
  vm_compute. split; discriminate.
Defined.

Lemma count_three {A} (p q r : A -> bool) (l : list A) :
  (forall x, (if p x then 1 else 0) + (if q x then 1 else 0)
             + (if r x then 1 else 0) = 1) ->
  count p l + count q l + count r l = Z.of_nat (List.length l).
Proof.
  intros H. unfold count. induction l as [|x l IH]; [reflexivity|].
  specialize (H x). simpl.
  destruct (p x), (q x), (r x); simpl List.length; lia.
Qed.

(** X3. The line metrics of an analysis [analyze] returns classify the
    lines of the text: [emptyLines] counts the blank lines, and is the
    number of [whitespace] tokens; [commentLines] counts the lines that
    are not blank and start with a comment marker; [codeLines] counts
    the other lines; the three add up to [totalLines], which is at
    least 1. *)
Theorem metrics_line_kinds
    (code : jsstring) (language : option CodeLanguage) (a : CodeAnalysis.t) :
  analyze code language = Ok a ->
  let m := CodeAnalysis.metrics a in
  let lines := splitLines code in
  let blank := fun l => len (trim l) =? 0 in
  let comment := fun l => negb (len (trim l) =? 0) && isComment (trim l) in
  let other := fun l => negb (len (trim l) =? 0) && negb (isComment (trim l)) in
  CodeMetrics.emptyLines m = count blank lines
  /\ CodeMetrics.emptyLines m
     = countType t_whitespace (CodeAnalysis.tokens a)
  /\ CodeMetrics.commentLines m = count comment lines
  /\ CodeMetrics.codeLines m = count other lines
  /\ CodeMetrics.totalLines m
     = CodeMetrics.emptyLines m + CodeMetrics.commentLines m
       + CodeMetrics.codeLines m
  /\ 1 <= CodeMetrics.totalLines m.
Proof.
  intros Ha.
  destruct (analyze_ok code language) as [ss [_ E]].
  rewrite E in Ha. injection Ha as <-.
  cbn [CodeAnalysis.metrics CodeAnalysis.tokens]. cbv zeta.
  unfold calculateMetrics.
  cbn [CodeMetrics.emptyLines CodeMetrics.commentLines CodeMetrics.codeLines
       CodeMetrics.totalLines].
  pose proof (tokenizeFrom_kinds (splitLines code) 0 0) as H. cbv zeta in H.
  destruct H as (_ & Hws & Hcom & _).
  fold (tokenize code (splitLines code)) in Hws, Hcom.
  pose proof (count_three
                (fun l => len (trim l) =? 0)
                (fun l => negb (len (trim l) =? 0) && isComment (trim l))
                (fun l => negb (len (trim l) =? 0) && negb (isComment (trim l)))
                (splitLines code)) as H3.
  rewrite Hcom, Hws.
  assert (Hlen : (1 <= List.length (splitLines code))%nat).
  { destruct (splitLines code) eqn:El; [|simpl; lia].
    destruct code as [|c code]; simpl in El; [discriminate|].
    destruct (c =? 10); [discriminate|].
    destruct (splitLines code); discriminate. }
  repeat split; try reflexivity; try lia.
  rewrite <- H3; [lia|].
  intros l. destruct (len (trim l) =? 0), (isComment (trim l)); reflexivity.
Qed.

Lemma metrics_line_kinds_witness :
  let m := CodeAnalysis.metrics Spec.sampleAnalysis in
  let lines := splitLines Spec.sampleText in
  let blank := fun l => len (trim l) =? 0 in
  let comment := fun l => negb (len (trim l) =? 0) && isComment (trim l) in
  let other := fun l => negb (len (trim l) =? 0) && negb (isComment (trim l)) in
  CodeMetrics.emptyLines m = count blank lines
  /\ CodeMetrics.emptyLines m
     = countType t_whitespace (CodeAnalysis.tokens Spec.sampleAnalysis)
  /\ CodeMetrics.commentLines m = count comment lines
  /\ CodeMetrics.codeLines m = count other lines
  /\ CodeMetrics.totalLines m
     = CodeMetrics.emptyLines m + CodeMetrics.commentLines m
       + CodeMetrics.codeLines m
  /\ 1 <= CodeMetrics.totalLines m.
Proof.
  apply (metrics_line_kinds Spec.sampleText None Spec.sampleAnalysis).
  vm_compute. reflexivity.
Defined.

End WordFacts.

(* ------------------------------------------------------------------ *)
(*  When the analysis returns                                          *)
(* ------------------------------------------------------------------ *)
Section EngineLimit.
Import Parser.






End EngineLimit.

(* ------------------------------------------------------------------ *)
(*  Structures                                                         *)
(* ------------------------------------------------------------------ *)
Section StructureFacts.
Import Parser Shape.

Variable tokens : list CodeToken.t.
Variable total : Z.
Hypothesis tokens_sorted :
  StronglySorted (fun a b => CodeToken.line a <= CodeToken.line b) tokens.
Hypothesis tokens_range :
  Forall (fun t => 1 <= CodeToken.line t <= total) tokens.

Lemma sorted_nth_error {A} (R : A -> A -> Prop) (l : list A) :
  StronglySorted R l ->
  forall i j a b, (i < j)%nat -> nth_error l i = Some a ->
                  nth_error l j = Some b -> R a b.
Proof.
  induction 1 as [|x l Hs IH Hx]; intros i j a b Hij Ha Hb.
  - destruct i; discriminate Ha.
  - destruct j as [|j]; [lia|]. simpl in Hb.
    destruct i as [|i]; simpl in Ha.
    + injection Ha as <-. rewrite Forall_forall in Hx. apply Hx.
      eapply nth_error_In. exact Hb.
    + eapply IH; [|eassumption|eassumption]. lia.
Qed.

Lemma at_spec {A} (l : list A) (i : nat) (x : A) :
  at_ l i = Ok x <-> nth_error l i = Some x.
Proof.
  unfold at_. destruct (nth_error l i); simpl; split; intros H;
    congruence.
Qed.

Lemma findEndLine_bounds token js :
  Forall (fun j => exists tj, nth_error tokens j = Some tj
                              /\ CodeToken.line token <= CodeToken.line tj) js ->
  forall endLine,
    CodeToken.line token <= endLine <= total ->
    exists z, findEndLine tokens token js endLine = Ok z
              /\ CodeToken.line token <= z <= total.
Proof.
  induction 1 as [|j js (tj & Hj & Hle) _ IH]; intros endLine He; simpl.
  - eauto.
  - apply at_spec in Hj. rewrite Hj. cbn [bind].
    assert (Hr : 1 <= CodeToken.line tj <= total).
    { rewrite Forall_forall in tokens_range. apply tokens_range.
      apply at_spec in Hj. eapply nth_error_In. exact Hj. }
    destruct (_ && _) eqn:E.
    + apply andb_true_iff in E. destruct E as [_ E]. apply Z.ltb_lt in E.
      eexists. split; [reflexivity|]. lia.
    + apply IH. lia.
Qed.

(** What one turn of the loop of [extractStructures] pushes. *)
Lemma structureAt_spec i token :
  nth_error tokens i = Some token ->
  exists s,
    structureAt tokens i = Ok s
    /\ Forall (leafOk total) s
    /\ List.length s
       = (if isStructureType (CodeToken.type token) then 1 else 0)%nat.
Proof.
  intros Hi. unfold structureAt.
  apply at_spec in Hi. rewrite Hi. cbn [bind]. apply at_spec in Hi.
  destruct (isStructureType (CodeToken.type token)); [|eauto].
  assert (Hr : 1 <= CodeToken.line token <= total).
  { rewrite Forall_forall in tokens_range. apply tokens_range.
    eapply nth_error_In. exact Hi. }
  assert (Hname : exists name,
             (if (i + 1 <? List.length tokens)%nat
              then next <- at_ tokens (i + 1) ;;
                   Ok (match CodeToken.type next with
                       | t_unknown => CodeToken.value next
                       | _ => CodeToken.value token
                       end)
              else Ok (CodeToken.value token)) = Ok name).
  { destruct (i + 1 <? List.length tokens)%nat eqn:E; [|eauto].
    apply Nat.ltb_lt in E. destruct (at_ok tokens (i + 1) E) as [next ->].
    cbn [bind]. eauto. }
  destruct Hname as [name ->]. cbn [bind].
  destruct (findEndLine_bounds token
              (seq (i + 1) (List.length tokens - (i + 1))))
    with (endLine := CodeToken.line token) as (z & -> & Hz).
  - apply Forall_forall. intros j Hj. apply in_seq in Hj.
    destruct (nth_error tokens j) as [tj|] eqn:Ej.
    + exists tj. split; [reflexivity|].
      eapply (sorted_nth_error _ tokens tokens_sorted i j); [lia| |]; eassumption.
    + apply nth_error_None in Ej. lia.
  - lia.
  - cbn [bind]. eexists. split; [reflexivity|]. split; [|reflexivity].
    repeat constructor; cbn [CodeStructure.startLine CodeStructure.endLine]; lia.
Qed.

Lemma extractLoop_spec m :
  forall k acc,
    (k + m <= List.length tokens)%nat ->
    exists new,
      extractLoop tokens (seq k m) acc = Ok (acc ++ new)
      /\ Forall (leafOk total) new
      /\ Z.of_nat (List.length new)
         = count (fun t => isStructureType (CodeToken.type t))
                 (firstn m (skipn k tokens)).
Proof.
  induction m as [|m IH]; intros k acc Hk; cbn [seq extractLoop].
  - exists []. rewrite app_nil_r. repeat split. constructor.
  - destruct (nth_error tokens k) as [token|] eqn:Ek;
      [|apply nth_error_None in Ek; lia].
    destruct (structureAt_spec k token Ek) as (s & -> & Hs & Hlen).
    cbn [bind].
    destruct (IH (S k) (acc ++ s)) as (new & -> & Hnew & Hcount); [lia|].
    exists (s ++ new). rewrite app_assoc. split; [reflexivity|].
    split; [apply Forall_app; split; assumption|].
    assert (Hskip : skipn k tokens = token :: skipn (S k) tokens).
    { clear - Ek. revert k Ek.
      induction tokens as [|t l IHl]; intros k Ek; [destruct k; discriminate|].
      destruct k as [|k]; simpl in *; [congruence|]. apply IHl. exact Ek. }
    rewrite Hskip. cbn [firstn]. unfold count in *. cbn [List.filter].
    rewrite length_app, Hlen.
    destruct (isStructureType (CodeToken.type token)); cbn [List.length]; rewrite Nat2Z.inj_add, ?Nat2Z.inj_succ; lia.
Qed.

Lemma setNth_spec (root : list CodeStructure.t) i r r' :
  nth_error root i = Some r ->
  Forall (rootOk total) root -> rootOk total r' ->
  CodeStructure.children r' = CodeStructure.children r ++ [hd r (rev (CodeStructure.children r'))] ->
  Forall (rootOk total) (setNth root i r')
  /\ List.length (flatten (setNth root i r')) = S (List.length (flatten root)).
Proof.
  intros Hi Hroot Hr' Hch. revert i Hi. unfold flatten.
  induction Hroot as [|x root Hx Hroot IH]; intros i Hi;
    [destruct i; discriminate|].
  destruct i as [|i]; simpl in Hi.
  - injection Hi as ->. cbn [setNth flat_map]. split.
    + constructor; assumption.
    + rewrite Hch. simpl. rewrite !length_app. simpl. lia.
  - destruct (IH i Hi) as [IH1 IH2]. cbn [setNth flat_map]. split.
    + constructor; assumption.
    + simpl. rewrite !length_app, IH2. lia.
Qed.

Lemma pushChild_spec r struct :
  rootOk total r -> leafOk total struct -> isInsideStructure struct r = true ->
  rootOk total (CodeStructure.pushChild r struct)
  /\ CodeStructure.children (CodeStructure.pushChild r struct)
     = CodeStructure.children r ++ [struct].
Proof.
  intros (Hspan & Hch) Hleaf Hin.
  unfold isInsideStructure in Hin. apply andb_true_iff in Hin.
  destruct Hin as [H1 H2]. apply Z.ltb_lt in H1. apply Z.leb_le in H2.
  destruct r as [ty n a b d cs].
  cbn [CodeStructure.pushChild CodeStructure.children
       CodeStructure.startLine CodeStructure.endLine] in *.
  split; [|reflexivity]. split; [exact Hspan|].
  cbn [CodeStructure.children CodeStructure.startLine CodeStructure.endLine].
  apply Forall_app. split; [exact Hch|].
  constructor; [|constructor]. tauto.
Qed.

Lemma place_spec (root : list CodeStructure.t) struct idxs :
  Forall (fun i => (i < List.length root)%nat) idxs ->
  Forall (rootOk total) root -> leafOk total struct ->
  exists o,
    place root struct idxs = Ok o
    /\ match o with
       | None => True
       | Some root' =>
           Forall (rootOk total) root'
           /\ List.length (flatten root') = S (List.length (flatten root))
       end.
Proof.
  intros Hidx Hroot Hleaf.
  induction Hidx as [|i js Hi _ IH]; simpl;
    [exists None; split; [reflexivity | exact I]|].
  destruct (nth_error root i) as [r|] eqn:Er;
    [|apply nth_error_None in Er; lia].
  apply at_spec in Er. rewrite Er. cbn [bind]. apply at_spec in Er.
  destruct (isInsideStructure struct r) eqn:Ein; [|exact IH].
  eexists. split; [reflexivity|].
  assert (Hr : rootOk total r).
  { rewrite Forall_forall in Hroot. apply Hroot. eapply nth_error_In. exact Er. }
  destruct (pushChild_spec r struct Hr Hleaf Ein) as [Hok Hch].
  apply (setNth_spec root i r _ Er Hroot Hok).
  rewrite Hch at 1. f_equal. rewrite Hch, rev_app_distr. reflexivity.
Qed.

Lemma nestLoop_spec structures :
  Forall (leafOk total) structures ->
  forall root,
    Forall (rootOk total) root ->
    exists root',
      nestLoop structures root = Ok root'
      /\ Forall (rootOk total) root'
      /\ List.length (flatten root')
         = (List.length (flatten root) + List.length structures)%nat.
Proof.
  induction 1 as [|struct rest Hleaf _ IH]; intros root Hroot; simpl.
  - exists root. repeat split; [exact Hroot | lia].
  - destruct (place_spec root struct (rev (seq 0 (List.length root))))
      as (o & -> & Ho); [|exact Hroot|exact Hleaf|].
    + apply Forall_forall. intros i Hi. apply in_rev in Hi.
      apply in_seq in Hi. lia.
    + cbn [bind]. destruct o as [root'|].
      * destruct Ho as [Hok Hlen].
        destruct (IH root' Hok) as (r & -> & Hr & Hl).
        exists r. repeat split; [exact Hr | lia].
      * destruct (IH (root ++ [struct])) as (r & -> & Hr & Hl).
        -- apply Forall_app. split; [exact Hroot|].
           constructor; [|constructor].
           destruct Hleaf as [Hc Hs]. split; [exact Hs|].
           rewrite Hc. constructor.
        -- exists r. repeat split; [exact Hr|].
           rewrite Hl. unfold flatten. rewrite flat_map_app, length_app.
           destruct Hleaf as [Hc _]. simpl. rewrite Hc. simpl. lia.
Qed.

Lemma extractStructures_spec lines :
  exists root,
    extractStructures tokens lines = Ok root
    /\ Forall (rootOk total) root
    /\ Z.of_nat (List.length (flatten root))
       = count (fun t => isStructureType (CodeToken.type t)) tokens.
Proof.
  unfold extractStructures.
  destruct (extractLoop_spec (List.length tokens) 0 []) as (new & -> & Hnew & Hc);
    [lia|].
  cbn [bind app]. unfold nestStructures.
  destruct (nestLoop_spec new Hnew [] (Forall_nil _)) as (root & -> & Hr & Hl).
  exists root. split; [reflexivity|]. split; [exact Hr|].
  rewrite Hl. cbn [flatten flat_map List.length plus].
  rewrite Hc. cbn [skipn]. rewrite firstn_all. reflexivity.
Qed.

End StructureFacts.

Section StructureShape.
Import Parser Shape.

Lemma count_structure_types tokens :
  count (fun t => isStructureType (CodeToken.type t)) tokens
  = countType t_function tokens + countType t_class tokens
    + countType t_loop tokens + countType t_conditional tokens.
Proof.
  unfold countType, count. induction tokens as [|t ts IH]; [reflexivity|].
  cbn [List.filter]. destruct (CodeToken.type t);
    cbn [isStructureType TokenType_eqb List.length]; lia.
Qed.

(** X4. The structures of any text form a list of roots with leaves
    below them, never deeper: a child has no children, starts after its
    root and ends no later. Every structure, root or child, spans lines
    of the text, [1 <= startLine <= endLine <= totalLines], and there are
    as many structures as function, class, loop and conditional
    tokens. *)
Theorem structures_shape (code : jsstring) (language : option CodeLanguage) :
  exists a,
    analyze code language = Ok a /\
    let m := CodeAnalysis.metrics a in
    let roots := CodeAnalysis.structures a in
    Forall (rootOk (CodeMetrics.totalLines m)) roots
    /\ Z.of_nat (List.length (flatten roots))
       = CodeMetrics.functionCount m + CodeMetrics.classCount m
         + CodeMetrics.loopCount m + CodeMetrics.conditionalCount m.
Proof.
  pose proof (tokenizeFrom_invariant (splitLines code) 0 0 (Z.le_refl 0)) as H.
  cbv zeta in H. destruct H as (Hrange & Hsorted & _).
  fold (tokenize code (splitLines code)) in Hrange, Hsorted.
  destruct (extractStructures_spec
              (tokenize code (splitLines code))
              (Z.of_nat (List.length (splitLines code))) Hsorted)
    with (lines := splitLines code) as (root & Eroot & Hok & Hcount).
  { eapply Forall_impl; [|exact Hrange]. intros t Ht. simpl in Ht. lia. }
  exists (CodeAnalysis.mk
            (match language with
             | Some l => l
             | None => detectLanguage code
             end)
            (tokenize code (splitLines code))
            (calculateMetrics (tokenize code (splitLines code))
                              (splitLines code) root)
            root).
  split.
  - unfold analyze. rewrite Eroot. reflexivity.
  - cbn [CodeAnalysis.metrics CodeAnalysis.structures]. cbv zeta.
    unfold calculateMetrics.
    cbn [CodeMetrics.totalLines CodeMetrics.functionCount
         CodeMetrics.classCount CodeMetrics.loopCount
         CodeMetrics.conditionalCount].
    split; [exact Hok|].
    rewrite Hcount. apply count_structure_types.
Qed.

End StructureShape.

(* ------------------------------------------------------------------ *)
(*  Encoder: quantities and integers of any size                       *)
(* ------------------------------------------------------------------ *)
Section ByteFacts.
Import Midi Spec Shape.

Lemma toInt32_range (v : Z) : - 2 ^ 31 <= toInt32 v < 2 ^ 31.
Proof.
  unfold toInt32.
  pose proof (Z.mod_pos_bound (v + 2 ^ 31) (2 ^ 32)). lia.
Qed.

Lemma band_ones (v n : Z) :
  0 <= n < 31 -> band v (Z.ones n) = toInt32 v mod 2 ^ n.
Proof.
  intros Hn. unfold band.
  assert (H : 0 <= Z.ones n < 2 ^ 31).
  { rewrite Z.ones_equiv.
    assert (0 < 2 ^ n) by (apply Z.pow_pos_nonneg; lia).
    assert (2 ^ n <= 2 ^ 30) by (apply Z.pow_le_mono_r; lia).
    lia. }
  rewrite (toInt32_small (Z.ones n)) by lia.
  apply Z.land_ones. lia.
Qed.

Lemma sar_div (v k : Z) :
  0 <= k < 32 -> sar v k = toInt32 v / 2 ^ k.
Proof.
  intros Hk. unfold sar. rewrite (Z.mod_small k 32) by lia.
  apply Z.shiftr_div_pow2. lia.
Qed.

Lemma bor_128 (m : Z) : 0 <= m < 128 -> bor m 128 = m + 128.
Proof.
  intros H. pose proof (continuation_byte m) as C.
  rewrite band_127, Z.mod_small in C by lia. apply C. lia.
Qed.

(** The loop stops once the value is used up: more turns than the value
    has groups of seven bits change nothing. *)
Lemma encodeVLQ_loop_fuel (n : nat) :
  forall (m : nat) value bytes,
    value < 2 ^ (7 * Z.of_nat n) -> value < 2 ^ 31 -> (n <= m)%nat ->
    encodeVLQ_loop m value bytes = encodeVLQ_loop n value bytes.
Proof.
  induction n as [|n IH]; intros m value bytes Hv H31 Hm.
  - simpl in Hv. destruct m; simpl; [reflexivity|].
    replace (0 <? value) with false by (symmetry; apply Z.ltb_ge; lia).
    reflexivity.
  - destruct m as [|m]; [lia|]. simpl.
    destruct (0 <? value) eqn:Hpos; [|reflexivity].
    apply Z.ltb_lt in Hpos. rewrite sar_7 by lia.
    apply IH; [| |lia].
    + apply Z.div_lt_upper_bound; [lia|].
      change 128 with (2 ^ 7). rewrite <- Z.pow_add_r by lia.
      replace (7 + 7 * Z.of_nat n) with (7 * Z.of_nat (S n)) by lia.
      exact Hv.
    + apply Z.le_lt_trans with value; [|lia].
      apply Z.div_le_upper_bound; lia.
Qed.

(** What the loop puts in front of [bytes]: at most one byte per turn,
    each with its top bit set. *)
Lemma encodeVLQ_loop_shape (n : nat) :
  forall value bytes,
    value < 2 ^ 31 ->
    exists init,
      encodeVLQ_loop n value bytes = init ++ bytes
      /\ (List.length init <= n)%nat
      /\ Forall (fun b => 128 <= b <= 255) init.
Proof.
  induction n as [|n IH]; intros value bytes H31; simpl.
  - exists []. split; [reflexivity|]. split; [simpl; lia | constructor].
  - destruct (0 <? value) eqn:Hpos.
    + apply Z.ltb_lt in Hpos.
      rewrite sar_7, continuation_byte by lia.
      assert (Hm : 0 <= value mod 128 < 128) by (apply Z.mod_pos_bound; lia).
      destruct (IH (value / 128) (value mod 128 + 128 :: bytes))
        as (init & E & Hlen & Hall).
      { apply Z.le_lt_trans with value; [|lia].
        apply Z.div_le_upper_bound; lia. }
      exists (init ++ [value mod 128 + 128]).
      rewrite E, <- app_assoc. split; [reflexivity|].
      split; [rewrite length_app; simpl; lia|].
      apply Forall_app. split; [exact Hall|].
      constructor; [lia | constructor].
    + exists []. split; [reflexivity|]. split; [simpl; lia | constructor].
Qed.

Lemma sar_7_range (v : Z) : sar v 7 < 2 ^ 24.
Proof.
  rewrite sar_div by lia. pose proof (toInt32_range v).
  apply Z.div_lt_upper_bound; lia.
Qed.

(** X5. Whatever number it is given, [encodeVLQ] returns between one
    and five bytes: a last byte below 128 behind bytes that all have the
    top bit set. A negative number is written as 0. The loop is over
    after four turns at most: running it longer changes nothing. *)
Theorem encodeVLQ_shape (value : Z) :
  (exists init last,
     encodeVLQ value = init ++ [last]
     /\ (List.length init <= 4)%nat
     /\ Forall (fun b => 128 <= b <= 255) init
     /\ 0 <= last <= 127)
  /\ encodeVLQ value = encodeVLQ (Z.max 0 value)
  /\ forall turns : nat,
       encodeVLQ_loop (4 + turns) (sar (Z.max 0 value) 7)
                      [band (Z.max 0 value) 127]
       = encodeVLQ value.
Proof.
  assert (Hmax : (if value <? 0 then 0 else value) = Z.max 0 value).
  { destruct (value <? 0) eqn:E; [apply Z.ltb_lt in E | apply Z.ltb_ge in E];
      lia. }
  assert (Hfuel : forall m, (4 <= m)%nat ->
            encodeVLQ_loop m (sar (Z.max 0 value) 7) [band (Z.max 0 value) 127]
            = encodeVLQ_loop 4 (sar (Z.max 0 value) 7)
                             [band (Z.max 0 value) 127]).
  { intros m Hm. apply encodeVLQ_loop_fuel; [| |exact Hm].
    - pose proof (sar_7_range (Z.max 0 value)). simpl. lia.
    - pose proof (sar_7_range (Z.max 0 value)). lia. }
  assert (E : encodeVLQ value
              = encodeVLQ_loop 4 (sar (Z.max 0 value) 7)
                               [band (Z.max 0 value) 127]).
  { unfold encodeVLQ. rewrite Hmax. apply Hfuel. lia. }
  split; [|split].
  - rewrite E.
    destruct (encodeVLQ_loop_shape 4 (sar (Z.max 0 value) 7)
                [band (Z.max 0 value) 127]) as (init & Ei & Hlen & Hall).
    { pose proof (sar_7_range (Z.max 0 value)). lia. }
    exists init, (band (Z.max 0 value) 127).
    split; [exact Ei|]. split; [exact Hlen|]. split; [exact Hall|].
    pose proof (band_ones (Z.max 0 value) 7) as Hb.
    change (Z.ones 7) with 127 in Hb. rewrite Hb by lia.
    pose proof (Z.mod_pos_bound (toInt32 (Z.max 0 value)) (2 ^ 7)). lia.
  - rewrite E. unfold encodeVLQ.
    replace (Z.max 0 value <? 0) with false by (symmetry; apply Z.ltb_ge; lia).
    symmetry. apply Hfuel. lia.
  - intros turns. rewrite E. apply Hfuel. lia.
Qed.

(** X6. Reading back what [encodeVLQ] writes, for the numbers of 32
    bits: below 2^31 the reader finds the number, whatever bytes follow;
    from 2^31 on the number is written as one byte, its seven lowest
    bits, and the rest of it is lost. *)
Theorem encodeVLQ_decode_uint32 (value : Z) (rest : list Z) :
  0 <= value < 2 ^ 32 ->
  decodeVLQ (encodeVLQ value ++ rest)
  = Some (if value <? 2 ^ 31 then value else value mod 128, rest)
  /\ (2 ^ 31 <= value -> encodeVLQ value = [value mod 128]).
Proof.
  intros Hv.
  assert (Happ : forall fuel v bytes,
             encodeVLQ_loop fuel v bytes ++ rest
             = encodeVLQ_loop fuel v (bytes ++ rest)).
  { induction fuel as [|fuel IH]; intros v bytes; simpl; [reflexivity|].
    destruct (0 <? v); [apply IH | reflexivity]. }
  assert (Hm : 0 <= value mod 128 < 128) by (apply Z.mod_pos_bound; lia).
  unfold decodeVLQ, encodeVLQ.
  replace (value <? 0) with false by (symmetry; apply Z.ltb_ge; lia).
  destruct (value <? 2 ^ 31) eqn:E31.
  - apply Z.ltb_lt in E31. split; [|lia].
    assert (Hd : 0 <= value / 128 < 2 ^ 24).
    { split; [apply Z.div_pos; lia|]. apply Z.div_lt_upper_bound; lia. }
    rewrite sar_7, band_127 by lia.
    rewrite Happ, decode_encodeVLQ_loop by (simpl; lia).
    cbn [decodeVLQ_from app]. rewrite testbit7_low by lia.
    f_equal. f_equal. rewrite (Z.div_mod value 128) at 3 by lia. lia.
  - apply Z.ltb_ge in E31.
    assert (Hwrap : toInt32 value = value - 2 ^ 32).
    { unfold toInt32.
      replace (value + 2 ^ 31) with (value - 2 ^ 31 + 1 * 2 ^ 32) by lia.
      rewrite Z.mod_add by lia. rewrite Z.mod_small by lia. lia. }
    assert (Hband : band value 127 = value mod 128).
    { pose proof (band_ones value 7) as Hb.
      change (Z.ones 7) with 127 in Hb. rewrite Hb by lia.
      rewrite Hwrap. change (2 ^ 7) with 128.
      replace (value - 2 ^ 32) with (value + (- 2 ^ 25) * 128) by lia.
      apply Z.mod_add. lia. }
    assert (Hsar : sar value 7 < 0).
    { rewrite sar_div by lia. rewrite Hwrap.
      apply Z.div_lt_upper_bound; lia. }
    assert (Hloop : encodeVLQ_loop 5 (sar value 7) [band value 127]
                    = [value mod 128]).
    { cbn [encodeVLQ_loop].
      replace (0 <? sar value 7) with false by (symmetry; apply Z.ltb_ge; lia).
      rewrite Hband. reflexivity. }
    rewrite Hloop. split; [|intros _; reflexivity].
    cbn [decodeVLQ_from app]. rewrite testbit7_low by lia. reflexivity.
Qed.

Lemma encodeVLQ_decode_uint32_witness :
  decodeVLQ (encodeVLQ 2147483647 ++ [255; 47; 0])
  = Some (if 2147483647 <? 2 ^ 31 then 2147483647 else 2147483647 mod 128,
          [255; 47; 0])
  /\ (2 ^ 31 <= 2147483647 -> encodeVLQ 2147483647 = [2147483647 mod 128]).
Proof.
  apply (encodeVLQ_decode_uint32 2147483647 [255; 47; 0]). lia.
Defined.

Lemma band_255 (v : Z) : band v 255 = toInt32 v mod 256.
Proof.
  pose proof (band_ones v 8) as H. change (Z.ones 8) with 255 in H.
  apply H. lia.
Qed.

Lemma bigEndian_4 a b c d :
  bigEndian [a; b; c; d] = ((a * 256 + b) * 256 + c) * 256 + d.
Proof. reflexivity. Qed.

Lemma int_bytes_value (value : Z) :
  0 <= value < 2 ^ 31 ->
  bigEndian (int32ToBytes value) = value
  /\ bigEndian (int16ToBytes value) = value mod 65536
  /\ Forall isByte (int32ToBytes value)
  /\ Forall isByte (int16ToBytes value).
Proof.
  intros Hv. unfold int32ToBytes, int16ToBytes.
  rewrite !band_255, !sar_div by lia.
  rewrite !(toInt32_small value) by lia.
  assert (H24 : 0 <= value / 2 ^ 24 < 128).
  { split; [apply Z.div_pos; lia | apply Z.div_lt_upper_bound; lia]. }
  assert (H16 : 0 <= value / 2 ^ 16 < 2 ^ 31).
  { split; [apply Z.div_pos; lia | apply Z.div_lt_upper_bound; lia]. }
  assert (H8 : 0 <= value / 2 ^ 8 < 2 ^ 31).
  { split; [apply Z.div_pos; lia | apply Z.div_lt_upper_bound; lia]. }
  rewrite (toInt32_small (value / 2 ^ 24)), (toInt32_small (value / 2 ^ 16)),
    !(toInt32_small (value / 2 ^ 8)) by lia.
  assert (E16 : value / 2 ^ 16 = value / 2 ^ 8 / 256).
  { rewrite Z.div_div by lia. reflexivity. }
  assert (E24 : value / 2 ^ 24 = value / 2 ^ 16 / 256).
  { rewrite Z.div_div by lia. reflexivity. }
  change (2 ^ 8) with 256 in *.
  pose proof (Z.div_mod value 256 ltac:(lia)) as D0.
  pose proof (Z.div_mod (value / 256) 256 ltac:(lia)) as D1.
  pose proof (Z.div_mod (value / 2 ^ 16) 256 ltac:(lia)) as D2.
  pose proof (Z.mod_pos_bound value 256 ltac:(lia)) as B0.
  pose proof (Z.mod_pos_bound (value / 256) 256 ltac:(lia)) as B1.
  pose proof (Z.mod_pos_bound (value / 2 ^ 16) 256 ltac:(lia)) as B2.
  rewrite (Z.mod_small (value / 2 ^ 24) 256) by lia.
  split; [|split; [|split]].
  - rewrite bigEndian_4. rewrite E24. rewrite E16 in *. lia.
  - unfold bigEndian. cbn [fold_left].
    change 65536 with (256 * 256).
    rewrite Z.rem_mul_r by lia. lia.
  - unfold isByte. repeat constructor; lia.
  - unfold isByte. repeat constructor; lia.
Qed.

(** X7. The bytes of an integer below 2^31, most significant first:
    [int32ToBytes] writes the number itself on four bytes,
    [int16ToBytes] its sixteen lowest bits on two, so a number from
    65536 on loses what is above them. *)
Theorem int_bytes_big_endian (value : Z) :
  0 <= value < 2 ^ 31 ->
  bigEndian (int32ToBytes value) = value
  /\ bigEndian (int16ToBytes value) = value mod 65536
  /\ Forall isByte (int32ToBytes value)
  /\ Forall isByte (int16ToBytes value).
Proof.
  exact (int_bytes_value value).
Qed.

Lemma int_bytes_big_endian_witness :
  bigEndian (int32ToBytes 70000) = 70000
  /\ bigEndian (int16ToBytes 70000) = 70000 mod 65536
  /\ Forall isByte (int32ToBytes 70000)
  /\ Forall isByte (int16ToBytes 70000).
Proof.
  apply (int_bytes_big_endian 70000). lia.
Defined.

End ByteFacts.

(* ------------------------------------------------------------------ *)
(*  Encoder: the bytes of a track chunk                                *)
(* ------------------------------------------------------------------ *)
Section ChunkFacts.
Import Midi Spec Shape.

Lemma encodeVLQ_small (n : Z) : 0 <= n < 128 -> encodeVLQ n = [n].
Proof.
  intros H. unfold encodeVLQ.
  replace (n <? 0) with false by (symmetry; apply Z.ltb_ge; lia).
  rewrite sar_7, band_127 by lia.
  rewrite Z.div_small, Z.mod_small by lia. reflexivity.
Qed.

Lemma byte_of (v k : Z) :
  0 <= v < 2 ^ 31 -> 0 <= k < 32 -> band (sar v k) 255 = (v / 2 ^ k) mod 256.
Proof.
  intros Hv Hk. rewrite band_255, sar_div by lia.
  rewrite (toInt32_small v) by lia.
  assert (0 < 2 ^ k) by (apply Z.pow_pos_nonneg; lia).
  assert (0 <= v / 2 ^ k <= v).
  { split; [apply Z.div_pos; lia|].
    apply Z.div_le_upper_bound; [lia|]. nia. }
  rewrite toInt32_small by lia. reflexivity.
Qed.

Lemma addEndOfTrack_events (b : MidiTrackBuilder) :
  events (addEndOfTrack b) = events b ++ [0; 255; 47; 0].
Proof.
  unfold addEndOfTrack, addMeta. cbn [events]. rewrite Z.sub_diag.
  reflexivity.
Qed.

(** X8. The chunk [build] returns: the tag MTrk, the length of what
    follows on four bytes, the events added so far, and the end-of-track
    event with delta time 0, [00 FF 2F 00]. The length field reads back
    as the number of bytes after it when that number is below 2^31. *)
Theorem build_chunk (b : MidiTrackBuilder) :
  Z.of_nat (List.length (events b)) + 4 < 2 ^ 31 ->
  build b
  = [77; 84; 114; 107]
    ++ int32ToBytes (Z.of_nat (List.length (events b ++ [0; 255; 47; 0])))
    ++ events b ++ [0; 255; 47; 0]
  /\ bigEndian (int32ToBytes
                  (Z.of_nat (List.length (events b ++ [0; 255; 47; 0]))))
     = Z.of_nat (List.length (events b ++ [0; 255; 47; 0])).
Proof.
  intros H. split.
  - unfold build. cbv zeta. rewrite addEndOfTrack_events. reflexivity.
  - refine (proj1 (int_bytes_value _ _)).
    rewrite length_app. cbn [List.length]. lia.
Qed.

Lemma build_chunk_witness :
  build (addTrackName newBuilder (lit "Melody"))
  = [77; 84; 114; 107]
    ++ int32ToBytes
         (Z.of_nat (List.length (events (addTrackName newBuilder (lit "Melody"))
                                 ++ [0; 255; 47; 0])))
    ++ events (addTrackName newBuilder (lit "Melody")) ++ [0; 255; 47; 0]
  /\ bigEndian (int32ToBytes
                  (Z.of_nat (List.length
                               (events (addTrackName newBuilder (lit "Melody"))
                                ++ [0; 255; 47; 0]))))
     = Z.of_nat (List.length (events (addTrackName newBuilder (lit "Melody"))
                              ++ [0; 255; 47; 0])).
Proof.
  apply (build_chunk (addTrackName newBuilder (lit "Melody"))).
  vm_compute. reflexivity.
Defined.

Lemma DURATION_TICKS_pos (d : Duration) : 0 < DURATION_TICKS d < 128 * 128.
Proof. destruct d; vm_compute; split; reflexivity. Qed.

Lemma pitchInRange_test (note : MusicNote.t) :
  (noteStringToMidi (MusicNote.note note) <? 0)
  || (127 <? noteStringToMidi (MusicNote.note note))
  = negb (pitchInRange note).
Proof. unfold pitchInRange. rewrite negb_involutive. reflexivity. Qed.

(** The loop over the notes of a track appends [noteBytes] and leaves
    the builder at the end of the last note written. *)
Lemma addNotes_bytes (tempo channel : Z) (notes : list MusicNote.t) :
  forall b,
    events (fold_left (addNote tempo channel) notes b)
    = events b ++ noteBytes tempo channel (lastTick b) notes
    /\ lastTick (fold_left (addNote tempo channel) notes b)
       = lastTickAfter tempo (lastTick b) notes.
Proof.
  induction notes as [|note notes IH]; intros b;
    cbn [fold_left noteBytes lastTickAfter].
  - rewrite app_nil_r. split; reflexivity.
  - unfold addNote at 2 4. rewrite pitchInRange_test.
    destruct (pitchInRange note) eqn:E; cbn [negb]; [|apply IH].
    apply pitchInRange_spec in E.
    destruct (IH (addNoteOff
                    (addNoteOn b (secondsToTicks tempo (MusicNote.time note))
                       channel (noteStringToMidi (MusicNote.note note))
                       (MusicNote.velocity note))
                    (secondsToTicks tempo (MusicNote.time note)
                     + DURATION_TICKS (MusicNote.duration note))
                    channel (noteStringToMidi (MusicNote.note note))))
      as [IHe IHt].
    rewrite IHe, IHt. unfold addNoteOff, addNoteOn, addEvent.
    cbn [events lastTick].
    rewrite pitch_byte by exact E.
    pose proof (DURATION_TICKS_pos (MusicNote.duration note)) as Hd.
    replace (Z.max 0 (secondsToTicks tempo (MusicNote.time note)
                      + DURATION_TICKS (MusicNote.duration note)
                      - secondsToTicks tempo (MusicNote.time note)))
      with (DURATION_TICKS (MusicNote.duration note)) by lia.
    split; [|reflexivity].
    rewrite <- !app_assoc. reflexivity.
Qed.

(** X9. What the note loop writes into a track, byte for byte: for each
    note that is not skipped, the delta time of the note-on counted from
    the end of the note written before it (0 when the note starts
    earlier), the note-on with the pitch and velocity bytes, the
    duration of the note as the delta time of its note-off, and the
    note-off. The notes of a track are thus written one after the
    other, and the builder ends at the end of the last note. *)
Theorem notes_written_in_sequence
    (tempo channel : Z) (notes : list MusicNote.t) (b : MidiTrackBuilder) :
  events (fold_left (addNote tempo channel) notes b)
  = events b ++ noteBytes tempo channel (lastTick b) notes
  /\ lastTick (fold_left (addNote tempo channel) notes b)
     = lastTickAfter tempo (lastTick b) notes.
Proof.
  apply addNotes_bytes.
Qed.

(** X10. Two notes that sound together are not written together: when
    the second of two notes that are kept starts no later than the first
    ends, as the notes of a chord do, its note-on follows the note-off
    of the first with delta time 0, so that in the file it starts when
    the first has ended. *)
Theorem overlapping_notes_are_serialised
    (tempo channel : Z) (first second : MusicNote.t) (b : MidiTrackBuilder) :
  pitchInRange first = true ->
  pitchInRange second = true ->
  secondsToTicks tempo (MusicNote.time second)
  <= secondsToTicks tempo (MusicNote.time first)
     + DURATION_TICKS (MusicNote.duration first) ->
  events (fold_left (addNote tempo channel) [first; second] b)
  = events (addNote tempo channel b first)
    ++ [0; bor 144 (band channel 15);
        noteStringToMidi (MusicNote.note second);
        Z.min 127 (Z.max 1 (round (MusicNote.velocity second * inject_Z 127)))]
    ++ encodeVLQ (DURATION_TICKS (MusicNote.duration second))
    ++ [bor 128 (band channel 15); noteStringToMidi (MusicNote.note second); 0].
Proof.
  intros H1 H2 Hover.
  change (fold_left (addNote tempo channel) [first; second] b)
    with (fold_left (addNote tempo channel) [second]
            (addNote tempo channel b first)).
  destruct (addNotes_bytes tempo channel [second]
              (addNote tempo channel b first)) as [E _].
  rewrite E. f_equal. cbn [noteBytes]. rewrite H2.
  destruct (addNotes_bytes tempo channel [first] b) as [_ Et].
  cbn [fold_left lastTickAfter] in Et. rewrite H1 in Et. rewrite Et.
  replace (Z.max 0 _) with 0 by lia.
  rewrite (encodeVLQ_small 0) by lia.
  rewrite app_nil_r. reflexivity.
Qed.

Lemma overlapping_notes_are_serialised_witness :
  events (fold_left (addNote 120 2) [chordRoot; chordThird] newBuilder)
  = events (addNote 120 2 newBuilder chordRoot)
    ++ [0; bor 144 (band 2 15);
        noteStringToMidi (MusicNote.note chordThird);
        Z.min 127 (Z.max 1 (round (MusicNote.velocity chordThird * inject_Z 127)))]
    ++ encodeVLQ (DURATION_TICKS (MusicNote.duration chordThird))
    ++ [bor 128 (band 2 15); noteStringToMidi (MusicNote.note chordThird); 0].
Proof.
  apply (overlapping_notes_are_serialised 120 2 chordRoot chordThird newBuilder).
  - vm_compute. reflexivity.
  - vm_compute. reflexivity.
  - vm_compute. discriminate.
Defined.

Lemma stringToBytes_units (s : jsstring) :
  Forall (fun c => isHighSurrogate c = false) s -> stringToBytes s = s.
Proof.
  induction 1 as [|c s Hc Hs IH]; [reflexivity|].
  cbn [stringToBytes]. destruct s as [|c2 s']; [reflexivity|].
  rewrite Hc. cbn [andb]. rewrite IH. reflexivity.
Qed.

Lemma asciiOnly_units (name : jsstring) :
  Forall (fun c => 32 <= c <= 126) (asciiOnly name).
Proof.
  unfold asciiOnly. apply Forall_forall. intros c Hc.
  apply filter_In in Hc. destruct Hc as [_ Hc].
  apply andb_true_iff in Hc. rewrite !Z.leb_le in Hc. exact Hc.
Qed.

Lemma stringToBytes_asciiOnly (name : jsstring) :
  stringToBytes (asciiOnly name) = asciiOnly name.
Proof.
  apply stringToBytes_units.
  eapply Forall_impl; [|apply asciiOnly_units].
  intros c Hc. cbv beta in Hc. unfold isHighSurrogate.
  apply andb_false_iff. left. apply Z.leb_gt. lia.
Qed.

Lemma programChange_bytes (i : InstrumentType) :
  bor 192 (band (channelMap i) 15) = 192 + channelMap i
  /\ band (INSTRUMENT_PROGRAMS i) 127 = INSTRUMENT_PROGRAMS i.
Proof. destruct i; vm_compute; split; reflexivity. Qed.

(** X11. The chunk of a track whose printable name has fewer than 128
    characters: the tag and the length, the name event [00 FF 03 len]
    followed by the ASCII characters of the name (the others are
    dropped) one byte each, a program change [00 Cn pp] on every channel
    but 9, the notes in the order of their start times, and the
    end-of-track event. *)
Theorem trackChunk_layout (tempo : Z) (track : MusicTrack.t) :
  Z.of_nat (List.length (asciiOnly (MusicTrack.name track))) < 128 ->
  exists payload,
    trackChunk tempo track
    = TRACK_CHUNK ++ int32ToBytes (Z.of_nat (List.length payload)) ++ payload
    /\ payload
       = [0; 255; 3; Z.of_nat (List.length (asciiOnly (MusicTrack.name track)))]
         ++ asciiOnly (MusicTrack.name track)
         ++ (if channelMap (MusicTrack.instrument track) =? 9 then []
             else [0; 192 + channelMap (MusicTrack.instrument track);
                   INSTRUMENT_PROGRAMS (MusicTrack.instrument track)])
         ++ noteBytes tempo (channelMap (MusicTrack.instrument track)) 0
              (sortByTime (MusicTrack.notes track))
         ++ [0; 255; 47; 0].
Proof.
  intros Hname. eexists. split; [|reflexivity].
  unfold trackChunk, build. cbv zeta.
  rewrite addEndOfTrack_events.
  set (channel := channelMap (MusicTrack.instrument track)).
  set (named := addTrackName newBuilder (asciiOnly (MusicTrack.name track))).
  assert (Enamed : events named
                   = [0; 255; 3;
                      Z.of_nat (List.length (asciiOnly (MusicTrack.name track)))]
                     ++ asciiOnly (MusicTrack.name track)
                   /\ lastTick named = 0).
  { unfold named, addTrackName, addMeta, newBuilder. cbn [events lastTick].
    rewrite stringToBytes_asciiOnly, !encodeVLQ_small by lia.
    split; reflexivity. }
  destruct Enamed as [Enamed Lnamed].
  set (programmed := if negb (channel =? 9)
                     then addProgramChange named channel
                            (INSTRUMENT_PROGRAMS (MusicTrack.instrument track))
                     else named).
  assert (Eprog : events programmed
                  = events named
                    ++ (if channel =? 9 then []
                        else [0; 192 + channel;
                              INSTRUMENT_PROGRAMS (MusicTrack.instrument track)])
                  /\ lastTick programmed = 0).
  { unfold programmed. destruct (channel =? 9); cbn [negb].
    - rewrite app_nil_r. split; [reflexivity | exact Lnamed].
    - unfold addProgramChange, addEvent. cbn [events lastTick].
      rewrite Lnamed.
      destruct (programChange_bytes (MusicTrack.instrument track)) as [P1 P2].
      fold channel in P1. rewrite P1, P2.
      split; reflexivity. }
  destruct Eprog as [Eprog Lprog].
  destruct (addNotes_bytes tempo channel (sortByTime (MusicTrack.notes track))
              programmed) as [Enotes _].
  rewrite Enotes, Eprog, Enamed, Lprog.
  rewrite <- !app_assoc. reflexivity.
Qed.

Lemma trackChunk_layout_witness :
  exists payload,
    trackChunk 120 sampleTrack
    = TRACK_CHUNK ++ int32ToBytes (Z.of_nat (List.length payload)) ++ payload
    /\ payload
       = [0; 255; 3; Z.of_nat (List.length (asciiOnly (MusicTrack.name sampleTrack)))]
         ++ asciiOnly (MusicTrack.name sampleTrack)
         ++ (if channelMap (MusicTrack.instrument sampleTrack) =? 9 then []
             else [0; 192 + channelMap (MusicTrack.instrument sampleTrack);
                   INSTRUMENT_PROGRAMS (MusicTrack.instrument sampleTrack)])
         ++ noteBytes 120 (channelMap (MusicTrack.instrument sampleTrack)) 0
              (sortByTime (MusicTrack.notes sampleTrack))
         ++ [0; 255; 47; 0].
Proof.
  apply (trackChunk_layout 120 sampleTrack). vm_compute. reflexivity.
Defined.

(** X12. The tempo event: for 4 beats per minute or more the three data
    bytes of [FF 51 03] hold the microseconds per beat,
    [Math.round(60000000 / bpm)], most significant byte first. *)
Theorem addTempo_bytes (b : MidiTrackBuilder) (bpm : Z) :
  4 <= bpm ->
  exists b1 b2 b3,
    events (addTempo b bpm)
    = events b ++ encodeVLQ (Z.max 0 (0 - lastTick b))
      ++ [255; 81; 3; b1; b2; b3]
    /\ Forall isByte [b1; b2; b3]
    /\ bigEndian [b1; b2; b3] = round (inject_Z 60000000 / inject_Z bpm).
Proof.
  intros Hbpm. unfold addTempo. cbv zeta.
  set (us := round (inject_Z 60000000 / inject_Z bpm)).
  assert (Hus : 0 <= us <= 15000000).
  { apply round_bounds.
    - apply Qle_shift_div_l.
      + change 0%Q with (inject_Z 0). rewrite <- Zlt_Qlt. lia.
      + rewrite <- inject_Z_mult, <- Zle_Qle. lia.
    - apply Qle_shift_div_r.
      + change 0%Q with (inject_Z 0). rewrite <- Zlt_Qlt. lia.
      + rewrite <- inject_Z_mult, <- Zle_Qle. lia. }
  exists (band (sar us 16) 255), (band (sar us 8) 255), (band us 255).
  split; [unfold addMeta; cbn [events]; reflexivity|].
  rewrite !byte_of by lia.
  rewrite band_255, toInt32_small by lia.
  change (2 ^ 8) with 256.
  assert (E16 : us / 2 ^ 16 = us / 256 / 256).
  { rewrite Z.div_div by lia. reflexivity. }
  assert (H16 : 0 <= us / 256 / 256 < 256).
  { rewrite <- E16.
    split; [apply Z.div_pos; lia | apply Z.div_lt_upper_bound; lia]. }
  rewrite E16.
  pose proof (Z.div_mod us 256 ltac:(lia)) as D0.
  pose proof (Z.div_mod (us / 256) 256 ltac:(lia)) as D1.
  pose proof (Z.mod_pos_bound us 256 ltac:(lia)) as B0.
  pose proof (Z.mod_pos_bound (us / 256) 256 ltac:(lia)) as B1.
  rewrite (Z.mod_small (us / 256 / 256) 256) by lia.
  split.
  - unfold isByte. repeat constructor; lia.
  - unfold bigEndian. cbn [fold_left]. lia.
Qed.

Lemma addTempo_bytes_witness :
  exists b1 b2 b3,
    events (addTempo newBuilder 120)
    = events newBuilder ++ encodeVLQ (Z.max 0 (0 - lastTick newBuilder))
      ++ [255; 81; 3; b1; b2; b3]
    /\ Forall isByte [b1; b2; b3]
    /\ bigEndian [b1; b2; b3] = round (inject_Z 60000000 / inject_Z 120).
Proof.
  apply (addTempo_bytes newBuilder 120). lia.
Defined.

End ChunkFacts.

(* ------------------------------------------------------------------ *)
(*  Composer: the hash of the text, the tracks of the notes            *)
(* ------------------------------------------------------------------ *)
Section ComposerFacts.
Import Composer Spec Shape.

Lemma hexDigits_shape (fuel : nat) :
  forall (k : nat) n acc,
    0 <= n < 16 ^ Z.of_nat k -> (1 <= k)%nat ->
    exists ds,
      hexDigits fuel n acc = ds ++ acc
      /\ (List.length ds <= k)%nat
      /\ Forall isHexDigit ds.
Proof.
  induction fuel as [|fuel IH]; intros k n acc Hn Hk; cbn [hexDigits].
  - exists []. split; [reflexivity|]. split; [simpl; lia | constructor].
  - cbv zeta.
    assert (Hd : 0 <= n mod 16 < 16) by (apply Z.mod_pos_bound; lia).
    assert (Hdigit : isHexDigit (if n mod 16 <? 10 then 48 + n mod 16
                                 else 87 + n mod 16)).
    { unfold isHexDigit. destruct (n mod 16 <? 10) eqn:E;
        [apply Z.ltb_lt in E | apply Z.ltb_ge in E]; lia. }
    destruct (n / 16 =? 0) eqn:E.
    + exists [if n mod 16 <? 10 then 48 + n mod 16 else 87 + n mod 16].
      split; [reflexivity|]. split; [simpl; lia|].
      constructor; [exact Hdigit | constructor].
    + apply Z.eqb_neq in E.
      destruct k as [|[|k]]; [lia| |].
      * exfalso. apply E. apply Z.div_small. simpl in Hn. lia.
      * destruct (IH (S k) (n / 16)
                    ((if n mod 16 <? 10 then 48 + n mod 16 else 87 + n mod 16)
                     :: acc)) as (ds & Eds & Hlen & Hall); [|lia|].
        { split; [apply Z.div_pos; lia|].
          apply Z.div_lt_upper_bound; [lia|].
          replace (16 * 16 ^ Z.of_nat (S k)) with (16 ^ Z.of_nat (S (S k)));
            [lia|].
          rewrite (Nat2Z.inj_succ (S k)), Z.pow_succ_r by lia. reflexivity. }
        exists (ds ++ [if n mod 16 <? 10 then 48 + n mod 16 else 87 + n mod 16]).
        rewrite Eds, <- app_assoc. split; [reflexivity|].
        split; [rewrite length_app; simpl; lia|].
        apply Forall_app. split; [exact Hall|].
        constructor; [exact Hdigit | constructor].
Qed.

Lemma band_self (x : Z) : band x x = toInt32 x.
Proof. unfold band. apply Z.land_diag. Qed.

Lemma hash_range (str : jsstring) :
  forall hash,
    - 2 ^ 31 <= hash < 2 ^ 31 ->
    - 2 ^ 31
    <= fold_left (fun hash char => band (shl hash 5 - hash + char)
                                        (shl hash 5 - hash + char)) str hash
    < 2 ^ 31.
Proof.
  induction str as [|c str IH]; intros hash H; cbn [fold_left]; [exact H|].
  apply IH. rewrite band_self. apply toInt32_range.
Qed.

(** X13. The hash of a text always has eight characters, each a digit
    of lower-case hexadecimal notation. *)
Theorem simpleHash_eight_hex_digits (str : jsstring) :
  List.length (simpleHash str) = 8%nat
  /\ Forall isHexDigit (simpleHash str).
Proof.
  unfold simpleHash. cbv zeta.
  pose proof (hash_range str 0 ltac:(lia)) as Hh.
  set (hash := fold_left _ str 0) in *.
  destruct (hexDigits_shape (S (Z.to_nat (Z.log2 (Z.abs hash)))) 8
              (Z.abs hash) []) as (ds & Eds & Hlen & Hall);
    [change (16 ^ Z.of_nat 8) with (2 ^ 32); lia | lia |].
  unfold toString16. rewrite Eds, app_nil_r. unfold padStart0.
  split.
  - rewrite length_app, repeat_length. lia.
  - apply Forall_app. split; [|exact Hall].
    apply Forall_forall. intros c Hc. apply repeat_spec in Hc. subst c.
    unfold isHexDigit. lia.
Qed.

Lemma InstrumentType_eqb_eq (a b : InstrumentType) :
  InstrumentType_eqb a b = true <-> a = b.
Proof. destruct a, b; simpl; split; congruence. Qed.

Lemma notesOf_app i l1 l2 : notesOf i (l1 ++ l2) = notesOf i l1 ++ notesOf i l2.
Proof. unfold notesOf. apply filter_app. Qed.

Lemma notesOf_one i n :
  notesOf i [n] = if InstrumentType_eqb (MusicNote.instrument n) i then [n] else [].
Proof. reflexivity. Qed.

Lemma pushNote_keys trackMap note k :
  In k (map fst (pushNote trackMap note))
  <-> In k (map fst trackMap) \/ k = MusicNote.instrument note.
Proof.
  induction trackMap as [|[i ns] rest IH]; simpl.
  - intuition auto.
  - destruct (InstrumentType_eqb i (MusicNote.instrument note)) eqn:E; simpl.
    + apply InstrumentType_eqb_eq in E. subst i. intuition auto.
    + rewrite IH. intuition auto.
Qed.

Lemma notesOf_snoc_same note done :
  notesOf (MusicNote.instrument note) (done ++ [note])
  = notesOf (MusicNote.instrument note) done ++ [note].
Proof.
  rewrite notesOf_app, notesOf_one.
  rewrite (proj2 (InstrumentType_eqb_eq _ _) eq_refl). reflexivity.
Qed.

Lemma notesOf_snoc_other i note done :
  i <> MusicNote.instrument note ->
  notesOf i (done ++ [note]) = notesOf i done.
Proof.
  intros Hne. rewrite notesOf_app, notesOf_one.
  destruct (InstrumentType_eqb (MusicNote.instrument note) i) eqn:E.
  - apply InstrumentType_eqb_eq in E. congruence.
  - apply app_nil_r.
Qed.

Lemma pushNote_entries trackMap :
  forall done note,
    NoDup (map fst trackMap) ->
    Forall (fun e => snd e = notesOf (fst e) done) trackMap ->
    (~ In (MusicNote.instrument note) (map fst trackMap) ->
     notesOf (MusicNote.instrument note) done = []) ->
    NoDup (map fst (pushNote trackMap note))
    /\ Forall (fun e => snd e = notesOf (fst e) (done ++ [note]))
              (pushNote trackMap note).
Proof.
  induction trackMap as [|[i ns] rest IH]; intros done note Hnd Hall Hnew.
  - simpl. split; [repeat constructor; intros []|].
    constructor; [|constructor]. cbn [fst snd].
    rewrite notesOf_snoc_same, Hnew; [reflexivity | intros []].
  - inversion Hnd as [|? ? Hi Hnd']; subst.
    inversion Hall as [|? ? Hns Hall']; subst. cbn [fst snd] in Hns.
    cbn [pushNote].
    destruct (InstrumentType_eqb i (MusicNote.instrument note)) eqn:E.
    + apply InstrumentType_eqb_eq in E. subst i.
      split; [exact Hnd|]. constructor.
      * cbn [fst snd]. rewrite notesOf_snoc_same, Hns. reflexivity.
      * apply Forall_forall. intros [j ms] Hj.
        rewrite Forall_forall in Hall'. specialize (Hall' _ Hj).
        cbn [fst snd] in *. rewrite notesOf_snoc_other; [exact Hall'|].
        intros ->. apply Hi. apply in_map_iff.
        exists (MusicNote.instrument note, ms). split; [reflexivity | exact Hj].
    + assert (Hne : i <> MusicNote.instrument note).
      { intros ->. rewrite (proj2 (InstrumentType_eqb_eq _ _) eq_refl) in E.
        discriminate E. }
      destruct (IH done note Hnd' Hall') as [N F].
      { intros Hk. apply Hnew. simpl. intros [H|H]; [exact (Hne H) | exact (Hk H)]. }
      split.
      * simpl. constructor; [|exact N].
        rewrite pushNote_keys. intros [H|H]; [exact (Hi H) | exact (Hne H)].
      * constructor; [|exact F]. cbn [fst snd].
        rewrite notesOf_snoc_other by exact Hne. exact Hns.
Qed.

Lemma pushNote_grouped trackMap done note :
  grouped done trackMap -> grouped (done ++ [note]) (pushNote trackMap note).
Proof.
  intros (Hnd & Hall & Hcov).
  destruct (pushNote_entries trackMap done note Hnd Hall (Hcov _)) as [N F].
  split; [exact N|]. split; [exact F|].
  intros k Hk. rewrite pushNote_keys in Hk.
  rewrite notesOf_snoc_other.
  - apply Hcov. intros H. apply Hk. left. exact H.
  - intros H. apply Hk. right. exact H.
Qed.

Lemma groupFrom_grouped notes :
  forall done trackMap,
    grouped done trackMap ->
    grouped (done ++ notes) (fold_left pushNote notes trackMap).
Proof.
  induction notes as [|n notes IH]; intros done trackMap H; cbn [fold_left].
  - rewrite app_nil_r. exact H.
  - replace (done ++ n :: notes) with ((done ++ [n]) ++ notes)
      by (rewrite <- app_assoc; reflexivity).
    apply IH. apply pushNote_grouped. exact H.
Qed.

Lemma groupByInstrument_grouped notes : grouped notes (groupByInstrument notes).
Proof.
  unfold groupByInstrument.
  apply (groupFrom_grouped notes [] []).
  split; [constructor|]. split; [constructor|]. reflexivity.
Qed.

(** Whatever the fields a track takes from its table, tracks built from
    the entries of the track map split the notes by instrument. *)
Lemma tracks_partition (mkTrack : InstrumentType * list MusicNote.t -> MusicTrack.t)
    (notes : list MusicNote.t) :
  (forall e, MusicTrack.instrument (mkTrack e) = fst e
             /\ MusicTrack.notes (mkTrack e) = snd e) ->
  partitions notes (map mkTrack (groupByInstrument notes))
  /\ (List.length (map mkTrack (groupByInstrument notes)) <= 6)%nat.
Proof.
  intros Hmk.
  destruct (groupByInstrument_grouped notes) as (Hnd & Hall & Hcov).
  destruct (groupByInstrument_nonempty notes) as [Hne _].
  assert (Ekeys : map MusicTrack.instrument (map mkTrack (groupByInstrument notes))
                  = map fst (groupByInstrument notes)).
  { rewrite map_map. apply map_ext. intros e. apply Hmk. }
  split.
  - split; [rewrite Ekeys; exact Hnd|]. split.
    + apply Forall_map. apply Forall_forall. intros e He.
      rewrite Forall_forall in Hall, Hne.
      destruct (Hmk e) as [-> ->]. split; [apply Hall | apply Hne]; exact He.
    + rewrite Ekeys. apply Forall_forall. intros n Hn.
      destruct (in_dec (fun a b : InstrumentType =>
                          ltac:(decide equality) : {a = b} + {a <> b})
                       (MusicNote.instrument n)
                       (map fst (groupByInstrument notes))) as [Hin|Hout];
        [exact Hin|].
      exfalso. specialize (Hcov _ Hout).
      assert (Hmem : In n (notesOf (MusicNote.instrument n) notes)).
      { unfold notesOf. apply filter_In. split; [exact Hn|].
        apply InstrumentType_eqb_eq. reflexivity. }
      rewrite Hcov in Hmem. exact Hmem.
  - rewrite length_map, <- (length_map fst).
    apply (NoDup_incl_length (l' := [melody; bass; harmony; percussion;
                                     ambient; dissonance]) Hnd).
    intros i _. destruct i; simpl; tauto.
Qed.

(** X14. The tracks of a composition split its notes by instrument, on
    the code path and on the diff path alike: the instruments of the
    tracks are pairwise distinct, hence at most six; a track holds the
    notes of its instrument, all of them and in the order they were
    emitted, and at least one; every note is in the track of its
    instrument. *)
Theorem tracks_split_notes_by_instrument
    (notes : list MusicNote.t) (style : MusicStyle) :
  partitions notes (organizeTracks notes style)
  /\ (List.length (organizeTracks notes style) <= 6)%nat
  /\ partitions notes (Diff.organizeDiffTracks notes)
  /\ (List.length (Diff.organizeDiffTracks notes) <= 6)%nat.
Proof.
  unfold organizeTracks, Diff.organizeDiffTracks.
  split; [|split; [|split]];
    apply tracks_partition; intros [i ns]; split; reflexivity.
Qed.

End ComposerFacts.

(* ------------------------------------------------------------------ *)
(*  The notes of the pipeline: pitches and velocities                  *)
(* ------------------------------------------------------------------ *)
Section NoteFacts.
Import Mapper Composer Midi Diff Spec Shape.

Lemma forEach_Forall {A B S} (I : S -> Prop) (P : B -> Prop) (Q : A -> Prop)
    (body : S -> A -> list B * S) (xs : list A) :
  (forall s x, I s -> Q x -> I (snd (body s x)) /\ Forall P (fst (body s x))) ->
  Forall Q xs ->
  forall s, I s ->
    I (snd (forEach body xs s)) /\ Forall P (fst (forEach body xs s)).
Proof.
  intros Hbody. induction 1 as [|x xs Hx Hxs IH]; intros s Hs; cbn [forEach].
  - split; [exact Hs | constructor].
  - destruct (Hbody s x Hs Hx) as [Hs1 Hout1].
    destruct (body s x) as [out1 s1]. cbn [fst snd] in *.
    destruct (IH s1 Hs1) as [Hs2 Hout2].
    destruct (forEach body xs s1) as [out2 s2]. cbn [fst snd] in *.
    split; [exact Hs2 | apply Forall_app; split; assumption].
Qed.

Lemma forEach_notes {A B S} (P : B -> Prop) (Q : A -> Prop)
    (body : S -> A -> list B * S) (xs : list A) :
  (forall s x, Q x -> Forall P (fst (body s x))) ->
  Forall Q xs ->
  forall s, Forall P (fst (forEach body xs s)).
Proof.
  intros Hbody Hxs s.
  apply (forEach_Forall (fun _ => True) P Q body xs); [|exact Hxs|exact I].
  intros s' x _ Hx. split; [exact I | apply Hbody; exact Hx].
Qed.

Lemma range_bounds (n : Z) : Forall (fun i => 0 <= i < n) (range n).
Proof.
  unfold range. apply Forall_forall. intros i Hi.
  apply in_map_iff in Hi. destruct Hi as (k & <- & Hk).
  apply in_seq in Hk. lia.
Qed.

Lemma noteNameAt_cases (i : Z) :
  noteNameAt i = lit "undefined" \/ exists n, noteNameAt i = noteName n.
Proof.
  unfold noteNameAt. destruct (i <? 0); [left; reflexivity|].
  destruct (nth_error NOTE_NAMES (Z.to_nat i)) as [n|];
    [right; exists n; reflexivity | left; reflexivity].
Qed.

(** A name of the table, or the text an index outside the table prints,
    followed by an octave from 1 to 8 is read by the encoder as a pitch
    from 24 to 119. *)
Lemma named_pitch (name : jsstring) (octave : Z) :
  (name = lit "undefined" \/ exists n, name = noteName n) ->
  1 <= octave <= 8 ->
  24 <= noteStringToMidi (name ++ toString octave) <= 119.
Proof.
  intros Hname Ho.
  assert (Hcases : octave = 1 \/ octave = 2 \/ octave = 3 \/ octave = 4
                   \/ octave = 5 \/ octave = 6 \/ octave = 7 \/ octave = 8)
    by lia.
  destruct Hname as [-> | [n ->]].
  - repeat (destruct Hcases as [-> | Hcases];
            [vm_compute; split; discriminate|]).
    subst octave. vm_compute. split; discriminate.
  - destruct n;
      repeat (destruct Hcases as [-> | Hcases];
              [vm_compute; split; discriminate|]);
      subst octave; vm_compute; split; discriminate.
Qed.

Lemma audible_intro (name : jsstring) (octave : Z) d v t i :
  (name = lit "undefined" \/ exists n, name = noteName n) ->
  1 <= octave <= 8 ->
  (3 # 20 <= v <= 9 # 10)%Q ->
  audible (MusicNote.mk (name ++ toString octave) d v t i).
Proof.
  intros Hname Ho Hv. split; [|exact Hv].
  apply pitchInRange_spec. cbn [MusicNote.note].
  pose proof (named_pitch name octave Hname Ho). lia.
Qed.

Lemma getOctaveForDepth_range m depth : 1 <= getOctaveForDepth m depth <= 7.
Proof. unfold getOctaveForDepth. lia. Qed.

Lemma indexOf_range (n : NoteName) : 0 <= indexOf n <= 11.
Proof. destruct n; simpl; lia. Qed.

Lemma scale_step (t : ScaleType) (i : Z) : 0 <= nthZ (SCALES t) i <= 11.
Proof.
  unfold nthZ.
  assert (H : Forall (fun x => 0 <= x <= 11) (SCALES t))
    by (destruct t; simpl; repeat constructor; lia).
  destruct (nth_in_or_default (Z.to_nat i) (SCALES t) 0) as [Hin | ->]; [|lia].
  rewrite Forall_forall in H. apply H. exact Hin.
Qed.

Lemma carry_octave (b x : Z) : 0 <= b <= 11 -> 0 <= x <= 12 -> 0 <= (b + x) / 12 <= 1.
Proof.
  intros Hb Hx. split; [apply Z.div_pos; lia|].
  apply Z.lt_succ_r. apply Z.div_lt_upper_bound; lia.
Qed.

Lemma step_velocity (base : Q) (i n : Z) :
  0 <= i < n -> n <= 5 ->
  (3 # 20 <= base)%Q -> (base + 4 * (1 # 20) <= 9 # 10)%Q ->
  (3 # 20 <= base + inject_Z i * (1 # 20) <= 9 # 10)%Q.
Proof.
  intros Hi Hn Hlo Hhi.
  assert (H : (0 <= inject_Z i <= 4)%Q).
  { split; [change 0%Q with (inject_Z 0) | change 4%Q with (inject_Z 4)];
      rewrite <- Zle_Qle; lia. }
  lra.
Qed.

Lemma rem_bounds (a b : Z) : 0 <= a -> 0 < b -> 0 <= Z.rem a b < b.
Proof. intros Ha Hb. apply Z.rem_bound_pos; lia. Qed.

Lemma operator_note (value : jsstring) d v t i :
  (3 # 20 <= v <= 9 # 10)%Q ->
  audible (MusicNote.mk
             (match find (fun kv : string * string =>
                            JS.eqb (lit (fst kv)) value) operatorMap with
              | Some kv => lit (snd kv)
              | None => lit "C3"
              end) d v t i).
Proof.
  intros Hv. split; [|exact Hv]. cbn [MusicNote.note].
  destruct (find _ operatorMap) as [kv|] eqn:E.
  - apply find_some in E. destruct E as [E _]. simpl in E.
    repeat (destruct E as [<- | E]; [vm_compute; reflexivity|]).
    contradiction.
  - vm_compute. reflexivity.
Qed.

Ltac velocity := split; [vm_compute; discriminate | vm_compute; discriminate].

(** Every note a token is mapped to is one the encoder keeps. *)
Lemma mapToken_audible m token :
  config m = DEFAULT_CONFIG -> Forall audible (fst (mapToken m token)).
Proof.
  intros Hc. unfold mapToken.
  pose proof (getOctaveForDepth_range m (CodeToken.depth token)) as Ho.
  destruct (CodeToken.type token).
  - (* function *)
    unfold mapFunction. cbv zeta.
    apply (forEach_notes audible
             (fun i => 0 <= i < 3 + Z.rem (len (CodeToken.value token)) 3));
      [|apply range_bounds].
    intros s i Hi. cbn [fst]. constructor; [|constructor].
    pose proof (rem_bounds (len (CodeToken.value token)) 3
                  ltac:(unfold len; lia) ltac:(lia)) as Hr.
    apply audible_intro.
    + apply noteNameAt_cases.
    + pose proof (carry_octave (baseNoteIndex s)
                    (nthZ (SCALES (StylePreset.scaleType (style m)))
                          (Z.rem i (Z.of_nat (List.length
                             (SCALES (StylePreset.scaleType (style m)))))))
                    (indexOf_range _)
                    ltac:(pose proof (scale_step
                             (StylePreset.scaleType (style m))
                             (Z.rem i (Z.of_nat (List.length
                                (SCALES (StylePreset.scaleType (style m)))))));
                          lia)).
      lia.
    + apply step_velocity with (n := 3 + Z.rem (len (CodeToken.value token)) 3);
        [exact Hi | lia | discriminate | discriminate].
  - (* loop *)
    unfold mapLoop. cbv zeta.
    set (reps := if JS.eqb _ _ then 2 else if JS.eqb _ _ then 3 else 1).
    assert (Hreps : reps <= 3)
      by (unfold reps; repeat destruct (JS.eqb _ _); lia).
    apply (forEach_notes audible (fun r => 0 <= r < reps));
      [|apply range_bounds].
    intros s r Hr.
    apply (forEach_notes audible (fun _ => True));
      [|apply Forall_forall; intros; exact I].
    intros s' d _. cbn [fst]. constructor; [|constructor].
    apply audible_intro.
    + right. eexists. reflexivity.
    + lia.
    + assert (H : (0 <= inject_Z r <= 2)%Q).
      { split; [change 0%Q with (inject_Z 0) | change 2%Q with (inject_Z 2)];
          rewrite <- Zle_Qle; lia. }
      lra.
  - (* conditional *)
    unfold mapConditional. cbv zeta. cbn [fst].
    apply Forall_map. apply Forall_forall. intros chordNote _.
    apply audible_intro; [right; eexists; reflexivity | lia | velocity].
  - (* variable *)
    unfold mapVariable. cbv zeta. cbn [fst]. rewrite Hc.
    constructor; [|constructor].
    apply audible_intro; [apply noteNameAt_cases | simpl; lia | velocity].
  - (* operator *)
    unfold mapOperator. cbv zeta. cbn [fst]. constructor; [|constructor].
    apply operator_note. velocity.
  - (* string *)
    unfold mapString. cbv zeta. cbn [fst]. constructor; [|constructor].
    apply audible_intro; [apply noteNameAt_cases | lia | velocity].
  - (* number *)
    unfold mapNumber. cbv zeta. cbn [fst]. constructor; [|constructor].
    apply audible_intro; [apply noteNameAt_cases | lia | velocity].
  - (* comment *)
    unfold mapComment. cbv zeta. cbn [fst]. constructor; [|constructor].
    apply audible_intro; [apply noteNameAt_cases | lia | velocity].
  - (* class *)
    unfold mapClass. cbv zeta. cbn [fst].
    apply Forall_map. apply Forall_forall. intros interval Hin.
    apply audible_intro; [apply noteNameAt_cases | | velocity].
    pose proof (carry_octave (baseNoteIndex m) interval (indexOf_range _)
                  ltac:(simpl in Hin; lia)).
    lia.
  - (* import *)
    unfold mapImport. cbv zeta.
    apply (forEach_notes audible (fun i => 0 <= i < 3));
      [|apply range_bounds].
    intros s i Hi. cbn [fst]. constructor; [|constructor].
    apply audible_intro; [apply noteNameAt_cases | lia | velocity].
  - (* return *)
    unfold mapReturn. cbv zeta. cbn [fst].
    change (lit "4") with (toString 4).
    constructor; [|constructor; [|constructor]];
      (apply audible_intro; [apply noteNameAt_cases | lia | velocity]).
  - (* error *)
    unfold mapError. cbv zeta. cbn [fst].
    change (lit "3") with (toString 3).
    apply Forall_map. apply Forall_forall. intros interval _.
    apply audible_intro; [apply noteNameAt_cases | lia | velocity].
  - (* bracket_open *)
    unfold mapBracketOpen. cbv zeta. cbn [fst]. constructor; [|constructor].
    apply audible_intro; [right; eexists; reflexivity | lia | velocity].
  - (* bracket_close *)
    unfold mapBracketClose. cbv zeta. cbn [fst]. constructor; [|constructor].
    apply audible_intro; [right; eexists; reflexivity | lia | velocity].
  - (* whitespace *)
    constructor.
  - unfold mapDefault. cbv zeta. cbn [fst]. constructor; [|constructor].
    apply audible_intro; [apply noteNameAt_cases | lia | velocity].
  - unfold mapDefault. cbv zeta. cbn [fst]. constructor; [|constructor].
    apply audible_intro; [apply noteNameAt_cases | lia | velocity].
  - unfold mapDefault. cbv zeta. cbn [fst]. constructor; [|constructor].
    apply audible_intro; [apply noteNameAt_cases | lia | velocity].
Qed.

Lemma mapToNotes_audible style analysis :
  0 <= CodeMetrics.complexity (CodeAnalysis.metrics analysis) <= 100 ->
  Forall audible (fst (mapToNotes (new style) analysis)).
Proof.
  intros Hcx. unfold mapToNotes. cbv zeta.
  set (tempo := calculateTempo (new style) _).
  assert (Htempo : 70 <= tempo <= 160).
  { apply calculateTempo_range.
    change 0%Q with (inject_Z 0). change 100%Q with (inject_Z 100).
    rewrite <- !Zle_Qle. exact Hcx. }
  apply (forEach_Forall
           (fun m => config m = DEFAULT_CONFIG /\ (0 <= tempoMultiplier m)%Q)
           audible (fun _ => True) mapToken).
  - intros m token [Hc Ht] _.
    pose proof (mapToken_stepOk m token Ht) as (Ec & _ & Et & _).
    split; [|apply mapToken_audible; exact Hc].
    rewrite Ec, Et. split; assumption.
  - apply Forall_forall. intros; exact I.
  - cbn [config tempoMultiplier new]. split; [reflexivity|].
    apply Qle_shift_div_l.
    + change 0%Q with (inject_Z 0). rewrite <- Zlt_Qlt. lia.
    + rewrite Qmult_0_l. discriminate.
Qed.

Lemma mapDiffLine_audible key tempoMultiplier currentTime line :
  Forall audible (fst (mapDiffLine key tempoMultiplier currentTime line)).
Proof.
  unfold mapDiffLine. cbv zeta.
  change (lit "5") with (toString 5). change (lit "4") with (toString 4).
  change (lit "3") with (toString 3). change (lit "2") with (toString 2).
  destruct (DiffLine.type line).
  - (* added *)
    set (n := Z.min 5 _).
    match goal with
    | |- context [forEach ?body (range n) ?s] =>
        pose proof (forEach_notes audible (fun i => 0 <= i < n) body (range n))
          as H;
        destruct (forEach body (range n) s) as [phrase t] eqn:E
    end.
    cbn [fst]. apply Forall_app. split.
    + replace phrase with (fst (phrase, t)) by reflexivity. rewrite <- E.
      apply H; [|apply range_bounds].
      intros s i Hi. cbn [fst]. constructor; [|constructor].
      apply audible_intro.
      * apply noteNameAt_cases.
      * assert (0 <= i / Z.of_nat (List.length (SCALES major)))
          by (apply Z.div_pos; simpl; lia).
        lia.
      * apply step_velocity with (n := n);
          [exact Hi | unfold n; lia | discriminate | discriminate].
    + destruct (20 <? _); [|constructor].
      apply Forall_map. apply Forall_forall. intros interval _.
      apply audible_intro; [apply noteNameAt_cases | lia | velocity].
  - (* removed *)
    set (n := Z.min 4 _).
    match goal with
    | |- context [forEach ?body (range n) ?s] =>
        pose proof (forEach_notes audible (fun i => 0 <= i < n) body (range n))
          as H;
        destruct (forEach body (range n) s) as [phrase t] eqn:E
    end.
    cbn [fst]. apply Forall_app. split.
    + replace phrase with (fst (phrase, t)) by reflexivity. rewrite <- E.
      apply H; [|apply range_bounds].
      intros s i Hi. cbn [fst]. constructor; [|constructor].
      apply audible_intro.
      * apply noteNameAt_cases.
      * assert (0 <= i / Z.of_nat (List.length (SCALES minor)))
          by (apply Z.div_pos; simpl; lia).
        lia.
      * assert (Hq : (0 <= inject_Z i <= 3)%Q).
        { split; [change 0%Q with (inject_Z 0) | change 3%Q with (inject_Z 3)];
            rewrite <- Zle_Qle; unfold n in Hi; lia. }
        lra.
    + constructor; [|constructor].
      apply audible_intro; [right; eexists; reflexivity | lia | velocity].
  - (* context *)
    cbn [fst]. constructor; [|constructor].
    apply audible_intro; [apply noteNameAt_cases | lia | velocity].
  - (* header *)
    cbn [fst]. constructor; [|constructor].
    apply audible_intro; [right; eexists; reflexivity | lia | velocity].
Qed.

Lemma mapDiffToNotes_audible diffLines key scale tempo :
  Forall audible (mapDiffToNotes diffLines key scale tempo).
Proof.
  unfold mapDiffToNotes. cbv zeta.
  apply (forEach_notes audible (fun _ => True));
    [|apply Forall_forall; intros; exact I].
  intros s line _. apply mapDiffLine_audible.
Qed.

Lemma sonifyDiff_tracks now diffText style :
  exists key scale tempo,
    MusicComposition.tracks
      (SonifyDiffResult.composition (sonifyDiff now diffText style))
    = organizeDiffTracks (mapDiffToNotes (parseDiff diffText) key scale tempo)
    /\ tempo = MusicComposition.tempo
                 (SonifyDiffResult.composition (sonifyDiff now diffText style)).
Proof.
  unfold sonifyDiff. cbv zeta.
  cbn [SonifyDiffResult.composition MusicComposition.tracks
       MusicComposition.tempo].
  do 3 eexists. split; reflexivity.
Qed.

Lemma tracks_Forall (P : MusicNote.t -> Prop) notes tracks :
  partitions notes tracks ->
  Forall P notes -> Forall P (flat_map MusicTrack.notes tracks).
Proof.
  intros (_ & Htracks & _) Hnotes.
  apply Forall_flat_map. eapply Forall_impl; [|exact Htracks].
  intros t [-> _]. unfold notesOf.
  apply Forall_forall. intros n Hn. apply filter_In in Hn.
  rewrite Forall_forall in Hnotes. apply Hnotes. tauto.
Qed.

Lemma organizeTracks_partitions notes style :
  partitions notes (organizeTracks notes style).
Proof.
  unfold organizeTracks.
  apply tracks_partition. intros [i ns]. split; reflexivity.
Qed.

Lemma organizeDiffTracks_partitions notes :
  partitions notes (organizeDiffTracks notes).
Proof.
  unfold organizeDiffTracks.
  apply tracks_partition. intros [i ns]. split; reflexivity.
Qed.

(** X15. Every note of a composition of the pipeline, from a text or
    from a diff, is one the encoder keeps as it is: its name reads as a
    MIDI pitch in [0, 127], so the encoder skips none, and its velocity
    lies between 0.15 and 0.9, which the clamp to [1, 127] leaves
    alone. *)
Theorem pipeline_notes_are_kept
    (now : jsstring) (request : SonifyRequest.t) (diffText : jsstring)
    (style : MusicStyle) :
  (exists r,
     sonify now request = Ok r
     /\ Forall audible (allNotes (SonifyResponse.composition r)))
  /\ Forall audible
       (allNotes (SonifyDiffResult.composition (sonifyDiff now diffText style))).
Proof.
  split.
  - destruct (sonify_composition now request) as (r & Hr & Hcx & Htracks & _).
    exists r. split; [exact Hr|]. unfold allNotes. rewrite Htracks.
    apply (tracks_Forall audible _ _ (organizeTracks_partitions _ _)).
    apply mapToNotes_audible. exact Hcx.
  - destruct (sonifyDiff_tracks now diffText style)
      as (key & scale & tempo & Htracks & _).
    unfold allNotes. rewrite Htracks.
    apply (tracks_Forall audible _ _ (organizeDiffTracks_partitions _)).
    apply mapDiffToNotes_audible.
Qed.

End NoteFacts.

(* ------------------------------------------------------------------ *)
(*  Which texts give no note                                           *)
(* ------------------------------------------------------------------ *)
Section SilenceFacts.
Import Parser Mapper Composer Spec Shape.

Lemma forEach_nil {A B S} (I : S -> Prop) (Q : A -> Prop)
    (body : S -> A -> list B * S) (xs : list A) :
  (forall s x, I s -> I (snd (body s x))
                      /\ (fst (body s x) = [] <-> Q x)) ->
  forall s, I s -> (fst (forEach body xs s) = [] <-> Forall Q xs).
Proof.
  intros Hbody. induction xs as [|x xs IH]; intros s Hs; cbn [forEach].
  - split; [constructor | reflexivity].
  - destruct (Hbody s x Hs) as [Hs1 Hx].
    destruct (body s x) as [out1 s1]. cbn [fst snd] in *.
    specialize (IH s1 Hs1).
    destruct (forEach body xs s1) as [out2 s2]. cbn [fst snd] in *.
    split.
    + intros E. apply app_eq_nil in E. destruct E as [E1 E2].
      constructor; [apply Hx; exact E1 | apply IH; exact E2].
    + intros H. inversion H as [|? ? H1 H2]; subst.
      apply Hx in H1. apply IH in H2. rewrite H1, H2. reflexivity.
Qed.

Lemma forEach_range_nonempty {B S} (body : S -> Z -> list B * S) n s :
  1 <= n -> (forall s, fst (body s 0) <> []) ->
  fst (forEach body (range n) s) <> [].
Proof.
  intros Hn Hbody. destruct (range_positive n Hn) as [k ->].
  apply forEach_first_nonempty. apply Hbody.
Qed.

(** Only a whitespace token is mapped to no note. *)
Lemma mapToken_nil m token :
  config m = DEFAULT_CONFIG ->
  (fst (mapToken m token) = [] <-> CodeToken.type token = t_whitespace).
Proof.
  intros Hc. unfold mapToken.
  destruct (CodeToken.type token) eqn:Ety;
    try (split; [|discriminate]; intros E; exfalso; revert E);
    try (split; [reflexivity|]; intros _; reflexivity).
  - unfold mapFunction. cbv zeta. apply forEach_range_nonempty.
    + pose proof (Z.rem_nonneg (len (CodeToken.value token)) 3
                    ltac:(lia) ltac:(unfold len; lia)). lia.
    + intros s. discriminate.
  - unfold mapLoop. cbv zeta. apply forEach_range_nonempty.
    + repeat destruct (JS.eqb _ _); lia.
    + intros s. rewrite Hc. cbn [MappingConfig.loopToRhythm_basePattern
                                   DEFAULT_CONFIG].
      apply forEach_first_nonempty. discriminate.
  - unfold mapConditional. cbv zeta. cbn [fst]. rewrite Hc.
    destruct (_ || _); discriminate.
  - unfold mapVariable. discriminate.
  - unfold mapOperator. discriminate.
  - unfold mapString. discriminate.
  - unfold mapNumber. discriminate.
  - unfold mapComment. discriminate.
  - unfold mapClass. discriminate.
  - unfold mapImport. cbv zeta. apply forEach_range_nonempty; [lia|].
    intros s. discriminate.
  - unfold mapReturn. discriminate.
  - unfold mapError. cbv zeta. cbn [fst]. rewrite Hc. discriminate.
  - unfold mapBracketOpen. discriminate.
  - unfold mapBracketClose. discriminate.
  - unfold mapDefault. discriminate.
  - unfold mapDefault. discriminate.
  - unfold mapDefault. discriminate.
Qed.

Lemma mapToNotes_nil style analysis :
  0 <= CodeMetrics.complexity (CodeAnalysis.metrics analysis) <= 100 ->
  (fst (mapToNotes (new style) analysis) = []
   <-> Forall (fun t => CodeToken.type t = t_whitespace)
              (CodeAnalysis.tokens analysis)).
Proof.
  intros Hcx. unfold mapToNotes. cbv zeta.
  set (tempo := calculateTempo (new style) _).
  assert (Htempo : 70 <= tempo <= 160).
  { apply calculateTempo_range.
    change 0%Q with (inject_Z 0). change 100%Q with (inject_Z 100).
    rewrite <- !Zle_Qle. exact Hcx. }
  apply (forEach_nil
           (fun m => config m = DEFAULT_CONFIG /\ (0 <= tempoMultiplier m)%Q)).
  - intros m token [Hc Ht].
    pose proof (mapToken_stepOk m token Ht) as (Ec & _ & Et & _).
    split; [|apply mapToken_nil; exact Hc].
    rewrite Ec, Et. split; assumption.
  - cbn [config tempoMultiplier new]. split; [reflexivity|].
    apply Qle_shift_div_l.
    + change 0%Q with (inject_Z 0). rewrite <- Zlt_Qlt. lia.
    + rewrite Qmult_0_l. discriminate.
Qed.

Lemma countType_all ty tokens :
  Forall (fun t => CodeToken.type t = ty) tokens -> ty <> t_inherited ->
  countType ty tokens = Z.of_nat (List.length tokens).
Proof.
  intros H Hty. unfold countType, count. f_equal. f_equal.
  induction H as [|t ts Ht Hts IH]; [reflexivity|].
  cbn [List.filter]. rewrite Ht.
  replace (TokenType_eqb ty ty) with true
    by (destruct ty; simpl; congruence).
  rewrite IH. reflexivity.
Qed.

Lemma tokenizeFrom_whitespace lines :
  forall lineIdx d,
    Forall (fun t => CodeToken.type t = t_whitespace)
           (tokenizeFrom lines lineIdx d)
    <-> Forall (fun l => trim l = []) lines.
Proof.
  induction lines as [|line rest IH]; intros lineIdx d; cbn [tokenizeFrom].
  - split; constructor.
  - pose proof (tokenizeLine_kinds line lineIdx d) as K. cbv zeta in K.
    destruct K as (Hne & Hws & _).
    assert (Hline : Forall (fun t => CodeToken.type t = t_whitespace)
                           (fst (tokenizeLine line lineIdx d))
                    <-> trim line = []).
    { split.
      - intros Hall.
        rewrite (countType_all _ _ Hall) in Hws by discriminate.
        destruct (len (trim line) =? 0) eqn:E.
        + apply Z.eqb_eq in E. unfold len in E.
          destruct (trim line); [reflexivity | simpl in E; lia].
        + destruct (fst (tokenizeLine line lineIdx d));
            [contradiction | simpl in Hws; lia].
      - intros E. unfold tokenizeLine. rewrite E. cbn [len List.length].
        cbn [Z.of_nat Z.eqb fst]. repeat constructor. }
    destruct (tokenizeLine line lineIdx d) as [toks d']. cbn [fst] in *.
    rewrite Forall_app, IH, Hline. split.
    + intros [H1 H2]. constructor; assumption.
    + intros H. inversion H; subst. split; assumption.
Qed.

(** X16. A composition [sonify] returns has no track exactly when all
    the lines of the text are blank: a blank line only moves the time
    cursor, any other line holds a token that is mapped to at least one
    note. *)
Theorem no_track_iff_blank
    (now : jsstring) (request : SonifyRequest.t) (r : SonifyResponse.t) :
  sonify now request = Ok r ->
  (MusicComposition.tracks (SonifyResponse.composition r) = []
   <-> Forall (fun l => trim l = [])
              (splitLines (SonifyRequest.code request))).
Proof.
  intros Hr.
  destruct (sonify_composition now request) as (r' & Hr' & Hcx & Htracks & _).
  assert (r' = r) by congruence. subst r'.
  rewrite Htracks.
  assert (Etokens : CodeAnalysis.tokens (SonifyResponse.analysis r)
                    = tokenize (SonifyRequest.code request)
                               (splitLines (SonifyRequest.code request))).
  { clear Hr'. unfold sonify in Hr.
    destruct (analyze_ok (SonifyRequest.code request)
                         (SonifyRequest.language request)) as [ss [_ E]].
    rewrite E in Hr. cbn [bind] in Hr.
    destruct (Mapper.mapToNotes _ _) in Hr.
    injection Hr as <-. reflexivity. }
  unfold tokenize in Etokens.
  rewrite <- (tokenizeFrom_whitespace _ 0 0), <- Etokens.
  rewrite <- (mapToNotes_nil (styleOf request)) by exact Hcx.
  unfold organizeTracks.
  destruct (groupByInstrument_nonempty
              (fst (mapToNotes (new (styleOf request))
                               (SonifyResponse.analysis r)))) as [_ Hnil].
  rewrite <- Hnil. split; [apply map_eq_nil | intros ->; reflexivity].
Qed.

Lemma no_track_iff_blank_witness :
  MusicComposition.tracks
    (SonifyResponse.composition
       (emptyResponse (lit "2026-01-01T00:00:00.000Z") classical)) = []
  <-> Forall (fun l => trim l = [])
             (splitLines (SonifyRequest.code emptyRequest)).
Proof.
  apply (no_track_iff_blank (lit "2026-01-01T00:00:00.000Z") emptyRequest
           (emptyResponse (lit "2026-01-01T00:00:00.000Z") classical)).
  vm_compute. reflexivity.
Defined.

End SilenceFacts.

(* ------------------------------------------------------------------ *)
(*  The notes of the pipeline: order in time                           *)
(* ------------------------------------------------------------------ *)
Section OrderFacts.
Import Mapper Composer Midi Diff Spec Shape.

Lemma inOrder_chord {S} (cur : S -> Q) s s' notes :
  (cur s <= cur s')%Q ->
  Forall (fun n => MusicNote.time n = cur s) notes ->
  inOrder cur s (notes, s').
Proof.
  intros Hle Hn. unfold inOrder. cbn [fst snd].
  split; [exact Hle|]. split.
  - eapply Forall_impl; [|exact Hn]. intros n ->. split; lra.
  - induction Hn as [|n ns Hn Hns IH]; constructor; [exact IH|].
    eapply Forall_impl; [|exact Hns].
    intros n' Hn'. unfold le_time. rewrite Hn, Hn'. lra.
Qed.

Lemma sorted_app (l1 l2 : list MusicNote.t) (t : Q) :
  StronglySorted le_time l1 -> StronglySorted le_time l2 ->
  Forall (fun n => (MusicNote.time n <= t)%Q) l1 ->
  Forall (fun n => (t <= MusicNote.time n)%Q) l2 ->
  StronglySorted le_time (l1 ++ l2).
Proof.
  intros H1 H2 Hle Hge. induction H1 as [|x l1 Hs IH Hx]; simpl; [exact H2|].
  inversion Hle as [|? ? Hxt Hle']; subst.
  constructor; [apply IH; exact Hle'|].
  apply Forall_app. split; [exact Hx|].
  eapply Forall_impl; [|exact Hge].
  intros n Hn. cbv beta in Hn. unfold le_time. lra.
Qed.

Lemma inOrder_app {S} (cur : S -> Q) s out1 s1 out2 s2 :
  inOrder cur s (out1, s1) -> inOrder cur s1 (out2, s2) ->
  inOrder cur s (out1 ++ out2, s2).
Proof.
  unfold inOrder. cbn [fst snd].
  intros (Hle1 & Hn1 & Hs1) (Hle2 & Hn2 & Hs2).
  split; [lra|]. split.
  - apply Forall_app. split.
    + eapply Forall_impl; [|exact Hn1]. intros n Hn. cbv beta in Hn. lra.
    + eapply Forall_impl; [|exact Hn2]. intros n Hn. cbv beta in Hn. lra.
  - apply sorted_app with (t := cur s1); [exact Hs1 | exact Hs2 | |].
    + eapply Forall_impl; [|exact Hn1]. intros n Hn. cbv beta in Hn. lra.
    + eapply Forall_impl; [|exact Hn2]. intros n Hn. cbv beta in Hn. lra.
Qed.

Lemma forEach_inOrder {A S} (cur : S -> Q) (I : S -> Prop)
    (body : S -> A -> list MusicNote.t * S) (xs : list A) :
  (forall s x, I s -> I (snd (body s x)) /\ inOrder cur s (body s x)) ->
  forall s, I s ->
    I (snd (forEach body xs s)) /\ inOrder cur s (forEach body xs s).
Proof.
  intros Hbody. induction xs as [|x xs IH]; intros s Hs; cbn [forEach].
  - split; [exact Hs|]. apply inOrder_chord; [lra | constructor].
  - destruct (Hbody s x Hs) as [Hs1 H1].
    destruct (body s x) as [out1 s1]. cbn [snd] in Hs1.
    destruct (IH s1 Hs1) as [Hs2 H2].
    destruct (forEach body xs s1) as [out2 s2]. cbn [snd] in Hs2.
    split; [exact Hs2|]. eapply inOrder_app; eassumption.
Qed.

Lemma advance_inOrder m notes dt :
  (0 <= tempoMultiplier m)%Q -> (0 <= dt)%Q ->
  Forall (fun n => MusicNote.time n = currentTime m) notes ->
  (0 <= tempoMultiplier (advance m dt))%Q
  /\ inOrder currentTime m (notes, advance m dt).
Proof.
  intros Hm Hdt Hn. split; [exact Hm|].
  apply inOrder_chord; [|exact Hn].
  cbn [snd advance currentTime]. lra.
Qed.

Lemma still_inOrder (m : MusicMapper) notes :
  (0 <= tempoMultiplier m)%Q ->
  Forall (fun n => MusicNote.time n = currentTime m) notes ->
  (0 <= tempoMultiplier m)%Q /\ inOrder currentTime m (notes, m).
Proof.
  intros Hm Hn. split; [exact Hm|].
  apply inOrder_chord; [|exact Hn]. cbn [snd]. lra.
Qed.

Ltac at_cursor :=
  repeat (constructor
          || (apply Forall_forall; intros ? Hin; apply in_map_iff in Hin;
              destruct Hin as [? [<- _]]; reflexivity)).

Ltac forward_dt :=
  repeat (apply Qmult_le_0_compat);
  try apply DURATION_VALUES_nonneg; try assumption; try discriminate.

(** The notes of a token come in the order of their start times. *)
Lemma mapToken_inOrder m token :
  (0 <= tempoMultiplier m)%Q ->
  (0 <= tempoMultiplier (snd (mapToken m token)))%Q
  /\ inOrder currentTime m (mapToken m token).
Proof.
  intros Hm. unfold mapToken.
  destruct (CodeToken.type token).
  - unfold mapFunction. cbv zeta.
    apply (forEach_inOrder currentTime (fun m => (0 <= tempoMultiplier m)%Q));
      [|exact Hm].
    intros m' i Hm'. apply advance_inOrder; [exact Hm' | forward_dt | at_cursor].
  - unfold mapLoop. cbv zeta.
    apply (forEach_inOrder currentTime (fun m => (0 <= tempoMultiplier m)%Q));
      [|exact Hm].
    intros m' r Hm'.
    apply (forEach_inOrder currentTime (fun m => (0 <= tempoMultiplier m)%Q));
      [|exact Hm'].
    intros m'' d Hm''.
    apply advance_inOrder; [exact Hm'' | forward_dt | at_cursor].
  - unfold mapConditional. apply advance_inOrder; [exact Hm | forward_dt | at_cursor].
  - unfold mapVariable. apply advance_inOrder; [exact Hm | forward_dt | at_cursor].
  - unfold mapOperator. apply advance_inOrder; [exact Hm | forward_dt | at_cursor].
  - unfold mapString. apply advance_inOrder; [exact Hm | forward_dt | at_cursor].
  - unfold mapNumber. apply advance_inOrder; [exact Hm | forward_dt | at_cursor].
  - unfold mapComment. apply advance_inOrder; [exact Hm | forward_dt | at_cursor].
  - unfold mapClass. apply advance_inOrder; [exact Hm | forward_dt | at_cursor].
  - unfold mapImport. cbv zeta.
    apply (forEach_inOrder currentTime (fun m => (0 <= tempoMultiplier m)%Q));
      [|exact Hm].
    intros m' i Hm'. apply advance_inOrder; [exact Hm' | forward_dt | at_cursor].
  - unfold mapReturn. cbv zeta.
    split; [exact Hm|].
    apply (inOrder_app currentTime m [_]
             (advance m (DURATION_VALUES d8n * tempoMultiplier m)) [_] _).
    + apply advance_inOrder; [exact Hm | forward_dt | at_cursor].
    + apply advance_inOrder; [exact Hm | forward_dt | at_cursor].
  - unfold mapError. apply advance_inOrder; [exact Hm | forward_dt | at_cursor].
  - unfold mapBracketOpen. apply still_inOrder; [exact Hm | at_cursor].
  - unfold mapBracketClose. apply still_inOrder; [exact Hm | at_cursor].
  - unfold mapWhitespace. apply advance_inOrder; [exact Hm | forward_dt | at_cursor].
  - unfold mapDefault. apply advance_inOrder; [exact Hm | forward_dt | at_cursor].
  - unfold mapDefault. apply advance_inOrder; [exact Hm | forward_dt | at_cursor].
  - unfold mapDefault. apply advance_inOrder; [exact Hm | forward_dt | at_cursor].
Qed.

Lemma mapToNotes_inOrder style analysis :
  0 <= CodeMetrics.complexity (CodeAnalysis.metrics analysis) <= 100 ->
  StronglySorted le_time (fst (mapToNotes (new style) analysis)).
Proof.
  intros Hcx. unfold mapToNotes. cbv zeta.
  set (tempo := calculateTempo (new style) _).
  assert (Htempo : 70 <= tempo <= 160).
  { apply calculateTempo_range.
    change 0%Q with (inject_Z 0). change 100%Q with (inject_Z 100).
    rewrite <- !Zle_Qle. exact Hcx. }
  refine (proj2 (proj2 (proj2
    (forEach_inOrder currentTime (fun m => (0 <= tempoMultiplier m)%Q)
       mapToken (CodeAnalysis.tokens analysis) mapToken_inOrder _ _)))).
  cbn [tempoMultiplier]. apply Qle_shift_div_l.
  - change 0%Q with (inject_Z 0). rewrite <- Zlt_Qlt. lia.
  - rewrite Qmult_0_l. discriminate.
Qed.

Lemma diff_step (s dt : Q) notes :
  (0 <= dt)%Q ->
  Forall (fun n => MusicNote.time n = s) notes ->
  inOrder (fun t : Q => t) s (notes, (s + dt)%Q).
Proof.
  intros Hdt Hn. apply inOrder_chord; [cbn [snd]; lra | exact Hn].
Qed.

Ltac phrase_inOrder Htm :=
  match goal with
  | |- context [forEach ?body ?xs ?s] =>
      let H := fresh "H" in
      assert (H : inOrder (fun t : Q => t) s (forEach body xs s));
      [ refine (proj2 (forEach_inOrder (fun t : Q => t) (fun _ => True)
                         body xs _ s I));
        intros s' x _; split; [exact I|];
        apply diff_step; [nra | repeat constructor]
      | destruct (forEach body xs s) as [phrase t] ]
  end.

Lemma mapDiffLine_inOrder key tempoMultiplier currentTime line :
  (0 <= tempoMultiplier)%Q ->
  inOrder (fun t : Q => t) currentTime
          (mapDiffLine key tempoMultiplier currentTime line).
Proof.
  intros Htm. unfold mapDiffLine. cbv zeta.
  destruct (DiffLine.type line).
  - phrase_inOrder Htm.
    eapply inOrder_app; [eassumption|].
    apply diff_step; [nra|].
    destruct (20 <? _); [|constructor].
    apply Forall_map. apply Forall_forall. intros; reflexivity.
  - phrase_inOrder Htm.
    eapply inOrder_app; [eassumption|].
    apply diff_step; [nra | repeat constructor].
  - apply diff_step; [nra | repeat constructor].
  - apply diff_step; [nra | repeat constructor].
Qed.

Lemma mapDiffToNotes_inOrder diffLines key scale tempo :
  0 < tempo ->
  StronglySorted le_time (mapDiffToNotes diffLines key scale tempo).
Proof.
  intros Htempo. unfold mapDiffToNotes. cbv zeta.
  refine (proj2 (proj2 (proj2
    (forEach_inOrder (fun t : Q => t) (fun _ => True)
       (mapDiffLine key (inject_Z 120 / inject_Z tempo)) diffLines
       (fun s x _ => conj I (mapDiffLine_inOrder key _ s x _)) 0%Q I)))).
  apply Qle_shift_div_l.
  - change 0%Q with (inject_Z 0). rewrite <- Zlt_Qlt. lia.
  - rewrite Qmult_0_l. discriminate.
Qed.

Lemma sorted_filter (p : MusicNote.t -> bool) l :
  StronglySorted le_time l -> StronglySorted le_time (List.filter p l).
Proof.
  induction 1 as [|x l Hs IH Hx]; simpl; [constructor|].
  destruct (p x); [|exact IH].
  constructor; [exact IH|].
  apply Forall_forall. intros y Hy. apply filter_In in Hy.
  rewrite Forall_forall in Hx. apply Hx. tauto.
Qed.

Lemma sortByTime_sorted_id l :
  StronglySorted le_time l -> sortByTime l = l.
Proof.
  induction 1 as [|x l Hs IH Hx]; simpl; [reflexivity|].
  rewrite IH. apply insertByTime_first. exact Hx.
Qed.

Lemma tracks_in_order notes tracks :
  partitions notes tracks -> StronglySorted le_time notes ->
  Forall (fun t => sortByTime (MusicTrack.notes t) = MusicTrack.notes t) tracks.
Proof.
  intros (_ & Htracks & _) Hsorted.
  eapply Forall_impl; [|exact Htracks].
  intros t [E _]. rewrite E. apply sortByTime_sorted_id.
  unfold notesOf. apply sorted_filter. exact Hsorted.
Qed.

(** X17. The notes of every track of a composition of the pipeline,
    from a text or from a diff, are already in the order of their start
    times: the sort of the encoder leaves each track as it is, and the
    notes are written in the order the mapper emitted them. *)
Theorem pipeline_tracks_are_in_time_order
    (now : jsstring) (request : SonifyRequest.t) (diffText : jsstring)
    (style : MusicStyle) :
  (exists r,
     sonify now request = Ok r
     /\ Forall (fun t => sortByTime (MusicTrack.notes t) = MusicTrack.notes t)
               (MusicComposition.tracks (SonifyResponse.composition r)))
  /\ Forall (fun t => sortByTime (MusicTrack.notes t) = MusicTrack.notes t)
            (MusicComposition.tracks
               (SonifyDiffResult.composition (sonifyDiff now diffText style))).
Proof.
  split.
  - destruct (sonify_composition now request) as (r & Hr & Hcx & Htracks & _).
    exists r. split; [exact Hr|]. rewrite Htracks.
    apply (tracks_in_order _ _ (organizeTracks_partitions _ _)).
    apply mapToNotes_inOrder. exact Hcx.
  - destruct (sonifyDiff_tracks now diffText style)
      as (key & scale & tempo & Htracks & Htempo).
    rewrite Htracks.
    apply (tracks_in_order _ _ (organizeDiffTracks_partitions _)).
    apply mapDiffToNotes_inOrder.
    rewrite Htempo. unfold sonifyDiff. cbv zeta.
    cbn [SonifyDiffResult.composition MusicComposition.tempo]. lia.
Qed.

End OrderFacts.

(* ------------------------------------------------------------------ *)
(*  Diffs: lines, counts, two versions of a text                       *)
(* ------------------------------------------------------------------ *)
Section DiffLines.
Import Diff Composer Spec Shape.

Lemma join_cons (sep p : jsstring) (ps : list jsstring) :
  ps <> [] -> join sep (p :: ps) = p ++ sep ++ join sep ps.
Proof. destruct ps; [contradiction | reflexivity]. Qed.

(** Joining the lines of a text with line feeds gives the text back. *)
Lemma join_splitLines (s : jsstring) : join [10] (splitLines s) = s.
Proof.
  induction s as [|c s IH]; [reflexivity|].
  cbn [splitLines]. destruct (c =? 10) eqn:E.
  - apply Z.eqb_eq in E. subst c.
    rewrite join_cons by apply splitLines_nonempty.
    rewrite IH. reflexivity.
  - pose proof (splitLines_nonempty s) as Hne.
    destruct (splitLines s) as [|l ls]; [contradiction|].
    destruct ls as [|l' ls].
    + simpl in *. rewrite IH. reflexivity.
    + rewrite join_cons by discriminate.
      rewrite join_cons in IH by discriminate.
      rewrite <- IH. reflexivity.
Qed.

Lemma startsWith_app (p s : jsstring) :
  startsWith p s = true -> p ++ skipn (List.length p) s = s.
Proof.
  revert s. induction p as [|x p IH]; intros s H; [reflexivity|].
  destruct s as [|y s]; [discriminate|].
  simpl in H. apply andb_true_iff in H. destruct H as [Exy H].
  apply Z.eqb_eq in Exy. subst y. simpl. rewrite IH by exact H. reflexivity.
Qed.

Lemma startsWith_cons x p y s :
  startsWith (x :: p) (y :: s) = (x =? y) && startsWith p s.
Proof. reflexivity. Qed.

Lemma startsWith_nil s : startsWith [] s = true.
Proof. reflexivity. Qed.

Lemma startsWith_cons_nil x p : startsWith (x :: p) [] = false.
Proof. reflexivity. Qed.

Lemma unparse_parseLine (line : jsstring) (lineNum : Z) :
  unparseLine (parseLine line lineNum) = line
  /\ DiffLine.lineNumber (parseLine line lineNum) = lineNum.
Proof.
  unfold parseLine, unparseLine.
  destruct (_ || _); [split; reflexivity|].
  destruct (startsWith (lit "@@") line); [split; reflexivity|].
  destruct (startsWith (lit "+") line) eqn:Ea.
  { split; [|reflexivity]. cbn [DiffLine.type DiffLine.content].
    apply (startsWith_app (lit "+") line Ea). }
  destruct (startsWith (lit "-") line) eqn:Er.
  { split; [|reflexivity]. cbn [DiffLine.type DiffLine.content].
    apply (startsWith_app (lit "-") line Er). }
  split; reflexivity.
Qed.

Lemma parseLines_spec (lines : list jsstring) :
  forall lineNum,
    map unparseLine (parseLines lines lineNum) = lines
    /\ map DiffLine.lineNumber (parseLines lines lineNum)
       = map (fun i => lineNum + Z.of_nat i) (seq 1 (List.length lines)).
Proof.
  induction lines as [|line rest IH]; intros lineNum; [split; reflexivity|].
  cbn [parseLines map List.length seq].
  destruct (unparse_parseLine line (lineNum + 1)) as [-> ->].
  destruct (IH (lineNum + 1)) as [-> ->].
  split; [reflexivity|]. f_equal.
  rewrite <- (seq_shift (List.length rest) 1), map_map.
  apply map_ext. intros i. lia.
Qed.

Lemma count_types (l : list DiffLine.t) :
  count (isType dl_added) l + count (isType dl_removed) l
  + count (isType dl_context) l + count (isType dl_header) l
  = Z.of_nat (List.length l).
Proof.
  unfold count. induction l as [|x l IH]; [reflexivity|].
  destruct x as [ty c n].
  destruct ty; cbn [List.filter isType DiffLine.type List.length]; lia.
Qed.

(** X18. [parseDiff] loses nothing of a diff: it returns one entry per
    line, numbered from 1 in order, from which the line can be written
    back, so that joining the lines the entries stand for with line
    feeds gives the text of the diff; and every entry is of exactly one
    of the four types. *)
Theorem parseDiff_is_lossless (diffText : jsstring) :
  join [10] (map unparseLine (parseDiff diffText)) = diffText
  /\ map DiffLine.lineNumber (parseDiff diffText)
     = map Z.of_nat (seq 1 (List.length (splitLines diffText)))
  /\ List.length (parseDiff diffText) = List.length (splitLines diffText)
  /\ (1 <= List.length (parseDiff diffText))%nat
  /\ count (isType dl_added) (parseDiff diffText)
     + count (isType dl_removed) (parseDiff diffText)
     + count (isType dl_context) (parseDiff diffText)
     + count (isType dl_header) (parseDiff diffText)
     = Z.of_nat (List.length (parseDiff diffText)).
Proof.
  unfold parseDiff.
  destruct (parseLines_spec (splitLines diffText) 0) as [E1 E2].
  assert (Hlen : List.length (parseLines (splitLines diffText) 0)
                 = List.length (splitLines diffText)).
  { rewrite <- E1 at 2. rewrite length_map. reflexivity. }
  split; [rewrite E1; apply join_splitLines|].
  split; [rewrite E2; apply map_ext; intros i; lia|].
  split; [exact Hlen|].
  split.
  - rewrite Hlen. pose proof (splitLines_nonempty diffText).
    destruct (splitLines diffText); [contradiction | simpl; lia].
  - apply count_types.
Qed.

(** X19. Which lines with a marker [parseDiff] takes for changes: a
    line made of [-] and a text counts as removed unless the text starts
    with two more [-], and a line made of [+] and a text counts as added
    unless the text starts with two more [+]; otherwise the line is
    taken for a file header and is counted in neither. *)
Theorem marker_lines (text : jsstring) (lineNum : Z) :
  parseLine (lit "-" ++ text) lineNum
  = (if startsWith (lit "--") text
     then DiffLine.mk dl_header (lit "-" ++ text) lineNum
     else DiffLine.mk dl_removed text lineNum)
  /\ parseLine (lit "+" ++ text) lineNum
     = (if startsWith (lit "++") text
        then DiffLine.mk dl_header (lit "+" ++ text) lineNum
        else DiffLine.mk dl_added text lineNum).
Proof.
  unfold parseLine.
  change (lit "+++") with [43; 43; 43]. change (lit "---") with [45; 45; 45].
  change (lit "diff ") with [100; 105; 102; 102; 32].
  change (lit "index ") with [105; 110; 100; 101; 120; 32].
  change (lit "@@") with [64; 64].
  change (lit "++") with [43; 43]. change (lit "--") with [45; 45].
  change (lit "+") with [43]. change (lit "-") with [45].
  cbn [app].
  split; destruct text as [|a [|b text]];
    rewrite ?startsWith_cons, ?startsWith_nil, ?startsWith_cons_nil;
    [ reflexivity
    | destruct (45 =? a); destruct (43 =? a); reflexivity
    | destruct (45 =? a); destruct (45 =? b);
      destruct (43 =? a); destruct (43 =? b); reflexivity
    | reflexivity
    | destruct (45 =? a); destruct (43 =? a); reflexivity
    | destruct (45 =? a); destruct (45 =? b);
      destruct (43 =? a); destruct (43 =? b); reflexivity ].
Qed.

(** X20. The header of the composition of a diff: the lines analysed
    are the lines of the text, at least one; the three counts are not
    negative and together at most the number of lines; the tempo is
    80 plus two beats per changed line, at most 160, so that the floor
    of 70 is never reached; the complexity is three per changed line,
    at most 100. *)
Theorem sonifyDiff_header (now diffText : jsstring) (style : MusicStyle) :
  let r := sonifyDiff now diffText style in
  let a := SonifyDiffResult.diffAnalysis r in
  let c := SonifyDiffResult.composition r in
  let md := MusicComposition.metadata c in
  CompositionMetadata.linesAnalyzed md
  = Z.of_nat (List.length (splitLines diffText))
  /\ 1 <= CompositionMetadata.linesAnalyzed md
  /\ 0 <= DiffAnalysis.addedLines a
  /\ 0 <= DiffAnalysis.removedLines a
  /\ 0 <= DiffAnalysis.contextLines a
  /\ DiffAnalysis.addedLines a + DiffAnalysis.removedLines a
     + DiffAnalysis.contextLines a <= CompositionMetadata.linesAnalyzed md
  /\ DiffAnalysis.totalChanges a
     = DiffAnalysis.addedLines a + DiffAnalysis.removedLines a
  /\ MusicComposition.tempo c
     = Z.min 160 (80 + 2 * DiffAnalysis.totalChanges a)
  /\ 80 <= MusicComposition.tempo c <= 160
  /\ CompositionMetadata.complexity md
     = Z.min 100 (3 * DiffAnalysis.totalChanges a)
  /\ 0 <= CompositionMetadata.complexity md <= 100.
Proof.
  cbv zeta. rewrite sonifyDiff_analysis. unfold sonifyDiff. cbv zeta.
  cbn [SonifyDiffResult.composition MusicComposition.metadata
       MusicComposition.tempo CompositionMetadata.linesAnalyzed
       CompositionMetadata.complexity].
  unfold analyzeDiff. cbv zeta.
  cbn [DiffAnalysis.addedLines DiffAnalysis.removedLines
       DiffAnalysis.contextLines DiffAnalysis.totalChanges].
  pose proof (count_types (parseDiff diffText)) as Hsum.
  pose proof (count_nonneg (isType dl_added) (parseDiff diffText)).
  pose proof (count_nonneg (isType dl_removed) (parseDiff diffText)).
  pose proof (count_nonneg (isType dl_context) (parseDiff diffText)).
  pose proof (count_nonneg (isType dl_header) (parseDiff diffText)).
  destruct (parseLines_spec (splitLines diffText) 0) as [E1 _].
  assert (Hlen : List.length (parseDiff diffText)
                 = List.length (splitLines diffText)).
  { unfold parseDiff. rewrite <- E1 at 2. rewrite length_map. reflexivity. }
  pose proof (splitLines_nonempty diffText) as Hne.
  assert (1 <= Z.of_nat (List.length (splitLines diffText))).
  { destruct (splitLines diffText); [contradiction | simpl List.length; lia]. }
  rewrite Hlen in *.
  repeat split; try lia.
Qed.

Lemma eqb_refl (s : jsstring) : JS.eqb s s = true.
Proof.
  induction s as [|c s IH]; [reflexivity|].
  simpl. rewrite Z.eqb_refl, IH. reflexivity.
Qed.

Lemma map_nth_error_seq {A B} (f : option A -> B) (l : list A) :
  map (fun i => f (nth_error l i)) (seq 0 (List.length l))
  = map (fun x => f (Some x)) l.
Proof.
  induction l as [|x l IH]; [reflexivity|].
  cbn [List.length seq map nth_error]. f_equal.
  rewrite <- seq_shift, map_map. exact IH.
Qed.

Lemma splitLines_no_lf (s : jsstring) :
  Forall (Forall (fun c => (c =? 10) = false)) (splitLines s).
Proof.
  induction s as [|c s IH]; [repeat constructor|].
  cbn [splitLines]. destruct (c =? 10) eqn:E.
  - constructor; [constructor | exact IH].
  - destruct (splitLines s) as [|l ls]; [repeat constructor; exact E|].
    inversion IH; subst. constructor; [|assumption].
    constructor; assumption.
Qed.

Lemma splitLines_app_line (l rest : jsstring) :
  Forall (fun c => (c =? 10) = false) l ->
  splitLines (l ++ 10 :: rest) = l :: splitLines rest.
Proof.
  induction 1 as [|c l Hc Hl IH]; [reflexivity|].
  cbn [app splitLines]. rewrite Hc, IH. reflexivity.
Qed.

Lemma splitLines_context_lines (lines : list jsstring) :
  Forall (Forall (fun c => (c =? 10) = false)) lines ->
  splitLines (List.concat (map (fun l => lit " " ++ l ++ [10]) lines))
  = map (fun l => 32 :: l) lines ++ [[]].
Proof.
  change (lit " ") with [32]. cbn [app].
  induction 1 as [|l lines Hl Hlines IH]; [reflexivity|].
  cbn [map List.concat]. cbn [app]. rewrite <- app_assoc. cbn [app].
  change (32 :: l ++ 10 :: ?rest) with ((32 :: l) ++ 10 :: rest).
  rewrite (splitLines_app_line (32 :: l)) by (constructor; [reflexivity | exact Hl]).
  rewrite IH. reflexivity.
Qed.

Lemma parseLines_context (lines : list jsstring) :
  forall lineNum,
    Forall (fun e => DiffLine.type e = dl_context /\ fileOf e = [])
           (parseLines (map (fun l => 32 :: l) lines ++ [[]]) lineNum).
Proof.
  induction lines as [|l lines IH]; intros lineNum.
  - repeat constructor.
  - cbn [map app parseLines]. constructor; [|apply IH].
    split; reflexivity.
Qed.

Lemma count_context (l : list DiffLine.t) :
  Forall (fun e => DiffLine.type e = dl_context /\ fileOf e = []) l ->
  count (isType dl_added) l = 0
  /\ count (isType dl_removed) l = 0
  /\ count (isType dl_context) l = Z.of_nat (List.length l)
  /\ flat_map fileOf l = [].
Proof.
  unfold count. induction 1 as [|e l [Hty Hf] Hl IH]; [repeat split|].
  destruct IH as (Ia & Ir & Ic & If).
  assert (Ea : isType dl_added e = false) by (unfold isType; rewrite Hty; reflexivity).
  assert (Er : isType dl_removed e = false) by (unfold isType; rewrite Hty; reflexivity).
  assert (Ec : isType dl_context e = true) by (unfold isType; rewrite Hty; reflexivity).
  cbn [List.filter flat_map]. rewrite Ea, Er, Ec, Hf, If.
  cbn [app List.length]. repeat split; lia.
Qed.

(** X21. Comparing a text with itself: in a result [sonifyTwoVersions]
    returns there is no added and no removed line, one context line per
    line of the text and one for the end of the pseudo-diff, and the
    file [new.code]; the composition of the diff is in D dorian at 80
    beats per minute with complexity 0, whatever the text. *)
Theorem identical_versions_have_no_change
    (now1 now2 now3 code : jsstring) (style : MusicStyle)
    (r : SonifyTwoVersionsResult.t) :
  sonifyTwoVersions now1 now2 now3 code code style = Ok r ->
  let a := SonifyDiffResult.diffAnalysis (SonifyTwoVersionsResult.diff r) in
  let c := SonifyDiffResult.composition (SonifyTwoVersionsResult.diff r) in
  DiffAnalysis.addedLines a = 0
  /\ DiffAnalysis.removedLines a = 0
  /\ DiffAnalysis.contextLines a
     = Z.of_nat (List.length (splitLines code)) + 1
  /\ DiffAnalysis.files a = [lit "new.code"]
  /\ DiffAnalysis.changeRatio a = 1 # 2
  /\ MusicComposition.tempo c = 80
  /\ MusicComposition.key c = nD
  /\ MusicComposition.scale c = dorian
  /\ CompositionMetadata.complexity (MusicComposition.metadata c) = 0
  /\ CompositionMetadata.linesAnalyzed (MusicComposition.metadata c)
     = Z.of_nat (List.length (splitLines code)) + 4.
Proof.
  unfold sonifyTwoVersions.
  destruct (sonify_composition now1 (SonifyRequest.mk code None (Some style)))
    as (r1 & E1 & _).
  destruct (sonify_composition now2 (SonifyRequest.mk code None (Some style)))
    as (r2 & E2 & _).
  rewrite E1, E2. cbn [bind]. intros Hr.
  pose proof (f_equal (fun x => match x with Ok v => v | Throw => r end) Hr)
    as Er.
  cbv beta iota in Er. subst r. clear Hr.
  cbv zeta. cbn [SonifyTwoVersionsResult.diff].
  rewrite Nat.max_id.
  rewrite (map_nth_error_seq (fun o => pseudoDiffLine o o) (splitLines code)).
  assert (Elines : map (fun x => pseudoDiffLine (Some x) (Some x)) (splitLines code)
                   = map (fun l => lit " " ++ l ++ [10]) (splitLines code)).
  { apply map_ext. intros l. unfold pseudoDiffLine. rewrite eqb_refl.
    reflexivity. }
  rewrite Elines.
  set (diffText := lit "--- a/old.code" ++ _).
  assert (Eparse : exists ctx,
             parseDiff diffText
             = [DiffLine.mk dl_header (lit "--- a/old.code") 1;
                DiffLine.mk dl_header (lit "+++ b/new.code") 2;
                DiffLine.mk dl_header (lit "@@ -1 +1 @@") 3] ++ ctx
             /\ List.length ctx = S (List.length (splitLines code))
             /\ Forall (fun e => DiffLine.type e = dl_context /\ fileOf e = [])
                       ctx).
  { exists (parseLines (map (fun l => 32 :: l) (splitLines code) ++ [[]]) 3).
    split; [|split].
    - unfold parseDiff, diffText. cbn [app].
      rewrite (splitLines_app_line (lit "--- a/old.code"))
        by (repeat constructor).
      rewrite (splitLines_app_line (lit "+++ b/new.code"))
        by (repeat constructor).
      rewrite (splitLines_app_line (lit "@@ -1 +1 @@"))
        by (repeat constructor).
      rewrite splitLines_context_lines by apply splitLines_no_lf.
      reflexivity.
    - destruct (parseLines_spec
                  (map (fun l => 32 :: l) (splitLines code) ++ [[]]) 3)
        as [E _].
      rewrite <- (length_map unparseLine), E, length_app, length_map.
      cbn [List.length]. apply Nat.add_1_r.
    - apply parseLines_context. }
  destruct Eparse as (ctx & Eparse & Hlen & Hctx).
  destruct (count_context ctx Hctx) as (Ca & Cr & Cc & Cf).
  rewrite sonifyDiff_analysis. unfold sonifyDiff. cbv zeta.
  cbn [SonifyDiffResult.composition MusicComposition.metadata
       MusicComposition.tempo MusicComposition.key MusicComposition.scale
       CompositionMetadata.linesAnalyzed CompositionMetadata.complexity].
  unfold analyzeDiff. cbv zeta.
  cbn [DiffAnalysis.addedLines DiffAnalysis.removedLines
       DiffAnalysis.contextLines DiffAnalysis.totalChanges
       DiffAnalysis.changeRatio DiffAnalysis.files].
  rewrite Eparse, !count_app, flat_map_app, Ca, Cr, Cc, Cf, length_app, Hlen.
  change (count (isType dl_added) [_; _; _]) with 0.
  change (count (isType dl_removed) [_; _; _]) with 0.
  change (count (isType dl_context) [_; _; _]) with 0.
  replace (flat_map fileOf [_; _; _]) with [lit "new.code"]
    by (vm_compute; reflexivity).
  cbn [Z.add Z.ltb Z.compare].
  repeat split; try reflexivity; try (cbn [List.length]; lia).
Qed.

Lemma identical_versions_have_no_change_witness :
  let r := emptyVersions (lit "2026-01-01T00:00:00.000Z")
             (lit "2026-01-01T00:00:00.001Z") (lit "2026-01-01T00:00:00.002Z") in
  let a := SonifyDiffResult.diffAnalysis (SonifyTwoVersionsResult.diff r) in
  let c := SonifyDiffResult.composition (SonifyTwoVersionsResult.diff r) in
  DiffAnalysis.addedLines a = 0
  /\ DiffAnalysis.removedLines a = 0
  /\ DiffAnalysis.contextLines a
     = Z.of_nat (List.length (splitLines [])) + 1
  /\ DiffAnalysis.files a = [lit "new.code"]
  /\ DiffAnalysis.changeRatio a = 1 # 2
  /\ MusicComposition.tempo c = 80
  /\ MusicComposition.key c = nD
  /\ MusicComposition.scale c = dorian
  /\ CompositionMetadata.complexity (MusicComposition.metadata c) = 0
  /\ CompositionMetadata.linesAnalyzed (MusicComposition.metadata c)
     = Z.of_nat (List.length (splitLines [])) + 4.
Proof.
  apply (identical_versions_have_no_change
           (lit "2026-01-01T00:00:00.000Z") (lit "2026-01-01T00:00:00.001Z")
           (lit "2026-01-01T00:00:00.002Z") [] classical).
  vm_compute. reflexivity.
Defined.

End DiffLines.

(* ------------------------------------------------------------------ *)
(*  Language detection                                                 *)
(* ------------------------------------------------------------------ *)
Section LanguageFacts.
Import Parser RegExp Shape.

Lemma score_from (patterns : list pattern) (code : jsstring) :
  forall n,
    n <= fold_left (fun n p => if test p code then n + 1 else n) patterns n
      <= n + Z.of_nat (List.length patterns).
Proof.
  induction patterns as [|p ps IH]; intros n; cbn [fold_left List.length].
  - lia.
  - destruct (test p code).
    + specialize (IH (n + 1)). lia.
    + specialize (IH n). lia.
Qed.

Lemma score_range (patterns : list pattern) (code : jsstring) :
  0 <= score patterns code <= Z.of_nat (List.length patterns).
Proof. unfold score. pose proof (score_from patterns code 0). lia. Qed.

Lemma matched_range (code : jsstring) (l : CodeLanguage) :
  0 <= matched l code <= 5.
Proof.
  unfold matched. destruct l;
    cbn [LANGUAGE_SIGNATURES find fst snd CodeLanguage_eqb];
    match goal with
    | |- context [score ?ps code] =>
        pose proof (score_range ps code) as H;
        cbn [List.length Z.of_nat Pos.of_succ_nat Pos.succ] in H; lia
    end.
Qed.

(** [detectLanguage] on the numbers of matches of the seven languages,
    in the order of the table. *)
Lemma detectLanguage_matched (code : jsstring) :
  detectLanguage code
  = (let best :=
       fold_left (fun (b : CodeLanguage * Z) (ls : CodeLanguage * Z) =>
                    if snd b <? snd ls then (fst ls, snd ls) else b)
                 (map (fun l => (l, matched l code))
                      [typescript; javascript; python; java; csharp; go; rust])
                 (unknown, 0) in
     if 0 <? snd best then fst best else unknown).
Proof. reflexivity. Qed.

Ltac compare_scores :=
  repeat match goal with
  | |- context [if ?a <? ?b then _ else _] =>
      lazymatch constr:((a, b)) with
      | context [if _ then _ else _] => fail
      | _ => destruct (Z.ltb_spec a b); cbn [fst snd]
      end
  end.

Ltac with_ranges code :=
  pose proof (matched_range code typescript);
  pose proof (matched_range code javascript);
  pose proof (matched_range code python);
  pose proof (matched_range code java);
  pose proof (matched_range code csharp);
  pose proof (matched_range code go);
  pose proof (matched_range code rust);
  assert (matched unknown code = 0) by reflexivity.

(** X22. The language [detectLanguage] returns. Each language matches
    between 0 and 5 of its signatures; the answer is [unknown] exactly
    when no signature of any language matches; otherwise it is a
    language with the greatest number of matches, and of those the first
    in the order of the table: typescript, javascript, python, java,
    csharp, go, rust. *)
Theorem detectLanguage_picks_first_best (code : jsstring) :
  (forall l, 0 <= matched l code <= 5)
  /\ (detectLanguage code = unknown <-> forall l, matched l code = 0)
  /\ (forall l, matched l code <= matched (detectLanguage code) code)
  /\ (detectLanguage code <> unknown ->
      forall l, (rank l < rank (detectLanguage code))%nat ->
                matched l code < matched (detectLanguage code) code).
Proof.
  split; [apply matched_range|].
  rewrite detectLanguage_matched. cbv zeta. cbn [map fold_left fst snd].
  split; [split|split].
  - intros E l. revert E. compare_scores; intros E; try discriminate E;
      destruct l; with_ranges code; lia.
  - intros E.
    pose proof (E javascript) as E1. pose proof (E typescript) as E2.
    pose proof (E python) as E3. pose proof (E java) as E4.
    pose proof (E csharp) as E5. pose proof (E go) as E6.
    pose proof (E rust) as E7. clear E.
    rewrite E1, E2, E3, E4, E5, E6, E7. reflexivity.
  - intros l. compare_scores; destruct l; with_ranges code; lia.
  - unfold rank. cbn [LANGUAGE_SIGNATURES map fst].
    intros Hne l. revert Hne. compare_scores; intros Hne;
      try (exfalso; apply Hne; reflexivity);
      destruct l; cbn [position CodeLanguage_eqb]; intros Hrank;
      with_ranges code; lia.
Qed.

End LanguageFacts.

(* ------------------------------------------------------------------ *)
(*  Encoder: every entry of the file is a byte                         *)
(* ------------------------------------------------------------------ *)
Section FileFacts.
Import Mapper Composer Midi Diff Spec Shape.

Lemma encodeVLQ_bytes (value : Z) : Forall isByte (encodeVLQ value).
Proof.
  unfold encodeVLQ.
  set (v := if value <? 0 then 0 else value).
  destruct (encodeVLQ_loop_shape 5 (sar v 7) [band v 127])
    as (init & E & _ & Hall).
  { pose proof (sar_7_range v). lia. }
  rewrite E. apply Forall_app. split.
  - eapply Forall_impl; [|exact Hall].
    intros b Hb. cbv beta in Hb. unfold isByte. lia.
  - constructor; [|constructor].
    pose proof (band_ones v 7) as Hb. change (Z.ones 7) with 127 in Hb.
    rewrite Hb by lia.
    pose proof (Z.mod_pos_bound (toInt32 v) (2 ^ 7)). unfold isByte. lia.
Qed.

Lemma band_255_byte (v : Z) : isByte (band v 255).
Proof.
  rewrite band_255. pose proof (Z.mod_pos_bound (toInt32 v) 256).
  unfold isByte. lia.
Qed.

Lemma int32ToBytes_bytes (v : Z) : Forall isByte (int32ToBytes v).
Proof. unfold int32ToBytes. repeat constructor; apply band_255_byte. Qed.

Lemma int16ToBytes_bytes (v : Z) : Forall isByte (int16ToBytes v).
Proof. unfold int16ToBytes. repeat constructor; apply band_255_byte. Qed.

Lemma stringToBytes_Forall (P : Z -> Prop) (s : jsstring) :
  Forall P s -> Forall P (stringToBytes s).
Proof.
  assert (H : forall n (s : jsstring), (List.length s <= n)%nat ->
                Forall P s -> Forall P (stringToBytes s)).
  { induction n as [|n IH]; intros s' Hlen Hs.
    - destruct s'; [constructor | simpl in Hlen; lia].
    - destruct s' as [|c [|c2 r]]; [constructor | exact Hs |].
      change (stringToBytes (c :: c2 :: r))
        with (if isHighSurrogate c && isLowSurrogate c2
              then c :: stringToBytes r
              else c :: stringToBytes (c2 :: r)).
      inversion Hs as [|? ? Hc Hs']; subst.
      inversion Hs' as [|? ? Hc2 Hr]; subst.
      destruct (isHighSurrogate c && isLowSurrogate c2).
      + constructor; [exact Hc|]. apply IH; [simpl in *; lia | exact Hr].
      + constructor; [exact Hc|]. apply IH; [simpl in *; lia | exact Hs']. }
  apply (H (List.length s)). lia.
Qed.

Lemma digitsPos_bytes (fuel : nat) :
  forall n acc, Forall isByte acc -> Forall isByte (digitsPos fuel n acc).
Proof.
  induction fuel as [|fuel IH]; intros n acc Hacc; cbn [digitsPos];
    [exact Hacc|].
  cbv zeta.
  assert (Hd : Forall isByte (48 + n mod 10 :: acc)).
  { constructor; [|exact Hacc].
    pose proof (Z.mod_pos_bound n 10). unfold isByte. lia. }
  destruct (n / 10 =? 0); [exact Hd | apply IH; exact Hd].
Qed.

Lemma toString_bytes (n : Z) : Forall isByte (toString n).
Proof.
  unfold toString. destruct (n <? 0).
  - constructor; [unfold isByte; lia|]. apply digitsPos_bytes. constructor.
  - apply digitsPos_bytes. constructor.
Qed.

Lemma lit_bytes (s : string) : Forall isByte (lit s).
Proof.
  unfold lit. apply Forall_map. apply Forall_forall. intros a _.
  pose proof (N_ascii_bounded a) as H. unfold isByte. lia.
Qed.

Lemma languageName_bytes (l : CodeLanguage) : Forall isByte (languageName l).
Proof. destruct l; apply lit_bytes. Qed.

Lemma addMeta_bytes b tick metaType data :
  Forall isByte (events b) -> isByte metaType -> Forall isByte data ->
  Forall isByte (events (addMeta b tick metaType data)).
Proof.
  intros Hb Hm Hd. unfold addMeta. cbn [events].
  apply Forall_app; split; [exact Hb|].
  apply Forall_app; split; [apply encodeVLQ_bytes|].
  cbn [app]. constructor; [unfold isByte; lia|]. constructor; [exact Hm|].
  apply Forall_app; split; [apply encodeVLQ_bytes | exact Hd].
Qed.

Lemma build_bytes b : Forall isByte (events b) -> Forall isByte (build b).
Proof.
  intros Hb. unfold build. cbv zeta. rewrite addEndOfTrack_events.
  apply Forall_app; split;
    [unfold TRACK_CHUNK, isByte; repeat (constructor; [lia|]); constructor|].
  apply Forall_app; split; [apply int32ToBytes_bytes|].
  apply Forall_app; split; [exact Hb|].
  unfold isByte; repeat (constructor; [lia|]); constructor.
Qed.

Lemma noteBytes_bytes tempo channel notes :
  forall last, Forall isByte (noteBytes tempo channel last notes).
Proof.
  induction notes as [|note notes IH]; intros last; cbn [noteBytes];
    [constructor|].
  destruct (pitchInRange note) eqn:E; [|apply IH].
  apply pitchInRange_spec in E. cbv zeta.
  destruct (status_bytes channel) as [Hon Hoff].
  apply Forall_app; split; [apply encodeVLQ_bytes|].
  cbn [app]. do 3 (constructor; [unfold isByte; lia|]).
  apply Forall_app; split; [apply encodeVLQ_bytes|].
  cbn [app]. do 3 (constructor; [unfold isByte; lia|]).
  apply IH.
Qed.

Lemma trackChunk_bytes tempo track : Forall isByte (trackChunk tempo track).
Proof.
  unfold trackChunk. cbv zeta. apply build_bytes.
  destruct (addNotes_bytes tempo (channelMap (MusicTrack.instrument track))
              (sortByTime (MusicTrack.notes track))
              (if negb (channelMap (MusicTrack.instrument track) =? 9)
               then addProgramChange
                      (addTrackName newBuilder (asciiOnly (MusicTrack.name track)))
                      (channelMap (MusicTrack.instrument track))
                      (INSTRUMENT_PROGRAMS (MusicTrack.instrument track))
               else addTrackName newBuilder (asciiOnly (MusicTrack.name track))))
    as [E _].
  rewrite E. apply Forall_app. split; [|apply noteBytes_bytes].
  assert (Hname : Forall isByte
                    (events (addTrackName newBuilder
                               (asciiOnly (MusicTrack.name track))))).
  { unfold addTrackName. apply addMeta_bytes;
      [constructor | unfold isByte; lia|].
    rewrite stringToBytes_asciiOnly.
    eapply Forall_impl; [|apply asciiOnly_units].
    intros c Hc. cbv beta in Hc. unfold isByte. lia. }
  destruct (negb _); [|exact Hname].
  unfold addProgramChange, addEvent. cbn [events].
  apply Forall_app; split; [exact Hname|].
  apply Forall_app; split; [apply encodeVLQ_bytes|].
  destruct (programChange_bytes (MusicTrack.instrument track)) as [-> ->].
  destruct (MusicTrack.instrument track);
    do 2 (constructor; [unfold isByte; simpl; lia|]); constructor.
Qed.

Lemma Buffer_from_bytes (l : list Z) : Forall isByte l -> Buffer_from l = l.
Proof.
  unfold Buffer_from. induction 1 as [|b l Hb Hl IH]; [reflexivity|].
  cbn [map]. rewrite IH. f_equal. apply Z.mod_small. unfold isByte in Hb. lia.
Qed.

Lemma tempoTrackChunk_bytes (c : MusicComposition.t) :
  Forall isByte (stringToBytes (MusicComposition.title c)) ->
  isByte (fst (MusicComposition.timeSignature c)) ->
  isByte (Z.log2 (snd (MusicComposition.timeSignature c))) ->
  Forall isByte (tempoTrackChunk c).
Proof.
  intros Htitle Hnum Hden. unfold tempoTrackChunk. cbv zeta.
  apply build_bytes. apply addMeta_bytes; [|unfold isByte; lia|].
  - unfold addTimeSignature. apply addMeta_bytes; [|unfold isByte; lia|].
    + unfold addTempo. cbv zeta. apply addMeta_bytes; [|unfold isByte; lia|].
      * unfold addTrackName. apply addMeta_bytes;
          [constructor | unfold isByte; lia | exact Htitle].
      * do 3 (constructor; [apply band_255_byte|]). constructor.
    + constructor; [exact Hnum|]. constructor; [exact Hden|].
      do 2 (constructor; [unfold isByte; lia|]). constructor.
  - apply stringToBytes_Forall.
    repeat (apply Forall_app; split);
      try apply lit_bytes; try apply languageName_bytes; apply toString_bytes.
Qed.

Lemma generate_raw (c : MusicComposition.t) :
  Forall isByte (tempoTrackChunk c) ->
  generate c
  = [77; 84; 104; 100; 0; 0; 0; 6; 0; 1]
    ++ int16ToBytes (1 + Z.of_nat (List.length (MusicComposition.tracks c)))
    ++ [1; 224] ++ List.concat (trackChunks c).
Proof.
  intros Htempo. unfold generate. cbv zeta.
  rewrite Buffer_from_bytes.
  - unfold trackChunks at 1. cbn [List.length]. rewrite length_map.
    replace (Z.of_nat (S (List.length (MusicComposition.tracks c))))
      with (1 + Z.of_nat (List.length (MusicComposition.tracks c))) by lia.
    change (int16ToBytes TICKS_PER_BEAT) with [1; 224].
    change (HEADER_CHUNK ++ int32ToBytes 6 ++ int16ToBytes 1 ++ ?x)
      with ([77; 84; 104; 100; 0; 0; 0; 6; 0; 1] ++ x).
    rewrite <- !app_assoc. reflexivity.
  - apply Forall_app; split.
    { apply Forall_app; split;
        [unfold HEADER_CHUNK, isByte; repeat (constructor; [lia|]);
         constructor|].
      apply Forall_app; split; [apply int32ToBytes_bytes|].
      apply Forall_app; split; [apply int16ToBytes_bytes|].
      apply Forall_app; split; apply int16ToBytes_bytes. }
    apply Forall_concat. unfold trackChunks. constructor; [exact Htempo|].
    apply Forall_map. apply Forall_forall. intros t _.
    apply trackChunk_bytes.
Qed.

(** X23. When the title of a composition holds only characters below
    256 and the two numbers of its time signature fit a byte, no entry
    of the array the encoder assembles is outside [0, 255]:
    [Buffer.from] stores every entry as it is, and the file is the fixed
    header, the number of chunks on two bytes, the resolution 480, and
    the chunks. *)
Theorem file_bytes_are_not_truncated (c : MusicComposition.t) :
  Forall isByte (stringToBytes (MusicComposition.title c)) ->
  isByte (fst (MusicComposition.timeSignature c)) ->
  isByte (Z.log2 (snd (MusicComposition.timeSignature c))) ->
  Forall (Forall isByte) (trackChunks c)
  /\ generate c
     = [77; 84; 104; 100; 0; 0; 0; 6; 0; 1]
       ++ int16ToBytes (1 + Z.of_nat (List.length (MusicComposition.tracks c)))
       ++ [1; 224] ++ List.concat (trackChunks c).
Proof.
  intros Htitle Hnum Hden.
  pose proof (tempoTrackChunk_bytes c Htitle Hnum Hden) as Htempo.
  split; [|apply generate_raw; exact Htempo].
  unfold trackChunks. constructor; [exact Htempo|].
  apply Forall_map. apply Forall_forall. intros t _. apply trackChunk_bytes.
Qed.

Lemma file_bytes_are_not_truncated_witness :
  Forall (Forall isByte) (trackChunks sampleComposition)
  /\ generate sampleComposition
     = [77; 84; 104; 100; 0; 0; 0; 6; 0; 1]
       ++ int16ToBytes
            (1 + Z.of_nat (List.length (MusicComposition.tracks sampleComposition)))
       ++ [1; 224] ++ List.concat (trackChunks sampleComposition).
Proof.
  apply (file_bytes_are_not_truncated sampleComposition).
  - unfold isByte. simpl. repeat (constructor; [lia|]). constructor.
  - unfold isByte. simpl. lia.
  - unfold isByte. simpl. lia.
Defined.

(** X24. The files of the pipeline: for every composition made from a
    text or from a diff the conditions hold, so its file is the header
    followed by the chunks, no byte changed. *)
Theorem pipeline_files_are_not_truncated
    (now : jsstring) (request : SonifyRequest.t) (diffText : jsstring)
    (style : MusicStyle) :
  (exists r,
     sonify now request = Ok r
     /\ generate (SonifyResponse.composition r)
        = [77; 84; 104; 100; 0; 0; 0; 6; 0; 1]
          ++ int16ToBytes
               (1 + Z.of_nat (List.length
                    (MusicComposition.tracks (SonifyResponse.composition r))))
          ++ [1; 224]
          ++ List.concat (trackChunks (SonifyResponse.composition r)))
  /\ generate (SonifyDiffResult.composition (sonifyDiff now diffText style))
     = [77; 84; 104; 100; 0; 0; 0; 6; 0; 1]
       ++ int16ToBytes
            (1 + Z.of_nat (List.length
                 (MusicComposition.tracks
                    (SonifyDiffResult.composition
                       (sonifyDiff now diffText style)))))
       ++ [1; 224]
       ++ List.concat
            (trackChunks
               (SonifyDiffResult.composition (sonifyDiff now diffText style))).
Proof.
  split.
  - unfold sonify.
    destruct (analyze_ok (SonifyRequest.code request)
                         (SonifyRequest.language request)) as [ss [_ E]].
    rewrite E. cbn [bind].
    destruct (Mapper.mapToNotes _ _) as [notes mapper].
    eexists. split; [reflexivity|].
    cbn [SonifyResponse.composition].
    apply generate_raw. apply tempoTrackChunk_bytes.
    + unfold buildComposition. cbn [MusicComposition.title].
      apply stringToBytes_Forall.
      repeat (apply Forall_app; split);
        try apply lit_bytes; apply languageName_bytes.
    + unfold isByte. simpl. lia.
    + unfold isByte. simpl. lia.
  - apply generate_raw. apply tempoTrackChunk_bytes.
    + unfold sonifyDiff. cbv zeta.
      cbn [SonifyDiffResult.composition MusicComposition.title].
      apply stringToBytes_Forall.
      repeat (apply Forall_app; split);
        try apply lit_bytes; apply toString_bytes.
    + unfold isByte. simpl. lia.
    + unfold isByte. simpl. lia.
Qed.

End FileFacts.

(* ------------------------------------------------------------------ *)
(*  Names of notes and tempo                                           *)
(* ------------------------------------------------------------------ *)
Section PitchFacts.
Import Mapper Midi Spec Shape.

(** X25. The names the mapper gives to notes are read back by the
    encoder: a name of the table followed by an octave from 0 to 9 is
    the pitch 12 * (octave + 1) + the place of the name in the table,
    so that C4 is 60; the pitch is within [0, 127] except for the names
    from G#9 on. *)
Theorem note_names_read_back (n : NoteName) (octave : Z) :
  0 <= octave <= 9 ->
  noteStringToMidi (noteName n ++ toString octave)
  = 12 * (octave + 1) + indexOf n
  /\ (noteStringToMidi (noteName n ++ toString octave) <= 127
      <-> octave < 9 \/ indexOf n <= 7).
Proof.
  intros Ho.
  assert (Hcases : octave = 0 \/ octave = 1 \/ octave = 2 \/ octave = 3
                   \/ octave = 4 \/ octave = 5 \/ octave = 6 \/ octave = 7
                   \/ octave = 8 \/ octave = 9) by lia.
  assert (E : noteStringToMidi (noteName n ++ toString octave)
              = 12 * (octave + 1) + indexOf n).
  { destruct n;
      repeat (destruct Hcases as [-> | Hcases]; [vm_compute; reflexivity|]);
      subst octave; vm_compute; reflexivity. }
  split; [exact E|]. rewrite E.
  pose proof (indexOf_range n). lia.
Qed.

Lemma note_names_read_back_witness :
  noteStringToMidi (noteName nC ++ toString 4) = 12 * (4 + 1) + indexOf nC
  /\ (noteStringToMidi (noteName nC ++ toString 4) <= 127
      <-> 4 < 9 \/ indexOf nC <= 7).
Proof.
  apply (note_names_read_back nC 4). lia.
Defined.

Lemma round_monotone (a b : Q) : (a <= b)%Q -> round a <= round b.
Proof.
  intros H. unfold round. apply Qfloor_resp_le. apply Qplus_le_l. exact H.
Qed.

(** X26. More complex code plays faster: the tempo [calculateTempo]
    returns does not decrease when the complexity grows. *)
Theorem calculateTempo_monotone (style : MusicStyle) (c1 c2 : Q) :
  (c1 <= c2)%Q ->
  calculateTempo (new style) c1 <= calculateTempo (new style) c2.
Proof.
  intros H. unfold calculateTempo. cbv zeta.
  cbn [config new MappingConfig.complexityToTempo_minBPM
       MappingConfig.complexityToTempo_maxBPM DEFAULT_CONFIG].
  apply round_monotone.
  change (inject_Z (160 - 70)) with 90%Q. change (inject_Z 70) with 70%Q.
  change (inject_Z 100) with 100%Q.
  change (c1 / 100)%Q with (c1 * (1 # 100))%Q.
  change (c2 / 100)%Q with (c2 * (1 # 100))%Q.
  lra.
Qed.

Lemma calculateTempo_monotone_witness :
  calculateTempo (new classical) 10 <= calculateTempo (new classical) 55.
Proof.
  apply (calculateTempo_monotone classical 10 55). discriminate.
Defined.

End PitchFacts.

(* ------------------------------------------------------------------ *)
(*  Encoder: reading the file back                                     *)
(* ------------------------------------------------------------------ *)
Section ReaderFacts.
Import Midi Spec Shape.

Lemma build_payload (b : MidiTrackBuilder) :
  build b
  = TRACK_CHUNK
    ++ int32ToBytes (Z.of_nat (List.length (events (addEndOfTrack b))))
    ++ events (addEndOfTrack b).
Proof. reflexivity. Qed.

Lemma trackChunks_built (c : MusicComposition.t) :
  Forall (fun chunk => exists b, chunk = build b) (trackChunks c).
Proof.
  unfold trackChunks. constructor.
  - unfold tempoTrackChunk. cbv zeta. eexists. reflexivity.
  - apply Forall_map. apply Forall_forall. intros t _.
    unfold trackChunk. cbv zeta. eexists. reflexivity.
Qed.

Lemma readChunks_concat (chunks : list (list Z)) :
  Forall (fun chunk => (exists b, chunk = build b)
                       /\ Z.of_nat (List.length chunk) < 2 ^ 31) chunks ->
  readChunks (List.length chunks) (List.concat chunks)
  = Some (map (skipn 8) chunks).
Proof.
  induction 1 as [|chunk chunks [[b ->] Hlen] Hall IH]; [reflexivity|].
  cbn [List.length List.concat map]. rewrite build_payload in *.
  set (payload := events (addEndOfTrack b)) in *.
  assert (Hp : 0 <= Z.of_nat (List.length payload) < 2 ^ 31).
  { rewrite !length_app in Hlen. lia. }
  destruct (int_bytes_value _ Hp) as [Ebe _].
  unfold TRACK_CHUNK, int32ToBytes in *. cbn [app] in *.
  cbn [readChunks]. cbv zeta.
  rewrite Ebe, Nat2Z.id.
  replace (List.length payload <=? List.length (payload ++ List.concat chunks))%nat
    with true
    by (symmetry; apply Nat.leb_le; rewrite length_app; lia).
  rewrite skipn_app, skipn_all, Nat.sub_diag, firstn_app, firstn_all,
    Nat.sub_diag.
  cbn [skipn firstn app]. rewrite app_nil_r, IH. reflexivity.
Qed.

(** X27. Reading the file back: when no entry is truncated (the
    conditions on the title and the time signature), there are fewer
    than 65535 tracks and every chunk is shorter than 2^31 bytes, a
    reader of Standard MIDI Files finds in [generate c] format 1, the
    division 480 and exactly the chunks the encoder built, in order, the
    count and the length fields agreeing with what follows them. *)
Theorem generate_reads_back (c : MusicComposition.t) :
  Forall isByte (stringToBytes (MusicComposition.title c)) ->
  isByte (fst (MusicComposition.timeSignature c)) ->
  isByte (Z.log2 (snd (MusicComposition.timeSignature c))) ->
  Z.of_nat (List.length (MusicComposition.tracks c)) < 65535 ->
  Forall (fun chunk => Z.of_nat (List.length chunk) < 2 ^ 31) (trackChunks c) ->
  readFile (generate c) = Some (1, 480, map (skipn 8) (trackChunks c)).
Proof.
  intros Htitle Hnum Hden Hcount Hlen.
  rewrite (generate_raw c (tempoTrackChunk_bytes c Htitle Hnum Hden)).
  assert (Hn : 0 <= 1 + Z.of_nat (List.length (MusicComposition.tracks c))
               < 2 ^ 31) by lia.
  destruct (int_bytes_value _ Hn) as (_ & E16 & _).
  unfold int16ToBytes in *. cbn [app]. unfold readFile.
  rewrite E16, Z.mod_small by lia.
  replace (Z.to_nat (1 + Z.of_nat (List.length (MusicComposition.tracks c))))
    with (List.length (trackChunks c))
    by (unfold trackChunks; cbn [List.length]; rewrite length_map; lia).
  rewrite readChunks_concat; [reflexivity|].
  pose proof (trackChunks_built c) as Hbuilt.
  rewrite Forall_forall in *. intros chunk Hin. split; auto.
Qed.

Lemma generate_reads_back_witness :
  readFile (generate sampleComposition)
  = Some (1, 480, map (skipn 8) (trackChunks sampleComposition)).
Proof.
  apply (generate_reads_back sampleComposition).
  - unfold isByte. simpl. repeat (constructor; [lia|]). constructor.
  - unfold isByte. simpl. lia.
  - unfold isByte. simpl. lia.
  - simpl. lia.
  - repeat (constructor; [vm_compute; reflexivity|]). constructor.
Defined.

End ReaderFacts.
